(** * commit-lint: the subject linter of [main.go], embedded and verified

    The program is a single Go file.  Its logic sits in [LintSubject]
    (a regular expression followed by seven independent checks), in the
    configuration loader [NewLinter] and in the two environment helpers
    [readEnvList] and [getEnvBool].

    Go strings are immutable byte sequences, so a string is a list of
    bytes here; a slice of strings is an optional list, [None] being the
    [nil] slice, because [LintSubject] tells [nil] from an empty slice.
    The functions of the Go standard library that [main.go] calls
    ([strings], [unicode], [unicode/utf8], [strconv], [regexp], [fmt])
    are modelled in modules named after their packages. *)

From Stdlib Require Import String Ascii List ZArith NArith Lia Bool DecimalString.
Import ListNotations.

Set Implicit Arguments.

(** ** Bytes, strings and slices *)

(** A byte. *)
Abbreviation byte := ascii.

(** A Go [string]. *)
Abbreviation gostring := (list byte).

(** A Go string literal. *)
Definition str (s : string) : gostring := list_ascii_of_string s.

(** A Go [[]string]: [None] is [nil], [Some l] a non-nil slice. *)
Definition slice := option (list gostring).

(** [range] over a slice; ranging over [nil] runs no iteration. *)
Definition elems (s : slice) : list gostring :=
  match s with
  | None => []
  | Some l => l
  end.

(** [s != nil]. *)
Definition notNil (s : slice) : bool :=
  match s with
  | None => false
  | Some _ => true
  end.

(** [len(s)]. *)
Definition len (s : slice) : nat := List.length (elems s).

(** [append(s, x)]: appending to [nil] allocates. *)
Definition append (s : slice) (x : gostring) : slice := Some (elems s ++ [x]).

(** The numeric value of a byte. *)
Definition code (c : byte) : N := N_of_ascii c.

(** [lo <= c && c <= hi] on bytes. *)
Definition inRange (lo hi : N) (c : byte) : bool :=
  ((lo <=? code c) && (code c <=? hi))%N.

(** [a == b] on strings. *)
Fixpoint eqs (a b : gostring) : bool :=
  match a, b with
  | [], [] => true
  | x :: a', y :: b' => Ascii.eqb x y && eqs a' b'
  | _, _ => false
  end.

(** ** Package [unicode/utf8] *)

Module utf8.

Definition RuneError : N := 0xFFFD.
Definition RuneSelf : N := 0x80.
Definition UTFMax : nat := 4.

(** The information byte of the table [first]: [0xF0] for ASCII, [0xF1]
    for a byte that starts no rune, otherwise the size of the sequence in
    the low bits and the index of the accepted range of the second byte
    in the high ones. *)
Definition first (b : N) : N :=
  (if b <? 0x80 then 0xF0
   else if b <? 0xC2 then 0xF1
   else if b <? 0xE0 then 0x02
   else if b =? 0xE0 then 0x13
   else if b <? 0xED then 0x03
   else if b =? 0xED then 0x23
   else if b <? 0xF0 then 0x03
   else if b =? 0xF0 then 0x34
   else if b <? 0xF4 then 0x04
   else if b =? 0xF4 then 0x44
   else 0xF1)%N.

(** [acceptRanges]: the bounds of the second byte. *)
Definition acceptRanges (i : N) : N * N :=
  (match i with
   | 0 => (0x80, 0xBF)
   | 1 => (0xA0, 0xBF)
   | 2 => (0x80, 0x9F)
   | 3 => (0x90, 0xBF)
   | 4 => (0x80, 0x8F)
   | _ => (0, 0)
   end)%N.

Definition locb : N := 0x80.
Definition hicb : N := 0xBF.

(** [DecodeRuneInString]: the first rune of [s] and its width in bytes;
    an invalid or truncated encoding yields [(RuneError, 1)]. *)
Definition DecodeRuneInString (s : gostring) : N * nat :=
  match s with
  | [] => (RuneError, 0%nat)
  | c0 :: t =>
      let s0 := code c0 in
      let x := first s0 in
      (if 0xF0 <=? x then
         if x =? 0xF0 then (s0, 1%nat) else (RuneError, 1%nat)
       else
         let sz := N.to_nat (N.land x 7) in
         let accept := acceptRanges (N.shiftr x 4) in
         if (List.length s <? sz)%nat then (RuneError, 1%nat)
         else
           match t with
           | [] => (RuneError, 1%nat)
           | c1 :: t1 =>
               let s1 := code c1 in
               if (s1 <? fst accept) || (snd accept <? s1) then (RuneError, 1%nat)
               else if (sz <=? 2)%nat then
                 (N.lor (N.shiftl (N.land s0 0x1F) 6) (N.land s1 0x3F), 2%nat)
               else
                 match t1 with
                 | [] => (RuneError, 1%nat)
                 | c2 :: t2 =>
                     let s2 := code c2 in
                     if (s2 <? locb) || (hicb <? s2) then (RuneError, 1%nat)
                     else if (sz <=? 3)%nat then
                       (N.lor (N.lor (N.shiftl (N.land s0 0x0F) 12)
                                     (N.shiftl (N.land s1 0x3F) 6))
                              (N.land s2 0x3F), 3%nat)
                     else
                       match t2 with
                       | [] => (RuneError, 1%nat)
                       | c3 :: _ =>
                           let s3 := code c3 in
                           if (s3 <? locb) || (hicb <? s3) then (RuneError, 1%nat)
                           else
                             (N.lor (N.lor (N.lor (N.shiftl (N.land s0 0x07) 18)
                                                  (N.shiftl (N.land s1 0x3F) 12))
                                           (N.shiftl (N.land s2 0x3F) 6))
                                    (N.land s3 0x3F), 4%nat)
                       end
                 end
           end)%N
  end.

(** [RuneStart]: the byte is not a continuation byte. *)
Definition RuneStart (b : byte) : bool :=
  negb (N.land (code b) 0xC0 =? 0x80)%N.

(** The backwards search of [DecodeLastRuneInString] for the start of the
    last rune: [start] is decremented while it stays at or above [lim]
    and the byte there starts no rune.  [n] bounds the iterations
    ([start - lim + 1] suffices). *)
Fixpoint seekStart (s : gostring) (n : nat) (start lim : Z) : Z :=
  match n with
  | O => start
  | S n' =>
      (if start <? lim then start
       else if RuneStart (nth (Z.to_nat start) s zero) then start
       else seekStart s n' (start - 1) lim)%Z
  end.

(** [DecodeLastRuneInString]: the last rune of [s] and its width. *)
Definition DecodeLastRuneInString (s : gostring) : N * nat :=
  let end_ := Z.of_nat (List.length s) in
  (if end_ =? 0 then (RuneError, 0%nat)
   else
     let start := end_ - 1 in
     let r := code (nth (Z.to_nat start) s zero) in
     if (r <? RuneSelf)%N then (r, 1%nat)
     else
       let lim := end_ - Z.of_nat UTFMax in
       let lim := if lim <? 0 then 0 else lim in
       let start := seekStart s UTFMax (start - 1) lim in
       let start := if start <? lim then lim else start in
       let '(r, size) := DecodeRuneInString (skipn (Z.to_nat start) s) in
       if negb (start + Z.of_nat size =? end_) then (RuneError, 1%nat)
       else (r, size))%Z.

End utf8.

(** ** Package [unicode] *)

Module unicode.

Definition MaxLatin1 : N := 0xFF.

(** [IsSpace]: the Latin-1 switch, then the [White_Space] range table. *)
Definition IsSpace (r : N) : bool :=
  (if r <=? MaxLatin1 then
     (r =? 0x09) || (r =? 0x0A) || (r =? 0x0B) || (r =? 0x0C) || (r =? 0x0D)
     || (r =? 0x20) || (r =? 0x85) || (r =? 0xA0)
   else
     (r =? 0x1680) || ((0x2000 <=? r) && (r <=? 0x200A))
     || ((0x2028 <=? r) && (r <=? 0x2029)) || (r =? 0x202F)
     || (r =? 0x205F) || (r =? 0x3000))%N.

End unicode.

(** ** Package [strings] *)

Module strings.

(** [indexFunc]: the byte index of the first rune [r] of [s] with
    [f r == truth], or [-1].  [s] is the part of the string from index
    [i] on; a rune is at least one byte wide, so [n = len(s)] iterations
    are enough. *)
Fixpoint indexFunc_loop (f : N -> bool) (truth : bool) (n : nat) (i : Z)
    (s : gostring) : Z :=
  match n with
  | O => -1
  | S n' =>
      match s with
      | [] => -1
      | _ :: _ =>
          let '(r, size) := utf8.DecodeRuneInString s in
          if Bool.eqb (f r) truth then i
          else indexFunc_loop f truth n' (i + Z.of_nat size) (skipn size s)
      end
  end.

Definition indexFunc (s : gostring) (f : N -> bool) (truth : bool) : Z :=
  indexFunc_loop f truth (List.length s) 0 s.

(** [lastIndexFunc]: the same from the end, decoding runes backwards. *)
Fixpoint lastIndexFunc_loop (f : N -> bool) (truth : bool) (n : nat) (i : Z)
    (s : gostring) : Z :=
  match n with
  | O => -1
  | S n' =>
      if (0 <? i)%Z then
        let '(r, size) := utf8.DecodeLastRuneInString (firstn (Z.to_nat i) s) in
        let i := (i - Z.of_nat size)%Z in
        if Bool.eqb (f r) truth then i
        else lastIndexFunc_loop f truth n' i s
      else -1
  end.

Definition lastIndexFunc (s : gostring) (f : N -> bool) (truth : bool) : Z :=
  lastIndexFunc_loop f truth (List.length s) (Z.of_nat (List.length s)) s.

Definition TrimLeftFunc (s : gostring) (f : N -> bool) : gostring :=
  let i := indexFunc s f false in
  if (i =? -1)%Z then [] else skipn (Z.to_nat i) s.

Definition TrimRightFunc (s : gostring) (f : N -> bool) : gostring :=
  let i := lastIndexFunc s f false in
  let i :=
    if (0 <=? i)%Z && (utf8.RuneSelf <=? code (nth (Z.to_nat i) s zero))%N then
      let '(_, wid) := utf8.DecodeRuneInString (skipn (Z.to_nat i) s) in
      (i + Z.of_nat wid)%Z
    else (i + 1)%Z in
  firstn (Z.to_nat i) s.

Definition TrimFunc (s : gostring) (f : N -> bool) : gostring :=
  TrimRightFunc (TrimLeftFunc s f) f.

(** The table [asciiSpace]: tab, line feed, vertical tab, form feed,
    carriage return and space. *)
Definition asciiSpace (c : byte) : bool :=
  let n := code c in
  ((n =? 9) || (n =? 10) || (n =? 11) || (n =? 12) || (n =? 13) || (n =? 32))%N.

(** The second loop of [TrimSpace], on [s = s[start:]]: [stop] walks down
    from [len(s)] over ASCII white space and hands over to
    [TrimRightFunc] at the first byte that is not ASCII. *)
Fixpoint trimStop (s : gostring) (stop : nat) : gostring :=
  match stop with
  | O => []
  | S stop' =>
      let c := nth stop' s zero in
      if (utf8.RuneSelf <=? code c)%N then
        TrimRightFunc (firstn stop s) unicode.IsSpace
      else if asciiSpace c then trimStop s stop'
      else firstn stop s
  end.

(** [TrimSpace]: the first loop walks [start] up over ASCII white space
    and hands over to [TrimFunc] at the first byte that is not ASCII;
    when it runs off the end the result is empty. *)
Fixpoint TrimSpace (s : gostring) : gostring :=
  match s with
  | [] => []
  | c :: s' =>
      if (utf8.RuneSelf <=? code c)%N then TrimFunc s unicode.IsSpace
      else if asciiSpace c then TrimSpace s'
      else trimStop s (List.length s)
  end.

(** [HasSuffix]. *)
Definition HasSuffix (s suffix : gostring) : bool :=
  (List.length suffix <=? List.length s)%nat
  && eqs (skipn (List.length s - List.length suffix) s) suffix.

(** [Split] at a one-byte separator ([main.go] splits at a comma only):
    the pieces between the separators, one more than there are
    separators; the result is never [nil]. *)
Fixpoint splitAt (sep : byte) (cur : gostring) (s : gostring) : list gostring :=
  match s with
  | [] => [rev cur]
  | c :: s' =>
      if Ascii.eqb c sep then rev cur :: splitAt sep [] s'
      else splitAt sep (c :: cur) s'
  end.

Definition Split (s : gostring) (sep : byte) : list gostring := splitAt sep [] s.

(** [Join]. *)
Fixpoint Join (l : list gostring) (sep : gostring) : gostring :=
  match l with
  | [] => []
  | [x] => x
  | x :: l' => x ++ sep ++ Join l' sep
  end.

(** [ToLower] on the ASCII letters.  [main.go] compares its result with
    ASCII literals only, and no rune outside ASCII lowers to a letter of
    those literals, so the other runes are left as they are. *)
Definition lowerByte (c : byte) : byte :=
  if inRange 65 90 c then ascii_of_N (code c + 32) else c.

Definition ToLower (s : gostring) : gostring := map lowerByte s.

(** [HasPrefix]. *)
Definition HasPrefix (s prefix : gostring) : bool :=
  (List.length prefix <=? List.length s)%nat
  && eqs (firstn (List.length prefix) s) prefix.

(** [cut sep s]: [s] before and after its first [sep], if it has one. *)
Fixpoint cut (sep : byte) (s : gostring) : option (gostring * gostring) :=
  match s with
  | [] => None
  | c :: s' =>
      if Ascii.eqb c sep then Some ([], s')
      else match cut sep s' with
           | Some (a, b) => Some (c :: a, b)
           | None => None
           end
  end.

(** [SplitN] at a one-byte separator, for a count [n] that is not
    negative: no piece for 0, otherwise at most [n] pieces, the last one
    the unsplit rest.  ([main.go] splits at a NUL byte with [n = 2].) *)
Fixpoint SplitN (s : gostring) (sep : byte) (n : nat) : list gostring :=
  match n with
  | O => []
  | S O => [s]
  | S n' =>
      match cut sep s with
      | None => [s]
      | Some (a, b) => a :: SplitN b sep n'
      end
  end.

End strings.

(** ** Package [strconv] *)

Module strconv.

Fixpoint digits (acc : Z) (s : gostring) : option Z :=
  match s with
  | [] => Some acc
  | c :: s' =>
      if inRange 48 57 c then digits (acc * 10 + (Z.of_N (code c) - 48)) s'
      else None
  end.

(** [Atoi]: an optional sign and at least one decimal digit, the value
    within the 64-bit [int]; [None] is a non-nil [err] (syntax or range). *)
Definition Atoi (s : gostring) : option Z :=
  match s with
  | [] => None
  | c :: t =>
      let neg := Ascii.eqb c "-"%char in
      let body := if neg || Ascii.eqb c "+"%char then t else s in
      match body with
      | [] => None
      | _ :: _ =>
          match digits 0 body with
          | None => None
          | Some n =>
              let v := if neg then (- n)%Z else n in
              if ((- 2 ^ 63 <=? v) && (v <=? 2 ^ 63 - 1))%Z then Some v else None
          end
      end
  end.

(** [Itoa]: the decimal text of an [int]. *)
Definition Itoa (i : Z) : gostring := str (NilZero.string_of_int (Z.to_int i)).

End strconv.

(** ** Package [fmt] *)

Module fmt.

(** The verb [%d] of [Sprintf]. *)
Definition d (n : Z) : gostring := str (NilZero.string_of_int (Z.to_int n)).

End fmt.

(** ** Package [regexp]

    Expressions over bytes with the leftmost-first preference of Go's
    engine: a greedy operator tries the longer match first, a lazy one the
    shorter, and the first way that lets the rest of the expression match
    wins.  Every repetition of the expression of [main.go] is over a class
    of ASCII bytes, or over the dot of the last group, which runs to the
    end of the text, where the bytes taken are the same whether they are
    counted as bytes or as runes; repetition is therefore over a byte
    class. *)

Module regexp.

Inductive Regexp : Type :=
| Bol                                   (* start of text *)
| Eol                                   (* end of text *)
| Lit (c : byte)                        (* a literal byte *)
| Class (p : byte -> bool)              (* one byte of a class *)
| Star (greedy : bool) (p : byte -> bool)  (* class star, greedy or lazy *)
| Plus (p : byte -> bool)               (* class plus, greedy *)
| Quest (r : Regexp)                    (* optional, greedy *)
| Cat (r1 r2 : Regexp)
| Cap (n : nat) (r : Regexp).           (* capturing group n *)

(** The submatches: the text of each group, [""] for a group that took no
    part in the match, as [FindStringSubmatch] reports them. *)
Definition caps := list gostring.

Fixpoint setCap (n : nat) (v : gostring) (c : caps) : caps :=
  match c, n with
  | [], _ => []
  | _ :: c', O => v :: c'
  | x :: c', S n' => x :: setCap n' v c'
  end.

Section Match.

Variable A : Type.

(** The continuation gets the position reached and the input left. *)
Definition cont := nat -> gostring -> caps -> option A.

Fixpoint star (greedy : bool) (p : byte -> bool) (i : nat) (s : gostring)
    (c : caps) (k : cont) : option A :=
  match s with
  | [] => k i s c
  | b :: s' =>
      if greedy then
        if p b then
          match star greedy p (S i) s' c k with
          | Some r => Some r
          | None => k i s c
          end
        else k i s c
      else
        match k i s c with
        | Some r => Some r
        | None => if p b then star greedy p (S i) s' c k else None
        end
  end.

Fixpoint exec (r : Regexp) (i : nat) (s : gostring) (c : caps) (k : cont)
    : option A :=
  match r with
  | Bol => if (i =? 0)%nat then k i s c else None
  | Eol => match s with [] => k i s c | _ :: _ => None end
  | Lit x =>
      match s with
      | b :: s' => if Ascii.eqb b x then k (S i) s' c else None
      | [] => None
      end
  | Class p =>
      match s with
      | b :: s' => if p b then k (S i) s' c else None
      | [] => None
      end
  | Star g p => star g p i s c k
  | Plus p =>
      match s with
      | b :: s' => if p b then star true p (S i) s' c k else None
      | [] => None
      end
  | Quest r' =>
      match exec r' i s c k with
      | Some x => Some x
      | None => k i s c
      end
  | Cat r1 r2 => exec r1 i s c (fun i' s' c' => exec r2 i' s' c' k)
  | Cap n r' =>
      exec r' i s c (fun i' s' c' => k i' s' (setCap n (firstn (i' - i) s) c'))
  end.

End Match.

(** A match of [re] that starts at position [i]; group 0 is the match. *)
Definition matchAt (ngroups : nat) (re : Regexp) (i : nat) (s : gostring)
    : option caps :=
  exec (Cap 0 re) i s (repeat [] (S ngroups)) (fun _ _ c => Some c).

(** The leftmost match: the start positions are tried from left to right. *)
Fixpoint findFrom (ngroups : nat) (re : Regexp) (i : nat) (s : gostring)
    : option caps :=
  match matchAt ngroups re i s with
  | Some c => Some c
  | None =>
      match s with
      | [] => None
      | _ :: s' => findFrom ngroups re (S i) s'
      end
  end.

(** [FindStringSubmatch]: [None] is the [nil] result of no match. *)
Definition FindStringSubmatch (ngroups : nat) (re : Regexp) (s : gostring)
    : option caps :=
  findFrom ngroups re 0 s.

End regexp.

(** ** Package [os]: the environment *)

Module os.

(** The process environment: the value of each variable that is set. *)
Definition Env := gostring -> option gostring.

(** [Getenv]: the value of the variable, empty when it is not set. *)
Definition Getenv (env : Env) (name : gostring) : gostring :=
  match env name with
  | Some v => v
  | None => []
  end.

End os.

(** The environment in which only [name] is set, to [value]. *)
Definition setenv (name value : gostring) : os.Env :=
  fun n => if eqs n name then Some value else None.

(** The empty environment. *)
Definition noenv : os.Env := fun _ => None.

(** ** [main.go] *)

(** [Config] holds the linter's configuration. *)
Record Config : Type := mkConfig {
  AllowedTypes : slice;
  AllowedScopes : slice;
  RequireScope : bool;
  RequireScopeExcept : slice;
  AllowCapitalSubject : bool;
  MaxSubjectLength : Z
}.

(** [Linter]: its field [Config] is a pointer; [Config_] is the
    configuration it points to. *)
Record Linter : Type := mkLinter { Config_ : Config }.

(** [contains]. *)
Fixpoint containsList (l : list gostring) (item : gostring) : bool :=
  match l with
  | [] => false
  | s :: l' => if eqs s item then true else containsList l' item
  end.

Definition contains (s : slice) (item : gostring) : bool :=
  containsList (elems s) item.

(** The loop of [readEnvList] over the parts. *)
Fixpoint keepTrimmed (parts : list gostring) (result : list gostring)
    : list gostring :=
  match parts with
  | [] => result
  | p :: parts' =>
      let trimmed := strings.TrimSpace p in
      if negb (eqs trimmed [])
      then keepTrimmed parts' (result ++ [trimmed])
      else keepTrimmed parts' result
  end.

(** [readEnvList]: [result] starts as [make([]string, 0, len(parts))], an
    empty slice that is not [nil]. *)
Definition readEnvList (env : os.Env) (name defaultValue : gostring) : slice :=
  let raw := os.Getenv env name in
  let raw := if eqs (strings.TrimSpace raw) [] then defaultValue else raw in
  if eqs (strings.TrimSpace raw) [] then None
  else
    let parts := strings.Split raw ","%char in
    Some (keepTrimmed parts []).

(** [getEnvBool]. *)
Definition getEnvBool (env : os.Env) (name : gostring) (defaultValue : bool)
    : bool :=
  let val := strings.ToLower (os.Getenv env name) in
  if eqs val [] then defaultValue
  else eqs val (str "1") || eqs val (str "true") || eqs val (str "yes")
       || eqs val (str "on").

(** [NewLinter] creates a Linter with configuration from environment
    variables. *)
Definition NewLinter (env : os.Env) : Linter :=
  let maxSubject :=
    match strconv.Atoi (os.Getenv env (str "MAX_SUBJECT")) with
    | Some n => n
    | None => 72%Z
    end in
  mkLinter
    (mkConfig
       (readEnvList env (str "TYPES")
          (str "feat,fix,docs,style,refactor,perf,test,build,ci,chore,revert"))
       (readEnvList env (str "SCOPES") [])
       (getEnvBool env (str "REQUIRE_SCOPE") false)
       (readEnvList env (str "REQUIRE_SCOPE_EXCEPT_TYPES") (str "revert"))
       (getEnvBool env (str "ALLOW_CAPITAL_SUBJECT") false)
       maxSubject).

(** The classes of the expression of [LintSubject]. *)
Definition lower (c : byte) : bool := inRange 97 122 c.
Definition lowerDigit (c : byte) : bool := lower c || inRange 48 57 c.
Definition scopeByte (c : byte) : bool :=
  lowerDigit c || Ascii.eqb c "."%char || Ascii.eqb c "/"%char || Ascii.eqb c "-"%char.
Definition newline : byte := ascii_of_nat 10.
Definition dot (c : byte) : bool := negb (Ascii.eqb c newline).

(** The expression of [LintSubject]: start of text; group 1, one or more
    of a-z; optionally an opening parenthesis, group 2 (one of a-z0-9,
    then lazily any of a-z0-9 and dot, slash, hyphen) and a closing
    parenthesis; optionally group 3, an exclamation mark; a colon and a
    space; group 4, any bytes but a line feed; end of text. *)
Definition subjectRe : regexp.Regexp :=
  let seq := regexp.Cat in
  seq regexp.Bol
  (seq (regexp.Cap 1 (regexp.Plus lower))
  (seq (regexp.Quest
          (seq (regexp.Lit "("%char)
          (seq (regexp.Cap 2
                  (seq (regexp.Class lowerDigit) (regexp.Star false scopeByte)))
               (regexp.Lit ")"%char))))
  (seq (regexp.Quest (regexp.Cap 3 (regexp.Lit "!"%char)))
  (seq (regexp.Lit ":"%char)
  (seq (regexp.Lit " "%char)
  (seq (regexp.Cap 4 (regexp.Star true dot))
       regexp.Eol)))))).

Definition formatMessage : gostring :=
  str "format must be 'type(scope)?: subject' with lowercase type and a space after colon".

(** [LintSubject] checks a single commit subject against the linter's
    rules. *)
Definition LintSubject (l : Linter) (subject : gostring) : slice :=
  let errors : slice := None in
  let matches := regexp.FindStringSubmatch 4 subjectRe subject in
  match matches with
  | None =>
      let errors := append errors formatMessage in
      errors
  | Some m =>
      let ctype := nth 1 m [] in
      let scope := nth 2 m [] in
      let sub := strings.TrimSpace (nth 4 m []) in
      let cfg := Config_ l in
      let errors :=
        if notNil (AllowedTypes cfg)
           && negb (contains (AllowedTypes cfg) ctype)
        then append errors
               (str "type '" ++ ctype ++ str "' is not allowed. Allowed: "
                ++ strings.Join (elems (AllowedTypes cfg)) (str ", "))
        else errors in
      let errors :=
        if RequireScope cfg && eqs scope []
           && negb (contains (RequireScopeExcept cfg) ctype)
        then append errors (str "scope is required but missing")
        else errors in
      let errors :=
        if negb (eqs scope [])
           && notNil (AllowedScopes cfg)
           && negb (contains (AllowedScopes cfg) scope)
        then append errors
               (str "scope '" ++ scope ++ str "' is not in allowed list: "
                ++ strings.Join (elems (AllowedScopes cfg)) (str ", "))
        else errors in
      let errors :=
        if eqs (strings.TrimSpace sub) []
        then append errors (str "subject must not be empty")
        else errors in
      let errors :=
        if (MaxSubjectLength cfg <? Z.of_nat (List.length sub))%Z
        then append errors
               (str "subject too long (" ++ fmt.d (Z.of_nat (List.length sub))
                ++ str " > " ++ fmt.d (MaxSubjectLength cfg) ++ str ")")
        else errors in
      let errors :=
        if strings.HasSuffix sub (str ".")
        then append errors (str "subject must not end with a period")
        else errors in
      let errors :=
        if negb (AllowCapitalSubject cfg) && (0 <? List.length sub)%nat
           && inRange 65 90 (nth 0 sub zero)
        then append errors (str "subject should start lowercase (imperative mood)")
        else errors in
      if (len errors =? 0)%nat then None else errors
  end.

(** The loop of [main] over the commits: it counts the violations and
    prints one line for each; [stdout] holds what each [Printf] wrote. *)
Record Report : Type := mkReport { errorCount : Z; stdout : list gostring }.

Definition shortSha (sha : gostring) : gostring :=
  if (7 <? List.length sha)%nat then firstn 7 sha else sha.

Definition lintCommit (l : Linter) (st : Report) (commit : gostring * gostring)
    : Report :=
  let '(sha, subj) := commit in
  let errs := LintSubject l subj in
  if (0 <? len errs)%nat then
    mkReport
      (errorCount st + Z.of_nat (len errs))
      (stdout st ++
       map (fun msg => str "::error title=commit " ++ shortSha sha ++ str "::"
                       ++ msg ++ str " | '" ++ subj ++ str "'" ++ [newline])
           (elems errs))
  else st.

Definition lintCommits (l : Linter) (commits : list (gostring * gostring))
    (st : Report) : Report :=
  fold_left (lintCommit l) commits st.

(** * The linters of the repository's tests

    [TestLintSubject] builds each linter from a [Config] literal that sets
    some of [AllowedTypes], [AllowedScopes], [RequireScope],
    [AllowCapitalSubject] and [MaxSubjectLength]; it replaces a [nil]
    [AllowedTypes] by the default list and a zero [MaxSubjectLength] by
    72. *)

Definition defaultTypes : gostring :=
  str "feat,fix,docs,style,refactor,perf,test,build,ci,chore,revert".

Definition testConfig (types : list string) (scopes : slice) (req cap : bool)
    (max : Z) : Linter :=
  mkLinter (mkConfig (Some (map str types)) scopes req None cap max).

Definition testDefaults (c : Config) : Linter :=
  mkLinter
    (mkConfig
       (if notNil (AllowedTypes c) then AllowedTypes c
        else readEnvList noenv (str "TYPES") defaultTypes)
       (AllowedScopes c) (RequireScope c) (RequireScopeExcept c)
       (AllowCapitalSubject c)
       (if (MaxSubjectLength c =? 0)%Z then 72%Z else MaxSubjectLength c)).

(** The zero [Config]. *)
Definition zeroConfig : Config := mkConfig None None false None false 0.

(** * The grammar of a subject, read directly

    [span p s] splits [s] after its longest prefix of bytes in [p].
    [parseSubject] reads a subject from left to right without
    backtracking: the type, the parenthesised scope when a parenthesis
    follows, the exclamation mark when one follows, the colon and the
    space, and the rest up to the end, which must hold no line feed.  It is
    proved below to be what the expression of [LintSubject] computes. *)

Fixpoint span (p : byte -> bool) (s : gostring) : gostring * gostring :=
  match s with
  | [] => ([], [])
  | b :: s' =>
      if p b then let '(a, r) := span p s' in (b :: a, r) else ([], s)
  end.

Definition parseTail (subject ctype scope rest : gostring) : option regexp.caps :=
  let '(bang, rest) :=
    match rest with
    | b :: rest' => if Ascii.eqb b "!"%char then ([b], rest') else ([], rest)
    | [] => ([], rest)
    end in
  match rest with
  | b1 :: b2 :: desc =>
      if Ascii.eqb b1 ":"%char && Ascii.eqb b2 " "%char && forallb dot desc
      then Some [subject; ctype; scope; bang; desc]
      else None
  | _ => None
  end.

Definition parseSubject (subject : gostring) : option regexp.caps :=
  let '(ctype, rest) := span lower subject in
  match ctype with
  | [] => None
  | _ :: _ =>
      match rest with
      | b :: rest' =>
          if Ascii.eqb b "("%char then
            let '(scope, rest'') := span scopeByte rest' in
            match scope, rest'' with
            | c :: _, e :: rest''' =>
                if lowerDigit c && Ascii.eqb e ")"%char
                then parseTail subject ctype scope rest'''
                else None
            | _, _ => None
            end
          else parseTail subject ctype [] rest
      | [] => None
      end
  end.

(** The expression of [LintSubject] in three parts: the optional scope,
    the optional exclamation mark with what follows it, and the colon,
    the space and the last group. *)
Definition colonRe : regexp.Regexp :=
  regexp.Cat (regexp.Lit ":"%char)
  (regexp.Cat (regexp.Lit " "%char)
  (regexp.Cat (regexp.Cap 4 (regexp.Star true dot)) regexp.Eol)).

Definition tailRe : regexp.Regexp :=
  regexp.Cat (regexp.Quest (regexp.Cap 3 (regexp.Lit "!"%char))) colonRe.

Definition scopeRe : regexp.Regexp :=
  regexp.Quest
    (regexp.Cat (regexp.Lit "("%char)
    (regexp.Cat (regexp.Cap 2
                   (regexp.Cat (regexp.Class lowerDigit)
                               (regexp.Star false scopeByte)))
                (regexp.Lit ")"%char))).

(** * The grammar of section 4.1 of the specification

    [subject := type ("(" scope ")")? "!"? ": " description], where a type
    is one or more lowercase ASCII letters, a scope one of a-z0-9 followed
    by any of a-z0-9 and dot, slash, hyphen, and the description runs to
    the end of the line. *)

Definition isScope (scope : gostring) : bool :=
  match scope with
  | [] => false
  | c :: t => lowerDigit c && forallb scopeByte t
  end.

Definition scopePart (scope : gostring) : gostring :=
  match scope with
  | [] => []
  | _ :: _ => str "(" ++ scope ++ str ")"
  end.

Definition Grammar (subject ctype scope bang desc : gostring) : Prop :=
  subject = ctype ++ scopePart scope ++ bang ++ str ": " ++ desc
  /\ ctype <> []
  /\ forallb lower ctype = true
  /\ (scope = [] \/ isScope scope = true)
  /\ (bang = [] \/ bang = str "!")
  /\ forallb dot desc = true.

(** * The seven checks of [LintSubject], one by one

    The condition and the message of each [if] of [LintSubject], on the
    type, the scope and [sub], the description after [TrimSpace]. *)

Definition typeNotAllowed (cfg : Config) (ctype : gostring) : bool :=
  notNil (AllowedTypes cfg) && negb (contains (AllowedTypes cfg) ctype).

Definition scopeMissing (cfg : Config) (ctype scope : gostring) : bool :=
  RequireScope cfg && eqs scope []
  && negb (contains (RequireScopeExcept cfg) ctype).

Definition scopeNotAllowed (cfg : Config) (scope : gostring) : bool :=
  negb (eqs scope []) && notNil (AllowedScopes cfg)
  && negb (contains (AllowedScopes cfg) scope).

Definition subjectEmpty (sub : gostring) : bool := eqs sub [].

Definition subjectTooLong (cfg : Config) (sub : gostring) : bool :=
  (MaxSubjectLength cfg <? Z.of_nat (List.length sub))%Z.

Definition endsWithPeriod (sub : gostring) : bool :=
  strings.HasSuffix sub (str ".").

Definition startsUpper (cfg : Config) (sub : gostring) : bool :=
  negb (AllowCapitalSubject cfg) && (0 <? List.length sub)%nat
  && inRange 65 90 (nth 0 sub zero).

Definition msgType (cfg : Config) (ctype : gostring) : gostring :=
  str "type '" ++ ctype ++ str "' is not allowed. Allowed: "
  ++ strings.Join (elems (AllowedTypes cfg)) (str ", ").

Definition msgScopeMissing : gostring := str "scope is required but missing".

Definition msgScope (cfg : Config) (scope : gostring) : gostring :=
  str "scope '" ++ scope ++ str "' is not in allowed list: "
  ++ strings.Join (elems (AllowedScopes cfg)) (str ", ").

Definition msgEmpty : gostring := str "subject must not be empty".

Definition msgTooLong (cfg : Config) (sub : gostring) : gostring :=
  str "subject too long (" ++ fmt.d (Z.of_nat (List.length sub))
  ++ str " > " ++ fmt.d (MaxSubjectLength cfg) ++ str ")".

Definition msgPeriod : gostring := str "subject must not end with a period".

Definition msgUpper : gostring :=
  str "subject should start lowercase (imperative mood)".

(** The seven [if]s of [LintSubject] in the order of the source, each
    with the condition the source evaluates and the message it appends;
    [LintSubject] is proved to return the messages of those that hold.
    The table of section 4.2 is [specRules] below, and, with the two
    changes the source forces, [amendedRules]. *)
Definition rules (cfg : Config) (ctype scope sub : gostring)
    : list (bool * gostring) :=
  [ (typeNotAllowed cfg ctype, msgType cfg ctype);
    (scopeMissing cfg ctype scope, msgScopeMissing);
    (scopeNotAllowed cfg scope, msgScope cfg scope);
    (subjectEmpty sub, msgEmpty);
    (subjectTooLong cfg sub, msgTooLong cfg sub);
    (endsWithPeriod sub, msgPeriod);
    (startsUpper cfg sub, msgUpper) ].

(** The messages of the checks that fail, in order. *)
Definition failing (r : list (bool * gostring)) : list gostring :=
  map snd (filter fst r).

(** The result: [nil] when nothing failed. *)
Definition report (errors : list gostring) : slice :=
  match errors with
  | [] => None
  | _ :: _ => Some errors
  end.

(** * The rule evaluator as the specification words it

    Section 4.2 of the specification has check 4 on the trimmed
    description and checks 5 to 7 on the raw remainder after the colon and
    the space, and has an allow-list restrict only when it is non-empty.
    [SpecLintSubject] is that reading, to be compared with [LintSubject]. *)

Definition specRules (cfg : Config) (ctype scope raw : gostring)
    : list (bool * gostring) :=
  [ (negb (len (AllowedTypes cfg) =? 0)%nat
       && negb (contains (AllowedTypes cfg) ctype), msgType cfg ctype);
    (scopeMissing cfg ctype scope, msgScopeMissing);
    (negb (eqs scope []) && negb (len (AllowedScopes cfg) =? 0)%nat
       && negb (contains (AllowedScopes cfg) scope), msgScope cfg scope);
    (eqs (strings.TrimSpace raw) [], msgEmpty);
    (subjectTooLong cfg raw, msgTooLong cfg raw);
    (endsWithPeriod raw, msgPeriod);
    (startsUpper cfg raw, msgUpper) ].

Definition SpecLintSubject (l : Linter) (subject : gostring) : slice :=
  match regexp.FindStringSubmatch 4 subjectRe subject with
  | None => Some [formatMessage]
  | Some m =>
      report (failing (specRules (Config_ l) (nth 1 m []) (nth 2 m [])
                                 (nth 4 m [])))
  end.

(** * White space at the start of a string

    [leadOk y]: [y] is empty or its first rune is not white space. *)
Definition leadOk (y : gostring) : Prop :=
  match y with
  | [] => True
  | _ :: _ => unicode.IsSpace (fst (utf8.DecodeRuneInString y)) = false
  end.

Abbreviation dec := utf8.DecodeRuneInString.
Abbreviation decl := utf8.DecodeLastRuneInString.

(** * Telling the messages apart

    [kind m]: the number, 1 to 7, of the check whose message [m] is, read
    off the bytes at which the seven messages differ. *)
Definition kind (m : gostring) : nat :=
  if Ascii.eqb (nth 0 m zero) "t" then 1
  else if Ascii.eqb (nth 1 m zero) "c" then
    if Ascii.eqb (nth 6 m zero) "i" then 2 else 3
  else if Ascii.eqb (nth 8 m zero) "t" then 5
  else if Ascii.eqb (nth 8 m zero) "s" then 7
  else if Ascii.eqb (nth 17 m zero) "b" then 4
  else 6.

(** * Decimal integers

    [isDecimal s]: an optional sign followed by one or more digits, the
    syntax [strconv.Atoi] accepts. *)
Definition isDecimal (s : gostring) : bool :=
  match s with
  | [] => false
  | c :: t =>
      let body := if Ascii.eqb c "-" || Ascii.eqb c "+" then t else s in
      negb (eqs body []) && forallb (inRange 48 57) body
  end.


(** * White space at the end of a string

    [trailOk y]: [y] is empty or its last rune is not white space. *)
Definition trailOk (y : gostring) : Prop :=
  match y with
  | [] => True
  | _ :: _ => unicode.IsSpace (fst (utf8.DecodeLastRuneInString y)) = false
  end.

(** [startsRune z e]: the byte of [z] at index [e], if there is one, is
    not a continuation byte. *)
Definition startsRune (z : gostring) (e : nat) : Prop :=
  match skipn e z with
  | [] => True
  | c :: _ => utf8.RuneStart c = true
  end.


(** * The rest of [main.go]: reading the commits and the program *)

(** ** Package [bufio]: a [Scanner] with the default split function *)

Module bufio.

(** [MaxScanTokenSize]: the size the buffer of a [Scanner] grows to. *)
Definition MaxScanTokenSize : N := 65536.

(** [dropCR] drops a terminal carriage return. *)
Definition dropCR (data : gostring) : gostring :=
  match rev data with
  | c :: r => if Ascii.eqb c "013"%char then rev r else data
  | [] => data
  end.

(** The tokens that successive calls of [Scan] yield on the input
    [data] with [ScanLines], and whether scanning stopped on
    [ErrTooLong].  [cur] holds, reversed, the [n] bytes of the line being
    read.  A line ends at a line feed or at the end of the input; nothing
    is yielded for an empty rest after the last line feed.  A line does
    not fit the buffer, which must hold it with its line feed or leave
    room for reading the end of the input, once it has
    [MaxScanTokenSize] bytes. *)
Fixpoint scanLines (cur : gostring) (n : N) (data : gostring)
    : list gostring * bool :=
  match data with
  | [] =>
      (match cur with [] => [] | _ :: _ => [dropCR (rev cur)] end, false)
  | c :: data' =>
      if Ascii.eqb c "010"%char then
        let '(tokens, tooLong) := scanLines [] 0 data' in
        (dropCR (rev cur) :: tokens, tooLong)
      else if (MaxScanTokenSize <=? n + 1)%N then ([], true)
      else scanLines (c :: cur) (n + 1) data'
  end.

(** The text of [ErrTooLong]. *)
Definition ErrTooLong : gostring := str "bufio.Scanner: token too long".

End bufio.

(** ** Package [os/exec]: the commands the program runs *)

Module exec.

(** What [Command(name, args...).Output()] gives: the bytes the command
    wrote to its standard output, or the text of the error. *)
Definition Output : Type := (gostring + gostring)%type.

(** [hasNUL arg]: the argument holds a NUL byte. *)
Definition hasNUL (arg : gostring) : bool := existsb (Ascii.eqb zero) arg.

(** The runs of [git] as the program sees them: the [k]-th run of the
    process, with its arguments, gives an [Output].  An argument that
    holds a NUL byte cannot be passed to a process: starting the command
    fails ([EINVAL]) before [git] runs, whatever the repository, and
    [Output] returns that error. *)
Record Runner : Type := mkRunner {
  run : nat -> list gostring -> Output;
  refuses :
    forall k args, existsb hasNUL args = true -> exists e, run k args = inr e
}.

(** The runner whose every run fails with the error [e]. *)
Definition fails (e : gostring) : Runner :=
  mkRunner (fun _ _ => inr e) (fun _ _ _ => ex_intro _ e eq_refl).

End exec.

(** A runner is used as the function of its runs. *)
Coercion exec.run : exec.Runner >-> Funclass.

(** ** [GetGitCommits] *)

(** [format]: the hash and the subject with a NUL byte between them. *)
Definition format : gostring := str "%H" ++ [zero] ++ str "%s".

(** The arguments of the first run of [git log]. *)
Definition logArgs (rangeSpec : gostring) (limit : Z) : list gostring :=
  let args := [str "log"; str "--no-merges"; str "--pretty=format:" ++ format] in
  let args := if negb (eqs rangeSpec []) then args ++ [rangeSpec] else args in
  let args :=
    if (0 <? limit)%Z then args ++ [str "-n"; strconv.Itoa limit] else args in
  args.

(** The arguments of the second run, tried when the first fails. *)
Definition fallbackArgs : list gostring :=
  [str "log"; str "--no-merges"; str "--pretty=format:" ++ format;
   str "-n"; str "1"].

(** The loop over the lines of the output. *)
Fixpoint parseLines (lines : list gostring)
    (commits : list (gostring * gostring)) : list (gostring * gostring) :=
  match lines with
  | [] => commits
  | line :: lines' =>
      if eqs (strings.TrimSpace line) [] then parseLines lines' commits
      else
        match strings.SplitN line zero 2 with
        | [p0; p1] =>
            parseLines lines'
              (commits ++ [(strings.TrimSpace p0, strings.TrimSpace p1)])
        | _ => parseLines lines' commits
        end
  end.

(** What [GetGitCommits] returns and does: the commits (identifier and
    subject), the error if any, what it wrote to the standard error, and
    the arguments of the runs of [git] it made, in order. *)
Record GitLog : Type := mkGitLog {
  commits : list (gostring * gostring);
  err : option gostring;
  stderr : list gostring;
  runs : list (list gostring)
}.

(** The part of [GetGitCommits] after a run of [git] succeeded. *)
Definition scanCommits (out : gostring) (warned : list gostring)
    (ran : list (list gostring)) : GitLog :=
  let '(lines, tooLong) := bufio.scanLines [] 0 out in
  mkGitLog (parseLines lines [])
           (if tooLong then Some bufio.ErrTooLong else None)
           warned ran.

(** [GetGitCommits] fetches commits from the git repository. *)
Definition GetGitCommits (git : exec.Runner) (rangeSpec : gostring)
    (limit : Z) : GitLog :=
  let args := logArgs rangeSpec limit in
  match git 0%nat args with
  | inl out => scanCommits out [] [args]
  | inr e =>
      let warning :=
        str "::warning title=commitlint::Could not read git log (" ++ e
        ++ str "). Falling back to HEAD" ++ [newline] in
      match git 1%nat fallbackArgs with
      | inl out => scanCommits out [warning] [args; fallbackArgs]
      | inr e' =>
          mkGitLog [] (Some (str "failed to get git commits: " ++ e'))
                   [warning] [args; fallbackArgs]
      end
  end.

(** ** [inferRangeFromGithubEnv] *)

Definition inferRangeFromGithubEnv (env : os.Env) : gostring :=
  let eventName := os.Getenv env (str "GITHUB_EVENT_NAME") in
  let baseRef := os.Getenv env (str "GITHUB_BASE_REF") in
  if strings.HasPrefix eventName (str "pull_request") && negb (eqs baseRef [])
  then str "origin/" ++ baseRef ++ str "..HEAD"
  else [].

(** ** [main] *)

(** What a run of the program does: what it writes to the standard output
    and to the standard error, its exit code, and the arguments of the
    runs of [git]. *)
Record Outcome : Type := mkOutcome {
  written : list gostring;
  errors : list gostring;
  exitCode : Z;
  gitRuns : list (list gostring)
}.

(** [fmt.Println] of one string. *)
Definition line (s : string) : gostring := str s ++ [newline].

(** [main], for the environment [env], the arguments [args] of the process
    ([os.Args]) and the behaviour [git] of the command it runs. *)
Definition main (env : os.Env) (args : list gostring) (git : exec.Runner)
    : Outcome :=
  if getEnvBool env (str "SKIP_FOR_BOT") true
     && eqs (os.Getenv env (str "GITHUB_ACTOR")) (str "release-please[bot]")
  then
    mkOutcome [line "::notice title=commitlint::Skipping for release-please[bot]."]
              [] 0 []
  else
    let linter := NewLinter env in
    let rangeSpec :=
      if (2 <? List.length args)%nat && eqs (nth 1 args []) (str "--range")
      then nth 2 args []
      else inferRangeFromGithubEnv env in
    let log := GetGitCommits git rangeSpec 200 in
    match err log with
    | Some e =>
        mkOutcome []
          (stderr log
           ++ [str "::error title=commitlint::Failed to get git commits: "
               ++ e ++ [newline]])
          1 (runs log)
    | None =>
        if (List.length (commits log) =? 0)%nat then
          mkOutcome [line "::warning title=commitlint::No commits found to lint."]
                    (stderr log) 0 (runs log)
        else
          let report := lintCommits linter (commits log) (mkReport 0 []) in
          if (0 <? errorCount report)%Z then
            mkOutcome
              (stdout report
               ++ [line "::group::Commit lint summary";
                   str "Found " ++ fmt.d (errorCount report)
                   ++ str " errors across "
                   ++ fmt.d (Z.of_nat (List.length (commits log)))
                   ++ str " commit(s)." ++ [newline];
                   line "::endgroup::"])
              (stderr log) 1 (runs log)
          else
            mkOutcome
              (stdout report ++ [line "All commit subjects comply with rules."])
              (stderr log) 0 (runs log)
    end.

(** * Lines too long for a [Scanner] *)


(** * The choices of [main] *)

(** The condition of [main] for skipping the run. *)
Definition skipsForBot (env : os.Env) : bool :=
  getEnvBool env (str "SKIP_FOR_BOT") true
  && eqs (os.Getenv env (str "GITHUB_ACTOR")) (str "release-please[bot]").

(** The range [main] passes to [GetGitCommits]. *)
Definition rangeOf (env : os.Env) (args : list gostring) : gostring :=
  if (2 <? List.length args)%nat && eqs (nth 1 args []) (str "--range")
  then nth 2 args []
  else inferRangeFromGithubEnv env.

(** The number of violations of the commits [cs]. *)
Definition violations (l : Linter) (cs : list (gostring * gostring)) : nat :=
  list_sum (map (fun c => len (LintSubject l (snd c))) cs).

(** The lines [main] prints for a commit: one for each violation, with
    the first seven bytes of the identifier. *)
Definition diagnostics (l : Linter) (c : gostring * gostring) : list gostring :=
  map (fun msg => str "::error title=commit " ++ firstn 7 (fst c) ++ str "::"
                  ++ msg ++ str " | '" ++ snd c ++ str "'" ++ [newline])
      (elems (LintSubject l (snd c))).

(** What [main] prints after the lines of the violations. *)
Definition summary (total ncommits : nat) : list gostring :=
  if (0 <? total)%nat then
    [line "::group::Commit lint summary";
     str "Found " ++ fmt.d (Z.of_nat total) ++ str " errors across "
     ++ fmt.d (Z.of_nat ncommits) ++ str " commit(s)." ++ [newline];
     line "::endgroup::"]
  else [line "All commit subjects comply with rules."].

(** * The spellings [getEnvBool] takes for true *)

Definition upperByte (c : byte) : byte :=
  if inRange 97 122 c then ascii_of_N (code c - 32) else c.

(** [casings w]: [w] with each of its lowercase letters in either case. *)
Fixpoint casings (w : gostring) : list gostring :=
  match w with
  | [] => [[]]
  | c :: w' =>
      map (cons c) (casings w')
      ++ (if inRange 97 122 c then map (cons (upperByte c)) (casings w') else [])
  end.

Definition truthy : list gostring :=
  flat_map casings [str "1"; str "true"; str "yes"; str "on"].

(** * The table of section 4.2, amended

    The table of the rule evaluator as the specification words it,
    changed in two places: an allow-list restricts when it is not [nil]
    (the table: when it is not empty), and checks 5 to 7 read the trimmed
    description (the table: the raw remainder).  The conditions are
    written on the lists themselves: membership is that of the list, the
    last and the first byte are read off the description. *)

Definition member (x : gostring) (s : slice) : bool :=
  if in_dec (list_eq_dec Ascii.ascii_dec) x (elems s) then true else false.

Definition isEmpty (s : gostring) : bool :=
  match s with
  | [] => true
  | _ :: _ => false
  end.

Definition amendedRules (cfg : Config) (ctype scope description : gostring)
    : list (bool * gostring) :=
  [ (notNil (AllowedTypes cfg) && negb (member ctype (AllowedTypes cfg)),
     msgType cfg ctype);
    (RequireScope cfg && isEmpty scope
       && negb (member ctype (RequireScopeExcept cfg)),
     msgScopeMissing);
    (negb (isEmpty scope) && notNil (AllowedScopes cfg)
       && negb (member scope (AllowedScopes cfg)),
     msgScope cfg scope);
    (isEmpty description, msgEmpty);
    ((MaxSubjectLength cfg <? Z.of_nat (List.length description))%Z,
     msgTooLong cfg description);
    (match rev description with
     | c :: _ => Ascii.eqb c "."%char
     | [] => false
     end,
     msgPeriod);
    (negb (AllowCapitalSubject cfg)
       && match description with
          | c :: _ => inRange 65 90 c
          | [] => false
          end,
     msgUpper) ].

(** * [LintSubject] in memory

    The same function with the memory it runs in: the arrays behind the
    slices of strings, the [Config] values behind the pointers, and
    [append] as Go has it, which writes into the array of its argument
    when there is room and allocates otherwise.  Strings are values, and
    the expression, compiled in each call, is shared with nothing. *)

Module mem.

(** The arrays of strings, by address; the length of an array is its
    capacity, the unused cells hold the empty string. *)
Definition Heap : Type := list (list gostring).

(** A slice of strings: its array ([None] for [nil]), its length and its
    capacity.  No slice of [main.go] starts inside an array. *)
Record Slice : Type := mkSlice { arr : option nat; slen : nat; scap : nat }.

Definition nilSlice : Slice := mkSlice None 0 0.

(** [s != nil]. *)
Definition notNil (s : Slice) : bool :=
  match arr s with
  | Some _ => true
  | None => false
  end.

(** The elements of a slice, read from memory. *)
Definition cells (h : Heap) (s : Slice) : list gostring :=
  match arr s with
  | Some a => firstn (slen s) (nth a h [])
  | None => []
  end.

(** The value a slice has: [nil], or its elements. *)
Definition view (h : Heap) (s : Slice) : slice :=
  match arr s with
  | Some _ => Some (cells h s)
  | None => None
  end.

(** [array[i] = x]. *)
Fixpoint set (A : Type) (l : list A) (i : nat) (x : A) : list A :=
  match l, i with
  | [], _ => []
  | _ :: l', O => x :: l'
  | y :: l', S i' => y :: set l' i' x
  end.

Definition store (h : Heap) (a i : nat) (x : gostring) : Heap :=
  set h a (set (nth a h []) i x).

Section Room.

(** The room [growslice] allots beyond the length needed, from the old
    capacity and that length. *)
Variable room : nat -> nat -> nat.

(** [append(s, x)]: with room in the array of [s], the new element is
    written there and the array is shared with [s]; without, a new array
    is allocated and the elements are copied. *)
Definition append (h : Heap) (s : Slice) (x : gostring) : Slice * Heap :=
  match arr s with
  | Some a =>
      if (slen s <? scap s)%nat then
        (mkSlice (Some a) (S (slen s)) (scap s), store h a (slen s) x)
      else
        let extra := room (scap s) (S (slen s)) in
        (mkSlice (Some (List.length h)) (S (slen s)) (S (slen s) + extra),
         h ++ [cells h s ++ x :: repeat [] extra])
  | None =>
      let extra := room 0 1 in
      (mkSlice (Some (List.length h)) 1 (1 + extra),
       h ++ [x :: repeat [] extra])
  end.

Definition appendIf (b : bool) (st : Slice * Heap) (x : gostring)
    : Slice * Heap :=
  if b then append (snd st) (fst st) x else st.

(** [Config] and [Linter] in memory. *)
Record Config : Type := mkConfig {
  AllowedTypes : Slice;
  AllowedScopes : Slice;
  RequireScope : bool;
  RequireScopeExcept : Slice;
  AllowCapitalSubject : bool;
  MaxSubjectLength : Z
}.

(** [Linter]: its field [Config] is a pointer, the index of a [Config]
    of the memory. *)
Record Linter : Type := mkLinter { ConfigP : nat }.

Record World : Type := mkWorld { arrays : Heap; configs : list Config }.

(** [contains] reads the elements of the slice. *)
Definition contains (h : Heap) (s : Slice) (item : gostring) : bool :=
  containsList (cells h s) item.

(** [LintSubject]: [None] is the panic of a [nil] [Config] pointer.  Each
    condition and each message is read from the memory as it is when the
    statement runs. *)
Definition LintSubject (w : World) (l : Linter) (subject : gostring)
    : option (Slice * World) :=
  let errors := nilSlice in
  let matches := regexp.FindStringSubmatch 4 subjectRe subject in
  match matches with
  | None =>
      let '(errors, h) := append (arrays w) errors formatMessage in
      Some (errors, mkWorld h (configs w))
  | Some m =>
      match nth_error (configs w) (ConfigP l) with
      | None => None
      | Some cfg =>
          let ctype := nth 1 m [] in
          let scope := nth 2 m [] in
          let sub := strings.TrimSpace (nth 4 m []) in
          let st := (errors, arrays w) in
          let st :=
            appendIf
              (notNil (AllowedTypes cfg)
               && negb (contains (snd st) (AllowedTypes cfg) ctype))
              st
              (str "type '" ++ ctype ++ str "' is not allowed. Allowed: "
               ++ strings.Join (cells (snd st) (AllowedTypes cfg)) (str ", ")) in
          let st :=
            appendIf
              (RequireScope cfg && eqs scope []
               && negb (contains (snd st) (RequireScopeExcept cfg) ctype))
              st (str "scope is required but missing") in
          let st :=
            appendIf
              (negb (eqs scope [])
               && notNil (AllowedScopes cfg)
               && negb (contains (snd st) (AllowedScopes cfg) scope))
              st
              (str "scope '" ++ scope ++ str "' is not in allowed list: "
               ++ strings.Join (cells (snd st) (AllowedScopes cfg)) (str ", ")) in
          let st :=
            appendIf (eqs (strings.TrimSpace sub) []) st
                     (str "subject must not be empty") in
          let st :=
            appendIf (MaxSubjectLength cfg <? Z.of_nat (List.length sub))%Z st
                     (str "subject too long ("
                      ++ fmt.d (Z.of_nat (List.length sub))
                      ++ str " > " ++ fmt.d (MaxSubjectLength cfg) ++ str ")") in
          let st :=
            appendIf (strings.HasSuffix sub (str ".")) st
                     (str "subject must not end with a period") in
          let st :=
            appendIf
              (negb (AllowCapitalSubject cfg) && (0 <? List.length sub)%nat
               && inRange 65 90 (nth 0 sub zero))
              st (str "subject should start lowercase (imperative mood)") in
          let '(errors, h) := st in
          if (slen errors =? 0)%nat
          then Some (nilSlice, mkWorld h (configs w))
          else Some (errors, mkWorld h (configs w))
      end
  end.

End Room.

(** The slice is [nil] or its array is in memory. *)
Definition inHeap (h : Heap) (s : Slice) : Prop :=
  match arr s with
  | Some a => a < List.length h
  | None => True
  end.

(** The slices of a configuration are in memory. *)
Definition allocated (h : Heap) (cfg : Config) : Prop :=
  inHeap h (AllowedTypes cfg) /\ inHeap h (AllowedScopes cfg)
  /\ inHeap h (RequireScopeExcept cfg).

(** Nothing that was in memory has changed. *)
Definition preserved (h h' : Heap) : Prop :=
  List.length h <= List.length h'
  /\ forall a, a < List.length h -> nth a h' [] = nth a h [].

(** [owned n h s]: the slice [s] is [nil], or its array was allocated at
    an address from [n] on, has the capacity of [s] as its length and
    holds the elements of [s]. *)
Definition owned (n : nat) (h : Heap) (s : Slice) : Prop :=
  match arr s with
  | Some a =>
      n <= a < List.length h /\ slen s <= scap s
      /\ scap s = List.length (nth a h [])
  | None => slen s = 0 /\ scap s = 0
  end.

(** [tracks h0 errors st]: the state [st] of the local slice and the
    memory, in a call that started with the memory [h0], against the
    value [errors] of the slice. *)
Definition tracks (h0 : Heap) (errors : slice) (st : Slice * Heap) : Prop :=
  owned (List.length h0) (snd st) (fst st)
  /\ preserved h0 (snd st)
  /\ view (snd st) (fst st) = errors.

End mem.

(** The value of a configuration in memory. *)
Definition configOf (h : mem.Heap) (cfg : mem.Config) : Config :=
  mkConfig (mem.view h (mem.AllowedTypes cfg))
           (mem.view h (mem.AllowedScopes cfg))
           (mem.RequireScope cfg)
           (mem.view h (mem.RequireScopeExcept cfg))
           (mem.AllowCapitalSubject cfg)
           (mem.MaxSubjectLength cfg).

(** * Lemmas on the regular expression *)

Section Span.

Variable p : byte -> bool.

Lemma span_app s : fst (span p s) ++ snd (span p s) = s.
Proof.
  induction s as [|b s IH]; simpl; [reflexivity|].
  destruct (p b); simpl; [|reflexivity].
  destruct (span p s) as [a r]; simpl in *. now rewrite IH.
Qed.

Lemma span_all s : forallb p (fst (span p s)) = true.
Proof.
  induction s as [|b s IH]; simpl; [reflexivity|].
  destruct (p b) eqn:E; simpl; [|reflexivity].
  destruct (span p s) as [a r]; simpl in *. now rewrite E, IH.
Qed.

Lemma span_stop s b t : snd (span p s) = b :: t -> p b = false.
Proof.
  induction s as [|c s IH]; simpl; [discriminate|].
  destruct (p c) eqn:E; simpl.
  - destruct (span p s) as [a r]; simpl in *. exact IH.
  - intros H. injection H as -> _. exact E.
Qed.

Lemma span_unique a r :
  forallb p a = true -> (match r with [] => True | b :: _ => p b = false end) ->
  span p (a ++ r) = (a, r).
Proof.
  intros Ha Hr. induction a as [|x a IH]; simpl in *.
  - destruct r as [|b r]; simpl; [reflexivity|]. now rewrite Hr.
  - apply andb_true_iff in Ha as [Hx Ha]. rewrite Hx, (IH Ha). reflexivity.
Qed.

Lemma span_forallb s : forallb p s = true -> span p s = (s, []).
Proof.
  induction s as [|b s IH]; simpl; [reflexivity|].
  intros H. apply andb_true_iff in H as [-> H]. now rewrite (IH H).
Qed.

Lemma span_rest_forallb s : snd (span p s) = [] -> forallb p s = true.
Proof.
  intros H. rewrite <- (span_app s) at 1. rewrite H, app_nil_r. apply span_all.
Qed.

(** A repetition whose continuation refuses every input that starts in
    the class takes the longest run, greedy or lazy. *)

Variable A : Type.
Variable g : bool.
Variable k : regexp.cont A.
Hypothesis k_refuses : forall j b t c, p b = true -> k j (b :: t) c = None.

Lemma star_span s : forall i c,
  regexp.star g p i s c k
  = k (i + List.length (fst (span p s))) (snd (span p s)) c.
Proof.
  induction s as [|b s IH]; intros i c; simpl.
  - now rewrite Nat.add_0_r.
  - destruct (p b) eqn:E.
    + specialize (IH (S i) c).
      destruct (span p s) as [a r]; simpl in *.
      rewrite <- Nat.add_succ_comm.
      destruct g.
      * rewrite IH. destruct (k _ r c); [reflexivity|]. now apply k_refuses.
      * rewrite (k_refuses i s c E). exact IH.
    + simpl. rewrite Nat.add_0_r. destruct g; [reflexivity|].
      now destruct (k i (b :: s) c).
Qed.

End Span.

Ltac bytes b := destruct b as [[] [] [] [] [] [] [] []]; vm_compute; try reflexivity; try discriminate.

Lemma lower_not_punct b :
  lower b = true ->
  Ascii.eqb b "("%char = false /\ Ascii.eqb b "!"%char = false
  /\ Ascii.eqb b ":"%char = false.
Proof. bytes b; intros _; repeat split. Qed.

Lemma scopeByte_not_close b : scopeByte b = true -> Ascii.eqb b ")"%char = false.
Proof. bytes b. Qed.

Lemma lowerDigit_scopeByte b : lowerDigit b = true -> scopeByte b = true.
Proof. unfold scopeByte. intros ->. reflexivity. Qed.

Lemma exec_Cat A r1 r2 i s c (k : regexp.cont A) :
  regexp.exec (regexp.Cat r1 r2) i s c k
  = regexp.exec r1 i s c (fun i' s' c' => regexp.exec r2 i' s' c' k).
Proof. reflexivity. Qed.

Lemma exec_Quest A r i s c (k : regexp.cont A) :
  regexp.exec (regexp.Quest r) i s c k
  = match regexp.exec r i s c k with Some x => Some x | None => k i s c end.
Proof. reflexivity. Qed.

Lemma exec_Cap A n r i s c (k : regexp.cont A) :
  regexp.exec (regexp.Cap n r) i s c k
  = regexp.exec r i s c
      (fun i' s' c' => k i' s' (regexp.setCap n (firstn (i' - i) s) c')).
Proof. reflexivity. Qed.

Lemma exec_Lit A x i s c (k : regexp.cont A) :
  regexp.exec (regexp.Lit x) i s c k
  = match s with
    | b :: s' => if Ascii.eqb b x then k (S i) s' c else None
    | [] => None
    end.
Proof. reflexivity. Qed.

(** The end of the expression: colon, space, and the rest of the text. *)
Lemma exec_colon A (k : regexp.cont A) i rest c :
  regexp.exec colonRe i rest c k
  = match rest with
    | b1 :: b2 :: desc =>
        if Ascii.eqb b1 ":"%char && Ascii.eqb b2 " "%char && forallb dot desc
        then k (i + List.length rest) [] (regexp.setCap 4 desc c)
        else None
    | _ => None
    end.
Proof.
  unfold colonRe.
  destruct rest as [|b1 [|b2 desc]]; cbn [regexp.exec]; try reflexivity.
  - now destruct (Ascii.eqb b1 ":"%char).
  - destruct (Ascii.eqb b1 ":"%char); [|reflexivity].
    destruct (Ascii.eqb b2 " "%char); [|reflexivity].
    cbn [andb].
    rewrite star_span by (intros; reflexivity).
    destruct (forallb dot desc) eqn:E.
    + rewrite (span_forallb _ _ E). cbn [fst snd List.length].
      replace (S (S i) + List.length desc - S (S i)) with (List.length desc) by lia.
      replace (S (S i) + List.length desc) with (i + S (S (List.length desc))) by lia.
      now rewrite firstn_all.
    + destruct (snd (span dot desc)) eqn:R; [|reflexivity].
      apply span_rest_forallb in R. congruence.
Qed.

Lemma exec_tail A (k : regexp.cont A) i rest c :
  regexp.exec tailRe i rest c k
  = let '(bang, rest1) :=
      match rest with
      | b :: rest' => if Ascii.eqb b "!"%char then ([b], rest') else ([], rest)
      | [] => ([], rest)
      end in
    match rest1 with
    | b1 :: b2 :: desc =>
        if Ascii.eqb b1 ":"%char && Ascii.eqb b2 " "%char && forallb dot desc
        then k (i + List.length rest) []
               (regexp.setCap 4 desc
                  (match bang with [] => c | _ => regexp.setCap 3 bang c end))
        else None
    | _ => None
    end.
Proof.
  unfold tailRe.
  rewrite exec_Cat, exec_Quest, exec_Cap, exec_Lit.
  destruct rest as [|b rest']; [now rewrite exec_colon|].
  destruct (Ascii.eqb b "!"%char) eqn:E.
  - rewrite !exec_colon.
    apply Ascii.eqb_eq in E. subst b.
    replace (S i - i) with 1 by lia. cbn [firstn].
    assert (F : forall (x y : option A),
               y = None -> match x with Some r => Some r | None => y end = x)
      by (intros [r|] y ->; reflexivity).
    rewrite F.
    + destruct rest' as [|b1 [|b2 desc]]; try reflexivity.
      cbn [List.length].
      replace (S i + S (S (List.length desc)))
        with (i + S (S (S (List.length desc)))) by lia.
      reflexivity.
    + destruct rest' as [|b1 desc]; reflexivity.
  - now rewrite exec_colon.
Qed.

Lemma subjectRe_parts :
  subjectRe
  = regexp.Cat regexp.Bol
      (regexp.Cat (regexp.Cap 1 (regexp.Plus lower))
         (regexp.Cat scopeRe tailRe)).
Proof. reflexivity. Qed.

Lemma exec_tail_open A (k : regexp.cont A) i rest c :
  regexp.exec tailRe i ("("%char :: rest) c k = None.
Proof. rewrite exec_tail. now destruct rest. Qed.

Lemma or_none A (x y : option A) :
  y = None -> match x with Some r => Some r | None => y end = x.
Proof. intros ->. now destruct x. Qed.

Lemma exec_scope A (k : regexp.cont A) i rest c :
  regexp.exec (regexp.Cat scopeRe tailRe) i rest c k
  = match rest with
    | b :: rest' =>
        if Ascii.eqb b "("%char then
          let '(scope, rest'') := span scopeByte rest' in
          match scope, rest'' with
          | c0 :: _, e :: rest''' =>
              if lowerDigit c0 && Ascii.eqb e ")"%char
              then regexp.exec tailRe (i + 2 + List.length scope) rest'''
                     (regexp.setCap 2 scope c) k
              else None
          | _, _ => None
          end
        else regexp.exec tailRe i rest c k
    | [] => regexp.exec tailRe i rest c k
    end.
Proof.
  unfold scopeRe. rewrite exec_Cat, exec_Quest, exec_Cat, exec_Lit.
  destruct rest as [|b rest']; [reflexivity|].
  destruct (Ascii.eqb b "("%char) eqn:E; [|reflexivity].
  apply Ascii.eqb_eq in E. subst b.
  rewrite or_none by apply exec_tail_open.
  rewrite exec_Cat, exec_Cap, exec_Cat.
  cbn [regexp.exec].
  destruct rest' as [|c0 r1]; [reflexivity|].
  cbn [span].
  destruct (lowerDigit c0) eqn:L.
  - rewrite (lowerDigit_scopeByte _ L).
    rewrite star_span.
    2:{ intros j b t c' Hb. now rewrite (scopeByte_not_close _ Hb). }
    pose proof (span_app scopeByte r1) as Happ.
    destruct (span scopeByte r1) as [a r]. cbn [fst snd] in *.
    destruct r as [|e r]; [reflexivity|].
    rewrite L. cbn [andb].
    destruct (Ascii.eqb e ")"%char); [|reflexivity].
    assert (E1 : forall n, S (S i) + n - S i = S n) by (intros; lia).
    assert (E2 : forall n, S (S (S i) + n) = i + 2 + S n) by (intros; lia).
    rewrite E1, E2. cbn [firstn List.length]. subst r1.
    rewrite firstn_app, firstn_all, Nat.sub_diag. cbn [firstn].
    rewrite app_nil_r. reflexivity.
  - destruct (scopeByte c0).
    + destruct (span scopeByte r1) as [a r]. destruct r; [reflexivity|].
      now rewrite L.
    + reflexivity.
Qed.

Lemma exec_Bol A i s c (k : regexp.cont A) :
  regexp.exec regexp.Bol i s c k = if (i =? 0)%nat then k i s c else None.
Proof. reflexivity. Qed.

Lemma exec_Plus A p i s c (k : regexp.cont A) :
  regexp.exec (regexp.Plus p) i s c k
  = match s with
    | b :: s' => if p b then regexp.star true p (S i) s' c k else None
    | [] => None
    end.
Proof. reflexivity. Qed.

Lemma findFrom_succ s : forall i, regexp.findFrom 4 subjectRe (S i) s = None.
Proof. induction s as [|b s IH]; intros i; simpl; [reflexivity|apply IH]. Qed.

(** The expression of [LintSubject] computes [parseSubject]. *)
Lemma FindStringSubmatch_parse subject :
  regexp.FindStringSubmatch 4 subjectRe subject = parseSubject subject.
Proof.
  unfold regexp.FindStringSubmatch.
  assert (M : regexp.matchAt 4 subjectRe 0 subject = parseSubject subject).
  { unfold regexp.matchAt, parseSubject.
    rewrite exec_Cap, subjectRe_parts, exec_Cat, exec_Bol.
    cbn [Nat.eqb].
    rewrite exec_Cat, exec_Cap, exec_Plus.
    destruct subject as [|b0 s0]; [reflexivity|].
    cbn [span]. destruct (lower b0) eqn:L0; [|reflexivity].
    rewrite star_span.
    2:{ intros j b t c Hb. rewrite exec_scope.
        destruct (lower_not_punct _ Hb) as (-> & H2 & H3).
        rewrite exec_tail. rewrite H2, H3. now destruct t. }
    pose proof (span_app lower s0) as Happ.
    destruct (span lower s0) as [a r]. cbn [fst snd] in *.
    assert (E1 : forall n, 1 + n - 0 = S n) by (intros; lia).
    rewrite E1.
    cbn [firstn]. rewrite <- Happ at 1.
    rewrite firstn_app, firstn_all, Nat.sub_diag. cbn [firstn].
    rewrite app_nil_r.
    rewrite exec_scope.
    assert (T : forall i rest c scope,
      i + List.length rest = List.length (b0 :: s0) ->
      (scope = [] -> nth 2 c [] = []) ->
      regexp.setCap 2 scope (regexp.setCap 1 (b0 :: a) (repeat [] 5)) = c ->
      regexp.exec tailRe i rest c
        (fun i' _ c' => Some (regexp.setCap 0 (firstn (i' - 0) (b0 :: s0)) c'))
      = parseTail (b0 :: s0) (b0 :: a) scope rest).
    { intros i rest c scope Hi _ <-. rewrite exec_tail. unfold parseTail.
      rewrite Hi, Nat.sub_0_r, firstn_all.
      destruct rest as [|b rest']; [reflexivity|].
      destruct (Ascii.eqb b "!"%char).
      - destruct rest' as [|b1 [|b2 desc]]; try reflexivity;
          destruct (_ && _); reflexivity.
      - destruct rest' as [|b2 desc]; try reflexivity;
          destruct (_ && _); reflexivity. }
    destruct r as [|b rest']; [reflexivity|].
    assert (Hlen : List.length s0 = List.length a + S (List.length rest'))
      by (rewrite <- Happ, length_app; reflexivity).
    destruct (Ascii.eqb b "("%char).
    - pose proof (span_app scopeByte rest') as Happ2.
      destruct (span scopeByte rest') as [scope r2]. cbn [fst snd] in *.
      destruct scope as [|c0 scope]; [reflexivity|].
      destruct r2 as [|e r3]; [reflexivity|].
      destruct (lowerDigit c0 && Ascii.eqb e ")"%char); [|reflexivity].
      apply T; [|discriminate|reflexivity].
      cbn [List.length]. rewrite Hlen, <- Happ2. cbn [List.length].
      rewrite length_app. cbn [List.length]. lia.
    - apply (T _ _ _ []); [|reflexivity|reflexivity].
      cbn [List.length]. lia. }
  destruct subject as [|b s]; cbn [regexp.findFrom].
  - rewrite M. reflexivity.
  - rewrite M. rewrite findFrom_succ. now destruct (parseSubject (b :: s)).
Qed.

(** * Lemmas on runes and [TrimSpace] *)

(** *** Decoding one rune *)

Lemma dec_ascii c t :
  (code c <? utf8.RuneSelf)%N = true -> dec (c :: t) = (code c, 1).
Proof.
  intros H. unfold dec, utf8.first. unfold utf8.RuneSelf in H. now rewrite H.
Qed.

Lemma dec_single_high b :
  (code b <? utf8.RuneSelf)%N = false -> dec [b] = (utf8.RuneError, 1).
Proof. bytes b. Qed.

Lemma IsSpace_ascii c :
  (code c <? utf8.RuneSelf)%N = true ->
  unicode.IsSpace (code c) = strings.asciiSpace c.
Proof. bytes c. Qed.

Lemma IsSpace_RuneError : unicode.IsSpace utf8.RuneError = false.
Proof. reflexivity. Qed.

(** Decoding a prefix gives the same rune, or an error when the prefix
    cuts the rune short. *)
Lemma dec_firstn n s :
  dec (firstn (S n) s) = dec s \/ dec (firstn (S n) s) = (utf8.RuneError, 1).
Proof.
  destruct s as [|c0 t]; [left; reflexivity|].
  cbn [firstn]. unfold dec.
  set (x := utf8.first (code c0)).
  destruct (0xF0 <=? x)%N; [left; reflexivity|].
  set (sz := N.to_nat (N.land x 7)).
  set (acc := utf8.acceptRanges (N.shiftr x 4)).
  cbn [List.length].
  destruct (S (List.length (firstn n t)) <? sz) eqn:E1; [right; reflexivity|].
  apply Nat.ltb_ge in E1.
  pose proof (length_firstn n t) as Hle.
  destruct (S (List.length t) <? sz) eqn:E2; [apply Nat.ltb_lt in E2; lia|].
  destruct t as [|c1 t1]; [destruct n; left; reflexivity|].
  destruct n as [|n]; cbn [firstn List.length] in *; [right; reflexivity|].
  destruct ((code c1 <? fst acc)%N || (snd acc <? code c1)%N); [left; reflexivity|].
  destruct (sz <=? 2) eqn:E3; [left; reflexivity|].
  destruct t1 as [|c2 t2]; [destruct n; left; reflexivity|].
  destruct n as [|n]; cbn [firstn List.length] in *; [right; reflexivity|].
  destruct ((code c2 <? utf8.locb)%N || (utf8.hicb <? code c2)%N); [left; reflexivity|].
  destruct (sz <=? 3) eqn:E4; [left; reflexivity|].
  destruct t2 as [|c3 t3]; [destruct n; left; reflexivity|].
  destruct n as [|n]; cbn [firstn List.length] in *; [right; reflexivity|].
  left. reflexivity.
Qed.

(** *** Decoding the last rune *)

Lemma seekStart_le s n : forall start lim, (utf8.seekStart s n start lim <= start)%Z.
Proof.
  induction n as [|n IH]; intros start lim; simpl; [lia|].
  destruct (start <? lim)%Z; [lia|].
  destruct (utf8.RuneStart _); [lia|].
  specialize (IH (start - 1)%Z lim). lia.
Qed.

Lemma skipn_last (s : gostring) :
  s <> [] -> skipn (List.length s - 1) s = [nth (List.length s - 1) s zero].
Proof.
  intros H. destruct (exists_last H) as (a & b & ->).
  rewrite length_app. cbn [List.length].
  replace (List.length a + 1 - 1) with (List.length a + 0) by lia.
  rewrite skipn_app, app_nth2_plus, skipn_all2 by lia.
  replace (List.length a + 0 - List.length a) with 0 by lia. reflexivity.
Qed.

Lemma decl_spec s r n :
  s <> [] -> decl s = (r, n) ->
  1 <= n <= List.length s /\ dec (skipn (List.length s - n) s) = (r, n).
Proof.
  intros Hs. unfold decl. cbv zeta.
  assert (Hlen : 1 <= List.length s) by (destruct s; [congruence|cbn; lia]).
  destruct (Z.of_nat (List.length s) =? 0)%Z eqn:E0; [apply Z.eqb_eq in E0; lia|].
  replace (Z.to_nat (Z.of_nat (List.length s) - 1)) with (List.length s - 1) by lia.
  set (last := nth (List.length s - 1) s zero).
  destruct (code last <? utf8.RuneSelf)%N eqn:EA.
  - intros H. injection H as <- <-. split; [lia|].
    rewrite skipn_last by assumption. now apply dec_ascii.
  - set (lim0 := (Z.of_nat (List.length s) - Z.of_nat utf8.UTFMax)%Z).
    set (lim := if (lim0 <? 0)%Z then 0%Z else lim0).
    set (st0 := utf8.seekStart s utf8.UTFMax (Z.of_nat (List.length s) - 1 - 1) lim).
    set (start := if (st0 <? lim)%Z then lim else st0).
    assert (Hst : (0 <= start <= Z.of_nat (List.length s) - 1)%Z).
    { pose proof (seekStart_le s utf8.UTFMax (Z.of_nat (List.length s) - 1 - 1) lim).
      fold st0 in H. unfold start. clearbody st0.
      assert (0 <= lim <= Z.of_nat (List.length s) - 1)%Z.
      { unfold lim, lim0, utf8.UTFMax.
        destruct (Z.ltb_spec (Z.of_nat (List.length s) - Z.of_nat 4) 0); lia. }
      destruct (Z.ltb_spec st0 lim); lia. }
    destruct (dec (skipn (Z.to_nat start) s)) as [r' size] eqn:ED.
    destruct (start + Z.of_nat size =? Z.of_nat (List.length s))%Z eqn:E3; cbn [negb].
    + apply Z.eqb_eq in E3. intros H. injection H as <- <-.
      split; [lia|].
      replace (List.length s - size) with (Z.to_nat start) by lia. exact ED.
    + intros H. injection H as <- <-. split; [lia|].
      rewrite skipn_last by assumption. now apply dec_single_high.
Qed.

Lemma decl_ascii s :
  s <> [] ->
  (code (nth (List.length s - 1) s zero) <? utf8.RuneSelf)%N = true ->
  decl s = (code (nth (List.length s - 1) s zero), 1).
Proof.
  intros Hs H. unfold decl. cbv zeta.
  assert (Hlen : 1 <= List.length s) by (destruct s; [congruence|cbn; lia]).
  destruct (Z.of_nat (List.length s) =? 0)%Z eqn:E0; [apply Z.eqb_eq in E0; lia|].
  replace (Z.to_nat (Z.of_nat (List.length s) - 1)) with (List.length s - 1) by lia.
  now rewrite H.
Qed.

Lemma dec_size_pos s : s <> [] -> 1 <= snd (dec s).
Proof.
  destruct s as [|c0 t]; [congruence|]. intros _. unfold dec.
  repeat match goal with
         | |- context [if ?c then _ else _] => destruct c
         | |- context [match ?l with [] => _ | _ :: _ => _ end] => destruct l
         end; cbn [snd]; lia.
Qed.

Lemma leadOk_firstn n y : leadOk y -> leadOk (firstn n y).
Proof.
  destruct n as [|n]; [intros _; exact I|].
  destruct y as [|c t]; [intros _; exact I|].
  intros H. cbn [firstn]. change (c :: firstn n t) with (firstn (S n) (c :: t)).
  unfold leadOk in *. cbn [firstn].
  change (c :: firstn n t) with (firstn (S n) (c :: t)).
  destruct (dec_firstn n (c :: t)) as [-> | ->]; [exact H|reflexivity].
Qed.

Lemma leadOk_ascii c t :
  (code c <? utf8.RuneSelf)%N = true -> strings.asciiSpace c = false ->
  leadOk (c :: t).
Proof.
  intros H1 H2. unfold leadOk. rewrite dec_ascii by assumption. cbn [fst].
  now rewrite IsSpace_ascii.
Qed.

Lemma leadOk_ascii_inv c t :
  (code c <? utf8.RuneSelf)%N = true -> leadOk (c :: t) ->
  strings.asciiSpace c = false.
Proof.
  intros H1. unfold leadOk. rewrite dec_ascii by assumption. cbn [fst].
  now rewrite IsSpace_ascii.
Qed.

(** *** The forward scan *)

Lemma indexFunc_loop_lead n :
  forall i s, (0 <= i)%Z ->
    let j := strings.indexFunc_loop unicode.IsSpace false n i s in
    j = (-1)%Z \/ (i <= j)%Z /\ leadOk (skipn (Z.to_nat (j - i)) s).
Proof.
  induction n as [|n IH]; intros i s Hi; cbn [strings.indexFunc_loop]; [now left|].
  destruct s as [|b s']; [now left|].
  destruct (dec (b :: s')) as [r size] eqn:ED.
  destruct (Bool.eqb (unicode.IsSpace r) false) eqn:EB.
  - right. split; [lia|]. rewrite Z.sub_diag. cbn [Z.to_nat skipn].
    unfold leadOk. rewrite ED. cbn [fst]. now apply eqb_prop in EB.
  - destruct (IH (i + Z.of_nat size)%Z (skipn size (b :: s'))) as [H | [H1 H2]];
      [lia|now left|].
    right. split; [lia|].
    rewrite skipn_skipn in H2.
    match goal with |- leadOk (skipn ?a _) => replace a with
      (Z.to_nat (strings.indexFunc_loop unicode.IsSpace false n
                   (i + Z.of_nat size) (skipn size (b :: s'))
                 - (i + Z.of_nat size)) + size) by lia end.
    exact H2.
Qed.

Lemma leadOk_TrimLeftFunc x : leadOk (strings.TrimLeftFunc x unicode.IsSpace).
Proof.
  unfold strings.TrimLeftFunc, strings.indexFunc.
  destruct (@indexFunc_loop_lead (List.length x) 0%Z x) as [H | [H1 H2]]; [lia| |].
  - rewrite H. exact I.
  - destruct (_ =? -1)%Z; [exact I|]. now rewrite Z.sub_0_r in H2.
Qed.

Lemma TrimLeftFunc_lead y :
  y <> [] -> leadOk y -> strings.TrimLeftFunc y unicode.IsSpace = y.
Proof.
  destruct y as [|c t]; [congruence|]. intros _ H.
  unfold strings.TrimLeftFunc, strings.indexFunc.
  cbn [List.length strings.indexFunc_loop].
  unfold leadOk in H.
  destruct (dec (c :: t)) as [r size]. cbn [fst] in H. rewrite H.
  reflexivity.
Qed.

(** *** The backward scan *)

Lemma TrimRightFunc_firstn z f : exists k, strings.TrimRightFunc z f = firstn k z.
Proof. unfold strings.TrimRightFunc. eexists. reflexivity. Qed.

Lemma leadOk_TrimRightFunc z f : leadOk z -> leadOk (strings.TrimRightFunc z f).
Proof.
  intros H. destruct (TrimRightFunc_firstn z f) as [k ->].
  now apply leadOk_firstn.
Qed.

Lemma lastIndexFunc_loop_found y :
  y <> [] -> leadOk y ->
  forall n e, (1 <= e <= Z.of_nat (List.length y))%Z -> Z.to_nat e <= n ->
    (0 <= strings.lastIndexFunc_loop unicode.IsSpace false n e y < e)%Z.
Proof.
  intros Hy Hl. induction n as [|n IH]; intros e He Hn; [lia|].
  cbn [strings.lastIndexFunc_loop].
  destruct (Z.ltb_spec 0 e) as [_|]; [|lia].
  destruct (decl (firstn (Z.to_nat e) y)) as [r size] eqn:ED.
  assert (Hne : firstn (Z.to_nat e) y <> []).
  { destruct y; [congruence|]. destruct (Z.to_nat e) eqn:E; [lia|]. discriminate. }
  destruct (decl_spec Hne ED) as [Hsz Hdec].
  rewrite length_firstn in Hsz, Hdec.
  replace (Nat.min (Z.to_nat e) (List.length y)) with (Z.to_nat e) in * by lia.
  destruct (Bool.eqb (unicode.IsSpace r) false) eqn:EB; [lia|].
  assert (Hsp : unicode.IsSpace r = true)
    by (destruct (unicode.IsSpace r); [reflexivity|discriminate]).
  destruct (Z.eq_dec (e - Z.of_nat size) 0) as [E0|E0].
  - exfalso. replace (Z.to_nat e - size) with 0 in Hdec by lia.
    cbn [skipn] in Hdec.
    destruct (Z.to_nat e) as [|k] eqn:Ek; [lia|].
    destruct y as [|c t]; [congruence|].
    unfold leadOk in Hl.
    destruct (dec_firstn k (c :: t)) as [H|H]; rewrite H in Hdec.
    + rewrite Hdec in Hl. cbn [fst] in Hl. congruence.
    + injection Hdec as <- _. discriminate.
  - specialize (IH (e - Z.of_nat size)%Z). lia.
Qed.

Lemma TrimRightFunc_nonempty y :
  y <> [] -> leadOk y -> strings.TrimRightFunc y unicode.IsSpace <> [].
Proof.
  intros Hy Hl. unfold strings.TrimRightFunc, strings.lastIndexFunc.
  assert (Hlen : 1 <= List.length y) by (destruct y; [congruence|cbn; lia]).
  pose proof (lastIndexFunc_loop_found Hy Hl (n := List.length y)
                (e := Z.of_nat (List.length y))) as H.
  set (i := strings.lastIndexFunc_loop _ _ _ _ _) in *.
  assert (Hi : (0 <= i < Z.of_nat (List.length y))%Z) by (apply H; lia).
  assert (K : forall k, 1 <= k -> firstn k y <> []).
  { intros k Hk. destruct y; [congruence|]. destruct k; [lia|]. discriminate. }
  destruct (_ && _).
  - destruct (dec (skipn (Z.to_nat i) y)) as [r wid] eqn:ED.
    assert (1 <= wid).
    { change wid with (snd (r, wid)). rewrite <- ED. apply dec_size_pos.
      intros E. apply (f_equal (@List.length _)) in E.
      rewrite length_skipn in E. cbn in E. lia. }
    apply K. lia.
  - apply K. lia.
Qed.

(** *** [TrimSpace] *)

Lemma leadOk_TrimFunc x : leadOk (strings.TrimFunc x unicode.IsSpace).
Proof. apply leadOk_TrimRightFunc, leadOk_TrimLeftFunc. Qed.

Lemma leadOk_trimStop y stop : leadOk y -> leadOk (strings.trimStop y stop).
Proof.
  intros H. induction stop as [|stop IH]; cbn [strings.trimStop]; [exact I|].
  destruct (_ <=? _)%N.
  - now apply leadOk_TrimRightFunc, leadOk_firstn.
  - destruct (strings.asciiSpace _); [exact IH|].
    change (leadOk (firstn (S stop) y)). now apply leadOk_firstn.
Qed.

Lemma trimStop_nonempty c t stop :
  (code c <? utf8.RuneSelf)%N = true -> strings.asciiSpace c = false ->
  strings.trimStop (c :: t) (S stop) <> [].
Proof.
  intros H1 H2. induction stop as [|stop IH].
  - cbn [strings.trimStop nth].
    apply N.ltb_lt in H1. destruct (N.leb_spec utf8.RuneSelf (code c)); [lia|].
    rewrite H2. discriminate.
  - remember (S stop) as k. cbn [strings.trimStop].
    destruct (_ <=? _)%N.
    + apply TrimRightFunc_nonempty; [discriminate|].
      apply (leadOk_firstn (S k)). now apply leadOk_ascii.
    + destruct (strings.asciiSpace (nth k (c :: t) zero)); [exact IH|].
      discriminate.
Qed.

Lemma leadOk_TrimSpace x : leadOk (strings.TrimSpace x).
Proof.
  induction x as [|c x IH]; cbn [strings.TrimSpace]; [exact I|].
  destruct (N.leb_spec utf8.RuneSelf (code c)) as [Hc|Hc].
  - apply leadOk_TrimFunc.
  - destruct (strings.asciiSpace c) eqn:E; [exact IH|].
    apply leadOk_trimStop, leadOk_ascii; [|exact E].
    now apply N.ltb_lt.
Qed.

Lemma TrimSpace_nonempty y : y <> [] -> leadOk y -> strings.TrimSpace y <> [].
Proof.
  destruct y as [|c t]; [congruence|]. intros _ H.
  cbn [strings.TrimSpace].
  destruct (N.leb_spec utf8.RuneSelf (code c)) as [Hc|Hc].
  - unfold strings.TrimFunc. rewrite TrimLeftFunc_lead by (discriminate || assumption).
    apply TrimRightFunc_nonempty; [discriminate|assumption].
  - apply N.ltb_lt in Hc. rewrite (leadOk_ascii_inv Hc H).
    cbn [List.length]. apply trimStop_nonempty; [exact Hc|].
    exact (leadOk_ascii_inv Hc H).
Qed.

Lemma asciiSpace_low c :
  strings.asciiSpace c = true -> (utf8.RuneSelf <=? code c)%N = false.
Proof. bytes c. Qed.

(** A string of ASCII white space only trims to the empty string. *)
Lemma TrimSpace_blank s :
  forallb strings.asciiSpace s = true -> strings.TrimSpace s = [].
Proof.
  induction s as [|c s IH]; cbn [forallb strings.TrimSpace]; [reflexivity|].
  intros H. apply andb_true_iff in H as [H1 H2].
  now rewrite (asciiSpace_low _ H1), H1, IH.
Qed.

(** Trimming what is already trimmed leaves something unless there was
    nothing. *)
Lemma TrimSpace_twice_nil x :
  strings.TrimSpace (strings.TrimSpace x) = [] -> strings.TrimSpace x = [].
Proof.
  intros H. destruct (strings.TrimSpace x) as [|c t] eqn:E; [reflexivity|].
  exfalso. apply (@TrimSpace_nonempty (c :: t)); [discriminate| |exact H].
  rewrite <- E. apply leadOk_TrimSpace.
Qed.

(** *** The loop bounds are enough

    The loops of [indexFunc], [lastIndexFunc] and [DecodeLastRuneInString]
    are bounded by a number of iterations; a larger bound gives the same
    result, so the bound never cuts a loop short. *)

Lemma indexFunc_loop_bound f truth n :
  forall m i s, List.length s <= n -> List.length s <= m ->
    strings.indexFunc_loop f truth n i s = strings.indexFunc_loop f truth m i s.
Proof.
  induction n as [|n IH]; intros m i s Hn Hm.
  - destruct s; [|cbn in Hn; lia]. now destruct m.
  - destruct s as [|b s']; [now destruct m|].
    destruct m as [|m]; [cbn in Hm; lia|].
    cbn [strings.indexFunc_loop].
    pose proof (@dec_size_pos (b :: s')) as Hpos.
    destruct (dec (b :: s')) as [r size]. cbn [snd] in Hpos.
    destruct (Bool.eqb (f r) truth); [reflexivity|].
    assert (1 <= size) by (apply Hpos; discriminate).
    apply IH; rewrite length_skipn; cbn [List.length] in *; lia.
Qed.

Lemma lastIndexFunc_loop_bound f truth s n :
  forall m i, (i <= Z.of_nat (List.length s))%Z ->
    Z.to_nat i <= n -> Z.to_nat i <= m ->
    strings.lastIndexFunc_loop f truth n i s
    = strings.lastIndexFunc_loop f truth m i s.
Proof.
  induction n as [|n IH]; intros m i Hi Hn Hm.
  - destruct m; [reflexivity|]. cbn [strings.lastIndexFunc_loop].
    destruct (Z.ltb_spec 0 i); [lia|reflexivity].
  - cbn [strings.lastIndexFunc_loop].
    destruct (Z.ltb_spec 0 i) as [Hpos|Hpos].
    + destruct m as [|m]; [lia|]. cbn [strings.lastIndexFunc_loop].
      destruct (Z.ltb_spec 0 i); [|lia].
      destruct (decl (firstn (Z.to_nat i) s)) as [r size] eqn:ED.
      assert (Hne : firstn (Z.to_nat i) s <> []).
      { destruct s; [cbn in Hi; lia|].
        destruct (Z.to_nat i) eqn:E; [lia|]. discriminate. }
      destruct (decl_spec Hne ED) as [Hsz _].
      destruct (Bool.eqb (f r) truth); [reflexivity|].
      apply IH; lia.
    + destruct m; [reflexivity|]. cbn [strings.lastIndexFunc_loop].
      destruct (Z.ltb_spec 0 i); [lia|reflexivity].
Qed.

Lemma seekStart_bound s n :
  forall m start lim,
    (start - lim < Z.of_nat n)%Z -> (start - lim < Z.of_nat m)%Z ->
    utf8.seekStart s n start lim = utf8.seekStart s m start lim.
Proof.
  induction n as [|n IH]; intros m start lim Hn Hm.
  - destruct m; [reflexivity|]. cbn [utf8.seekStart].
    destruct (Z.ltb_spec start lim); [reflexivity|lia].
  - cbn [utf8.seekStart].
    destruct (Z.ltb_spec start lim) as [H|H].
    + destruct m; [reflexivity|]. cbn [utf8.seekStart].
      destruct (Z.ltb_spec start lim); [reflexivity|lia].
    + destruct m as [|m]; [lia|]. cbn [utf8.seekStart].
      destruct (Z.ltb_spec start lim); [lia|].
      destruct (utf8.RuneStart _); [reflexivity|].
      apply IH; lia.
Qed.

(** * Lemmas on strings and slices *)

Lemma eqs_eq a : forall b, eqs a b = true <-> a = b.
Proof.
  induction a as [|x a IH]; intros [|y b]; cbn [eqs]; split; try discriminate;
    try reflexivity.
  - intros H. apply andb_true_iff in H as [H1 H2].
    apply Ascii.eqb_eq in H1. apply IH in H2. now subst.
  - intros H. injection H as -> ->. apply andb_true_iff. split.
    + apply Ascii.eqb_refl.
    + now apply IH.
Qed.

Lemma eqs_refl a : eqs a a = true.
Proof. now apply eqs_eq. Qed.

Lemma eqs_neq a b : eqs a b = false <-> a <> b.
Proof.
  split.
  - intros H E. apply eqs_eq in E. congruence.
  - intros H. destruct (eqs a b) eqn:E; [|reflexivity].
    apply eqs_eq in E. contradiction.
Qed.

Lemma eqs_nil a : eqs a [] = true <-> a = [].
Proof. apply eqs_eq. Qed.

Lemma contains_In s item : contains s item = true <-> In item (elems s).
Proof.
  unfold contains. induction (elems s) as [|x l IH]; cbn [containsList In].
  - split; [discriminate|contradiction].
  - destruct (eqs x item) eqn:E.
    + apply eqs_eq in E. split; [now left|reflexivity].
    + apply eqs_neq in E. rewrite IH. split; [now right|].
      intros [H|H]; [contradiction|exact H].
Qed.

Lemma contains_nil item : contains None item = false.
Proof. reflexivity. Qed.

(** [HasSuffix sub "."]: the last byte is a period. *)
Lemma HasSuffix_period sub :
  strings.HasSuffix sub (str ".") = true <-> exists a, sub = a ++ str ".".
Proof.
  unfold strings.HasSuffix. cbn [str list_ascii_of_string List.length].
  split.
  - intros H. apply andb_true_iff in H as [H1 H2].
    apply eqs_eq in H2. exists (firstn (List.length sub - 1) sub).
    rewrite <- H2. symmetry. apply firstn_skipn.
  - intros [a ->]. rewrite length_app. cbn [List.length].
    apply andb_true_iff. split; [apply Nat.leb_le; lia|].
    replace (List.length a + 1 - 1) with (List.length a + 0) by lia.
    rewrite skipn_app, skipn_all2 by lia.
    replace (List.length a + 0 - List.length a) with 0 by lia.
    apply eqs_refl.
Qed.

(** * The grammar and the parser *)

Lemma lower_not_open b : lower b = true -> Ascii.eqb b "("%char = false.
Proof. intros H. now destruct (lower_not_punct b H). Qed.

Lemma span_lit p a (c : byte) r :
  forallb p a = true -> p c = false -> span p (a ++ c :: r) = (a, c :: r).
Proof. intros Ha Hc. now apply span_unique. Qed.

Lemma parseTail_ok subject ctype scope bang desc :
  (bang = [] \/ bang = str "!") -> forallb dot desc = true ->
  parseTail subject ctype scope (bang ++ str ": " ++ desc)
  = Some [subject; ctype; scope; bang; desc].
Proof.
  intros [-> | ->] Hd; unfold parseTail; cbn; now rewrite Hd.
Qed.

(** A subject of the grammar is parsed into its parts. *)
Lemma parse_Grammar subject ctype scope bang desc :
  Grammar subject ctype scope bang desc ->
  parseSubject subject = Some [subject; ctype; scope; bang; desc].
Proof.
  intros (Hs & Hne & Hty & Hsc & Hb & Hd).
  unfold parseSubject.
  destruct ctype as [|t0 ty]; [congruence|].
  destruct scope as [|c0 sc]; cbn [scopePart] in Hs.
  - destruct Hb as [-> | ->]; rewrite Hs at 1.
    + change ([] ++ [] ++ str ": " ++ desc) with (":"%char :: " "%char :: desc).
      rewrite span_lit by (exact Hty || reflexivity).
      cbn [Ascii.eqb Bool.eqb].
      apply (@parseTail_ok subject (t0 :: ty) [] [] desc); auto.
    + change ([] ++ str "!" ++ str ": " ++ desc)
        with ("!"%char :: ":"%char :: " "%char :: desc).
      rewrite span_lit by (exact Hty || reflexivity).
      cbn [Ascii.eqb Bool.eqb].
      apply (@parseTail_ok subject (t0 :: ty) [] (str "!") desc); auto.
  - destruct Hsc as [Hsc|Hsc]; [discriminate|].
    cbn [isScope] in Hsc. apply andb_true_iff in Hsc as [H1 H2].
    rewrite Hs at 1.
    change ((str "(" ++ (c0 :: sc) ++ str ")") ++ bang ++ str ": " ++ desc)
      with ("("%char :: ((c0 :: sc) ++ str ")") ++ bang ++ str ": " ++ desc).
    rewrite span_lit by (exact Hty || reflexivity).
    cbn [Ascii.eqb Bool.eqb].
    rewrite <- app_assoc.
    change (str ")" ++ bang ++ str ": " ++ desc)
      with (")"%char :: bang ++ str ": " ++ desc).
    rewrite span_lit.
    + rewrite H1. cbn [andb Ascii.eqb Bool.eqb].
      now apply parseTail_ok.
    + cbn [forallb]. now rewrite (lowerDigit_scopeByte _ H1), H2.
    + reflexivity.
Qed.

Lemma parseTail_inv subject ctype scope rest m :
  parseTail subject ctype scope rest = Some m ->
  exists bang desc,
    m = [subject; ctype; scope; bang; desc]
    /\ rest = bang ++ str ": " ++ desc
    /\ (bang = [] \/ bang = str "!") /\ forallb dot desc = true.
Proof.
  unfold parseTail.
  destruct rest as [|b rest']; [discriminate|].
  destruct (Ascii.eqb b "!"%char) eqn:E.
  - apply Ascii.eqb_eq in E. subst b.
    destruct rest' as [|b1 [|b2 desc]]; try discriminate.
    destruct (Ascii.eqb b1 ":"%char) eqn:E1; [|discriminate].
    destruct (Ascii.eqb b2 " "%char) eqn:E2; [|discriminate].
    destruct (forallb dot desc) eqn:E3; [|discriminate].
    apply Ascii.eqb_eq in E1, E2. subst. cbn [andb].
    intros H. injection H as <-. exists (str "!"), desc. auto.
  - destruct rest' as [|b2 desc]; try discriminate.
    destruct (Ascii.eqb b ":"%char) eqn:E1; [|discriminate].
    destruct (Ascii.eqb b2 " "%char) eqn:E2; [|discriminate].
    destruct (forallb dot desc) eqn:E3; [|discriminate].
    apply Ascii.eqb_eq in E1, E2. subst. cbn [andb].
    intros H. injection H as <-. exists [], desc. auto.
Qed.

(** What the parser accepts is a subject of the grammar. *)
Lemma Grammar_parse subject m :
  parseSubject subject = Some m ->
  exists ctype scope bang desc,
    m = [subject; ctype; scope; bang; desc]
    /\ Grammar subject ctype scope bang desc.
Proof.
  unfold parseSubject.
  pose proof (span_app lower subject) as Happ.
  pose proof (span_all lower subject) as Hall.
  destruct (span lower subject) as [ctype rest]. cbn [fst snd] in *.
  destruct ctype as [|t0 ty]; [discriminate|].
  destruct rest as [|b rest']; [discriminate|].
  destruct (Ascii.eqb b "("%char) eqn:E.
  - apply Ascii.eqb_eq in E. subst b.
    pose proof (span_app scopeByte rest') as Happ2.
    pose proof (span_all scopeByte rest') as Hall2.
    destruct (span scopeByte rest') as [scope r2]. cbn [fst snd] in *.
    destruct scope as [|c0 sc]; [discriminate|].
    destruct r2 as [|e r3]; [discriminate|].
    destruct (lowerDigit c0) eqn:L; [|discriminate].
    destruct (Ascii.eqb e ")"%char) eqn:E; [|discriminate].
    apply Ascii.eqb_eq in E. subst e. cbn [andb].
    intros H. apply parseTail_inv in H as (bang & desc & -> & -> & Hb & Hd).
    exists (t0 :: ty), (c0 :: sc), bang, desc. split; [reflexivity|].
    repeat split; try assumption; try discriminate.
    + rewrite <- Happ, <- Happ2. cbn [scopePart str list_ascii_of_string].
      cbn [app]. rewrite <- !app_assoc. reflexivity.
    + right. cbn [isScope forallb] in *. rewrite L.
      now apply andb_true_iff in Hall2 as [_ ->].
  - intros H. apply parseTail_inv in H as (bang & desc & -> & Hr & Hb & Hd).
    exists (t0 :: ty), [], bang, desc. split; [reflexivity|].
    repeat split; try assumption; try discriminate.
    + rewrite <- Happ, Hr. reflexivity.
    + now left.
Qed.

(** X1.  The expression of [LintSubject] matches exactly the subjects of
    the grammar, and its submatches are their parts. *)
Lemma FindStringSubmatch_Grammar subject m :
  regexp.FindStringSubmatch 4 subjectRe subject = Some m
  <-> exists ctype scope bang desc,
        m = [subject; ctype; scope; bang; desc]
        /\ Grammar subject ctype scope bang desc.
Proof.
  rewrite FindStringSubmatch_parse. split.
  - apply Grammar_parse.
  - intros (ctype & scope & bang & desc & -> & G). now apply parse_Grammar.
Qed.

(** * [LintSubject] and the table of checks *)

Lemma LintSubject_unparsed l subject :
  parseSubject subject = None -> LintSubject l subject = Some [formatMessage].
Proof.
  intros H. unfold LintSubject. now rewrite FindStringSubmatch_parse, H.
Qed.

Lemma LintSubject_parsed l subject whole ctype scope bang desc :
  parseSubject subject = Some [whole; ctype; scope; bang; desc] ->
  LintSubject l subject
  = report (failing (rules (Config_ l) ctype scope (strings.TrimSpace desc))).
Proof.
  intros H. unfold LintSubject. rewrite FindStringSubmatch_parse, H.
  cbn [nth]. unfold rules, failing.
  fold (typeNotAllowed (Config_ l) ctype).
  fold (scopeMissing (Config_ l) ctype scope).
  fold (scopeNotAllowed (Config_ l) scope).
  fold (msgType (Config_ l) ctype) (msgScope (Config_ l) scope).
  fold (subjectTooLong (Config_ l) (strings.TrimSpace desc)).
  fold (msgTooLong (Config_ l) (strings.TrimSpace desc)).
  fold (endsWithPeriod (strings.TrimSpace desc)).
  fold (startsUpper (Config_ l) (strings.TrimSpace desc)).
  fold msgScopeMissing msgEmpty msgPeriod msgUpper.
  assert (E4 : eqs (strings.TrimSpace (strings.TrimSpace desc)) []
               = subjectEmpty (strings.TrimSpace desc)).
  { unfold subjectEmpty.
    destruct (eqs (strings.TrimSpace desc) []) eqn:E.
    - apply eqs_nil in E. rewrite E. reflexivity.
    - apply eqs_neq. intros E'. apply TrimSpace_twice_nil in E'.
      apply eqs_neq in E. contradiction. }
  rewrite E4.
  destruct (typeNotAllowed _ _), (scopeMissing _ _ _), (scopeNotAllowed _ _),
    (subjectEmpty _), (subjectTooLong _ _), (endsWithPeriod _),
    (startsUpper _ _); reflexivity.
Qed.

Lemma LintSubject_Grammar l subject ctype scope bang desc :
  Grammar subject ctype scope bang desc ->
  LintSubject l subject
  = report (failing (rules (Config_ l) ctype scope (strings.TrimSpace desc))).
Proof.
  intros G. apply parse_Grammar in G. exact (LintSubject_parsed l _ G).
Qed.

(** * Which checks fire *)

Lemma In_failing r m : In m (failing r) <-> In (true, m) r.
Proof.
  unfold failing. rewrite in_map_iff. split.
  - intros ([b m'] & E & H). cbn in E. subst m'.
    apply filter_In in H as [H Hb]. cbn in Hb. now subst b.
  - intros H. exists (true, m). split; [reflexivity|].
    apply filter_In. now split.
Qed.

Lemma elems_report l : elems (report l) = l.
Proof. now destruct l. Qed.

Lemma kind_msgType cfg ctype : kind (msgType cfg ctype) = 1.
Proof. reflexivity. Qed.

Lemma kind_msgScope cfg scope : kind (msgScope cfg scope) = 3.
Proof. reflexivity. Qed.

Lemma kind_msgTooLong cfg sub : kind (msgTooLong cfg sub) = 5.
Proof. reflexivity. Qed.

Ltac kinds H :=
  apply (f_equal snd) in H; cbn [snd] in H;
  apply (f_equal kind) in H;
  rewrite ?kind_msgType, ?kind_msgScope, ?kind_msgTooLong in H;
  vm_compute in H; discriminate H.

Ltac fires_tac :=
  rewrite In_failing; unfold rules; cbn [In]; split;
  [ intros H; destruct H as [H|[H|[H|[H|[H|[H|[H|[]]]]]]]];
    first [ exact (f_equal fst H) | kinds H ]
  | intros ->; tauto ].

(** A message is in the result exactly when its check fails. *)
Lemma fires cfg ctype scope sub :
  let out := failing (rules cfg ctype scope sub) in
  (In (msgType cfg ctype) out <-> typeNotAllowed cfg ctype = true)
  /\ (In msgScopeMissing out <-> scopeMissing cfg ctype scope = true)
  /\ (In (msgScope cfg scope) out <-> scopeNotAllowed cfg scope = true)
  /\ (In msgEmpty out <-> subjectEmpty sub = true)
  /\ (In (msgTooLong cfg sub) out <-> subjectTooLong cfg sub = true)
  /\ (In msgPeriod out <-> endsWithPeriod sub = true)
  /\ (In msgUpper out <-> startsUpper cfg sub = true).
Proof.
  cbv zeta. repeat (match goal with |- _ /\ _ => split end); fires_tac.
Qed.

(** * The conditions of the checks as propositions *)

Lemma subjectEmpty_spec sub : subjectEmpty sub = true <-> sub = [].
Proof. apply eqs_nil. Qed.

Lemma subjectTooLong_spec cfg sub :
  subjectTooLong cfg sub = true
  <-> (MaxSubjectLength cfg < Z.of_nat (List.length sub))%Z.
Proof. apply Z.ltb_lt. Qed.

Lemma endsWithPeriod_spec sub :
  endsWithPeriod sub = true <-> exists a, sub = a ++ str ".".
Proof. apply HasSuffix_period. Qed.

Lemma startsUpper_spec cfg sub :
  startsUpper cfg sub = true
  <-> AllowCapitalSubject cfg = false
      /\ exists c t, sub = c :: t /\ inRange 65 90 c = true.
Proof.
  unfold startsUpper. split.
  - intros H. apply andb_true_iff in H as [H H3].
    apply andb_true_iff in H as [H1 H2].
    apply negb_true_iff in H1. split; [exact H1|].
    destruct sub as [|c t]; [discriminate|]. now exists c, t.
  - intros (H1 & c & t & -> & H2). cbn [nth List.length]. now rewrite H1, H2.
Qed.

Lemma typeNotAllowed_nil cfg ctype :
  AllowedTypes cfg = None -> typeNotAllowed cfg ctype = false.
Proof. unfold typeNotAllowed. now intros ->. Qed.

Lemma scopeNotAllowed_nil cfg scope :
  AllowedScopes cfg = None -> scopeNotAllowed cfg scope = false.
Proof. unfold scopeNotAllowed. intros ->. cbn. now rewrite andb_false_r. Qed.

Lemma report_None l : report l = None <-> l = [].
Proof. destruct l; cbn; split; congruence. Qed.

Lemma failing_nil r : failing r = [] <-> forall c, In c r -> fst c = false.
Proof.
  unfold failing. induction r as [|[b m] r IH]; cbn [filter map In fst].
  - split; [intros _ c []|reflexivity].
  - destruct b; cbn [map].
    + split; [discriminate|]. intros H. now specialize (H (true, m) (or_introl eq_refl)).
    + rewrite IH. split.
      * intros H c [<-|Hc]; [reflexivity|now apply H].
      * intros H c Hc. apply H. now right.
Qed.

(** * Decimal integers and [Atoi] *)

Lemma digits_not_all acc s :
  forallb (inRange 48 57) s = false -> strconv.digits acc s = None.
Proof.
  revert acc. induction s as [|c s IH]; intros acc; cbn; [discriminate|].
  destruct (inRange 48 57 c); cbn; [apply IH|reflexivity].
Qed.

Lemma Atoi_not_decimal s : isDecimal s = false -> strconv.Atoi s = None.
Proof.
  destruct s as [|c t]; [reflexivity|].
  unfold isDecimal, strconv.Atoi.
  destruct (Ascii.eqb c "-"); cbn [orb].
  - destruct t as [|d t']; [reflexivity|]. cbn [eqs negb andb].
    intros H. now rewrite (@digits_not_all 0%Z _ H).
  - set (body := if Ascii.eqb c "+" then t else c :: t).
    destruct body as [|d t']; [reflexivity|]. cbn [eqs negb andb].
    intros H. now rewrite (@digits_not_all 0%Z _ H).
Qed.

Lemma Atoi_range s n :
  strconv.Atoi s = Some n -> (- 2 ^ 63 <= n < 2 ^ 63)%Z.
Proof.
  unfold strconv.Atoi. destruct s as [|c t]; [discriminate|].
  destruct (if Ascii.eqb c "-" || Ascii.eqb c "+" then t else c :: t);
    [discriminate|].
  destruct (strconv.digits 0 _) as [v|]; [|discriminate].
  set (w := if Ascii.eqb c "-" then (- v)%Z else v).
  destruct (Z.leb_spec (- 2 ^ 63) w); [|discriminate].
  destruct (Z.leb_spec w (2 ^ 63 - 1)); [|discriminate].
  cbn [andb]. intros E. injection E as <-. lia.
Qed.

(** * The amended table and the checks of the source *)

Lemma member_contains x s : member x s = contains s x.
Proof.
  unfold member. destruct (in_dec _ x (elems s)) as [H|H].
  - symmetry. now apply contains_In.
  - destruct (contains s x) eqn:E; [|reflexivity].
    apply contains_In in E. contradiction.
Qed.

Lemma isEmpty_eqs s : isEmpty s = eqs s [].
Proof. now destruct s. Qed.

Lemma lastByte_period sub :
  match rev sub with
  | c :: _ => Ascii.eqb c "."%char
  | [] => false
  end = endsWithPeriod sub.
Proof.
  destruct (endsWithPeriod sub) eqn:E.
  - apply endsWithPeriod_spec in E as [a ->].
    rewrite rev_app_distr. reflexivity.
  - destruct (rev sub) as [|c r] eqn:R; [reflexivity|].
    destruct (Ascii.eqb_spec c "."%char) as [->|Hc]; [|reflexivity].
    assert (H : endsWithPeriod sub = true).
    { apply endsWithPeriod_spec. exists (rev r).
      rewrite <- (rev_involutive sub), R. reflexivity. }
    congruence.
Qed.

Lemma firstByte_upper cfg sub :
  negb (AllowCapitalSubject cfg)
  && match sub with
     | c :: _ => inRange 65 90 c
     | [] => false
     end
  = startsUpper cfg sub.
Proof.
  unfold startsUpper. destruct sub as [|c t]; cbn [List.length nth Nat.ltb Nat.leb].
  - now rewrite andb_false_r.
  - now rewrite andb_true_r.
Qed.

Lemma amendedRules_rules cfg ctype scope sub :
  amendedRules cfg ctype scope sub = rules cfg ctype scope sub.
Proof.
  unfold amendedRules, rules, typeNotAllowed, scopeMissing, scopeNotAllowed,
    subjectEmpty, subjectTooLong.
  rewrite !member_contains, !isEmpty_eqs, lastByte_period, firstByte_upper.
  reflexivity.
Qed.

(** * The cases of the repository's tests

    Each case of [TestLintSubject], [TestReadEnvList] and [TestGetEnvBool]
    evaluated on the embedding.  The embedding gives what the test
    expects in every case but the three merge-commit cases, where the
    test expects no error and [LintSubject] returns the format
    violation. *)

Example test_valid_simple :
  LintSubject (testDefaults (mkConfig (Some [str "feat"]) None false None false 50))
              (str "feat: add new feature") = None.
Proof. vm_compute. reflexivity. Qed.

Example test_valid_with_scope :
  LintSubject (testDefaults (mkConfig (Some [str "fix"]) None false None false 50))
              (str "fix(api): correct a bug") = None.
Proof. vm_compute. reflexivity. Qed.

Example test_valid_with_breaking_change :
  LintSubject
    (testDefaults (mkConfig (Some [str "refactor"]) None false None false 50))
    (str "refactor(parser)!: simplify the logic") = None.
Proof. vm_compute. reflexivity. Qed.

Example test_valid_capital_subject_allowed :
  LintSubject (testDefaults (mkConfig (Some [str "docs"]) None false None true 50))
              (str "docs: Add documentation for API") = None.
Proof. vm_compute. reflexivity. Qed.

Example test_valid_scope_required_and_present :
  LintSubject (testDefaults (mkConfig (Some [str "test"]) None true None false 50))
              (str "test(auth): add more tests") = None.
Proof. vm_compute. reflexivity. Qed.

Example test_merge_commit_github_style :
  LintSubject (testDefaults zeroConfig)
              (str "Merge pull request #123 from feature/branch")
  = Some [formatMessage].
Proof. vm_compute. reflexivity. Qed.

Example test_merge_commit_branch_style :
  LintSubject (testDefaults zeroConfig) (str "Merge branch 'feature/foo'")
  = Some [formatMessage].
Proof. vm_compute. reflexivity. Qed.

Example test_merge_commit_hash_style :
  LintSubject
    (testDefaults zeroConfig)
    (str "Merge 9d7b7c932575348d7a2768fc781960128d9b16f2 into 15a00c61be9c996611064f3cb94a388cbe40c3a2")
  = Some [formatMessage].
Proof. vm_compute. reflexivity. Qed.

Example test_invalid_wrong_format :
  LintSubject (testDefaults zeroConfig) (str "missing colon")
  = Some [str "format must be 'type(scope)?: subject' with lowercase type and a space after colon"].
Proof. vm_compute. reflexivity. Qed.

Example test_invalid_unknown_type :
  LintSubject
    (testDefaults (mkConfig (Some [str "feat"; str "fix"]) None false None false 0))
    (str "unknown: some message")
  = Some [str "type 'unknown' is not allowed. Allowed: feat, fix"].
Proof. vm_compute. reflexivity. Qed.

Example test_invalid_scope_required_but_missing :
  LintSubject (testDefaults (mkConfig (Some [str "feat"]) None true None false 0))
              (str "feat: missing scope")
  = Some [str "scope is required but missing"].
Proof. vm_compute. reflexivity. Qed.

Example test_invalid_scope_not_in_allowed_list :
  LintSubject
    (testDefaults (mkConfig (Some [str "feat"]) (Some [str "api"; str "ui"])
                            false None false 0))
    (str "feat(invalid): scope not allowed")
  = Some [str "scope 'invalid' is not in allowed list: api, ui"].
Proof. vm_compute. reflexivity. Qed.

Example test_invalid_subject_too_long :
  LintSubject
    (testDefaults (mkConfig (Some [str "fix"]) None false None false 20))
    (str "fix: this subject is definitely way too long for the linter to accept")
  = Some [str "subject too long (64 > 20)"].
Proof. vm_compute. reflexivity. Qed.

Example test_invalid_subject_ends_with_period :
  LintSubject (testDefaults (mkConfig (Some [str "docs"]) None false None false 0))
              (str "docs: add some documentation.")
  = Some [str "subject must not end with a period"].
Proof. vm_compute. reflexivity. Qed.

Example test_invalid_subject_starts_with_capital :
  LintSubject (testDefaults (mkConfig (Some [str "style"]) None false None false 0))
              (str "style: Format the code")
  = Some [str "subject should start lowercase (imperative mood)"].
Proof. vm_compute. reflexivity. Qed.

Example test_invalid_empty_subject :
  LintSubject (testDefaults (mkConfig (Some [str "chore"]) None false None false 0))
              (str "chore: ")
  = Some [str "subject must not be empty"].
Proof. vm_compute. reflexivity. Qed.

Example test_readEnvList_empty_env_with_default :
  readEnvList (setenv (str "TEST_ENV_VAR") []) (str "TEST_ENV_VAR") (str "a,b,c")
  = Some [str "a"; str "b"; str "c"].
Proof. vm_compute. reflexivity. Qed.

Example test_readEnvList_env_set :
  readEnvList (setenv (str "TEST_ENV_VAR") (str "x, y, z")) (str "TEST_ENV_VAR")
              (str "a,b,c")
  = Some [str "x"; str "y"; str "z"].
Proof. vm_compute. reflexivity. Qed.

Example test_readEnvList_env_with_extra_spaces :
  readEnvList (setenv (str "TEST_ENV_VAR") (str "  one,  two  "))
              (str "TEST_ENV_VAR") []
  = Some [str "one"; str "two"].
Proof. vm_compute. reflexivity. Qed.

Example test_readEnvList_empty_env_empty_default :
  readEnvList (setenv (str "TEST_ENV_VAR") []) (str "TEST_ENV_VAR") [] = None.
Proof. vm_compute. reflexivity. Qed.

Example test_readEnvList_env_is_just_whitespace :
  readEnvList (setenv (str "TEST_ENV_VAR") (str "   ")) (str "TEST_ENV_VAR")
              (str "a,b")
  = Some [str "a"; str "b"].
Proof. vm_compute. reflexivity. Qed.

Example test_getEnvBool :
  map (fun '(v, d) => getEnvBool (setenv (str "TEST_BOOL_VAR") (str v))
                                 (str "TEST_BOOL_VAR") d)
      [(""%string, true); (""%string, false); ("TRUE"%string, false);
       ("yes"%string, false); ("on"%string, false); ("1"%string, false);
       ("FALSE"%string, true); ("other"%string, true); ("true"%string, false)]
  = [true; false; true; true; true; true; false; false; true].
Proof. vm_compute. reflexivity. Qed.

(** [TrimSpace] on white space outside ASCII (the no-break space
    [C2 A0] and the em space [E2 80 83]) and on bytes that are not valid
    UTF-8. *)
Example test_TrimSpace_unicode :
  strings.TrimSpace
    ([ascii_of_nat 194; ascii_of_nat 160] ++ str " a b "
     ++ [ascii_of_nat 226; ascii_of_nat 128; ascii_of_nat 131] ++ str " ")
  = str "a b".
Proof. vm_compute. reflexivity. Qed.

Example test_TrimSpace_invalid :
  strings.TrimSpace (str " a" ++ [ascii_of_nat 194] ++ str " "
                     ++ [ascii_of_nat 194; ascii_of_nat 160])
  = str "a" ++ [ascii_of_nat 194].
Proof. vm_compute. reflexivity. Qed.

(** * The claims *)

(** C1.  The specification asks that a merge-commit subject
    ([Merge pull request #N from X], [Merge branch 'X'],
    [Merge <hex> into <hex>]) yield no violation under every
    configuration.  [LintSubject] has no case for merge commits: a subject
    that begins with [Merge] cannot match the expression, whose first byte
    must be a lowercase letter, so under every configuration the result is
    the format violation. *)
Theorem merge_subject_gets_format_violation (l : Linter) (rest : gostring) :
  LintSubject l (str "Merge" ++ rest) = Some [formatMessage].
Proof. apply LintSubject_unparsed. reflexivity. Qed.

(** C2, as the specification states it: checks 5 to 7 on the raw
    remainder.  With [maxSubjectLength = 2] and a description of three
    spaces the raw reading reports the length 3; [LintSubject] reports
    the empty description only. *)
Lemma raw_view_counterexample :
  LintSubject (testConfig ["chore"%string] None false false 2)
              (str "chore:    ")
  <> SpecLintSubject (testConfig ["chore"%string] None false false 2)
                     (str "chore:    ").
Proof. vm_compute. discriminate. Qed.

(** C2, amended.  For every subject of the grammar, checks 4 to 7 are all
    evaluated on the description after [TrimSpace]: the empty message is
    reported exactly when the trimmed description is empty, the length
    message (with the trimmed length) exactly when the trimmed length
    exceeds [MaxSubjectLength], the period message exactly when the
    trimmed description ends with a period, the lowercase message exactly
    when capitals are not allowed and the trimmed description starts with
    an uppercase ASCII letter.  In particular, for a description of white
    space only, check 4 fires, checks 6 and 7 do not, and check 5 compares
    the length 0 with [MaxSubjectLength]. *)
Theorem checks_use_trimmed_description
    (l : Linter) (subject ctype scope bang desc : gostring) :
  Grammar subject ctype scope bang desc ->
  let cfg := Config_ l in
  let sub := strings.TrimSpace desc in
  let out := elems (LintSubject l subject) in
  (In msgEmpty out <-> sub = [])
  /\ (In (msgTooLong cfg sub) out
      <-> (MaxSubjectLength cfg < Z.of_nat (List.length sub))%Z)
  /\ (In msgPeriod out <-> exists a, sub = a ++ str ".")
  /\ (In msgUpper out
      <-> AllowCapitalSubject cfg = false
          /\ exists c t, sub = c :: t /\ inRange 65 90 c = true)
  /\ (sub = [] ->
      In msgEmpty out /\ ~ In msgPeriod out /\ ~ In msgUpper out
      /\ (In (str "subject too long (0 > " ++ fmt.d (MaxSubjectLength cfg)
              ++ str ")") out
          <-> (MaxSubjectLength cfg < 0)%Z)).
Proof.
  intros G cfg sub out. subst out.
  rewrite (LintSubject_Grammar l G), elems_report. fold cfg sub.
  destruct (fires cfg ctype scope sub) as (_ & _ & _ & F4 & F5 & F6 & F7).
  rewrite subjectEmpty_spec in F4. rewrite subjectTooLong_spec in F5.
  rewrite endsWithPeriod_spec in F6. rewrite startsUpper_spec in F7.
  repeat (match goal with |- _ /\ _ => split end); try assumption.
  intros E. rewrite E in *.
  repeat (match goal with |- _ /\ _ => split end).
  - now apply F4.
  - rewrite F6. intros [a Ha]. destruct a; discriminate.
  - rewrite F7. intros (_ & c & t & Hc & _). discriminate.
  - exact F5.
Qed.

Lemma checks_use_trimmed_description_witness :
  In msgPeriod
     (elems (LintSubject (testConfig ["feat"%string] None false false 72)
                         (str "feat:  add thing. ")))
  <-> exists a, strings.TrimSpace (str " add thing. ") = a ++ str ".".
Proof.
  destruct (@checks_use_trimmed_description
              (testConfig ["feat"%string] None false false 72)
              (str "feat:  add thing. ") (str "feat") [] []
              (str " add thing. ")) as (_ & _ & H & _).
  - repeat split; try reflexivity; try discriminate; now left.
  - exact H.
Defined.

(** C3, as the specification states it: an empty allow-list skips the
    check.  With both allow-lists empty and not [nil], checks 1 and 3
    fire. *)
Lemma empty_allow_list_counterexample :
  len (AllowedTypes (Config_ (mkLinter (mkConfig (Some []) (Some []) false
                                                 None false 72)))) = 0
  /\ LintSubject (mkLinter (mkConfig (Some []) (Some []) false None false 72))
                 (str "feat(api): add")
     = Some [str "type 'feat' is not allowed. Allowed: ";
             str "scope 'api' is not in allowed list: "].
Proof. split; reflexivity. Qed.

(** C3, amended.  For every subject of the grammar: when [AllowedTypes] is
    [nil], check 1 produces no violation, and when [AllowedScopes] is
    [nil], check 3 produces none.  An allow-list that is empty but not
    [nil] is not skipped: it rejects every type, and every scope that is
    present. *)
Theorem nil_allow_list_skips_check
    (l : Linter) (subject ctype scope bang desc : gostring) :
  Grammar subject ctype scope bang desc ->
  let cfg := Config_ l in
  let out := elems (LintSubject l subject) in
  (AllowedTypes cfg = None -> ~ In (msgType cfg ctype) out)
  /\ (AllowedScopes cfg = None -> ~ In (msgScope cfg scope) out)
  /\ (AllowedTypes cfg = Some [] -> In (msgType cfg ctype) out)
  /\ (AllowedScopes cfg = Some [] -> scope <> [] ->
      In (msgScope cfg scope) out).
Proof.
  intros G cfg out. subst out.
  rewrite (LintSubject_Grammar l G), elems_report. fold cfg.
  destruct (fires cfg ctype scope (strings.TrimSpace desc))
    as (F1 & _ & F3 & _).
  repeat (match goal with |- _ /\ _ => split end).
  - intros E. rewrite F1, (typeNotAllowed_nil _ _ E). discriminate.
  - intros E. rewrite F3, (scopeNotAllowed_nil _ _ E). discriminate.
  - intros E. apply F1. unfold typeNotAllowed. now rewrite E.
  - intros E Hs. apply F3. unfold scopeNotAllowed. rewrite E. cbn.
    apply eqs_neq in Hs. now rewrite Hs.
Qed.

Lemma nil_allow_list_skips_check_witness :
  ~ In (msgType (mkConfig None None false None false 72) (str "anything"))
       (elems (LintSubject (mkLinter (mkConfig None None false None false 72))
                           (str "anything(x): add"))).
Proof.
  destruct (@nil_allow_list_skips_check
              (mkLinter (mkConfig None None false None false 72))
              (str "anything(x): add") (str "anything") (str "x") []
              (str "add")) as (H & _).
  - repeat split; try reflexivity; try discriminate; auto.
  - apply H. reflexivity.
Defined.

(** C4.  For every subject that does not match the grammar, whatever the
    configuration, [LintSubject] returns exactly one violation, the fixed
    format message; no check is evaluated.  (The source has no merge
    pattern, so no exception is needed.) *)
Theorem unparsed_subject_single_violation (l : Linter) (subject : gostring) :
  (forall ctype scope bang desc, ~ Grammar subject ctype scope bang desc) ->
  LintSubject l subject = Some [formatMessage].
Proof.
  intros H. apply LintSubject_unparsed.
  destruct (parseSubject subject) as [m|] eqn:E; [|reflexivity].
  apply Grammar_parse in E as (ctype & scope & bang & desc & _ & G).
  exfalso. exact (H _ _ _ _ G).
Qed.

Lemma unparsed_subject_single_violation_witness :
  LintSubject (mkLinter (mkConfig None None true None false 0))
              (str "missing colon")
  = Some [formatMessage].
Proof.
  apply unparsed_subject_single_violation.
  intros ctype scope bang desc G. apply parse_Grammar in G.
  vm_compute in G. discriminate G.
Defined.

(** C5, as the specification states it: the failing checks of the table
    of section 4.2.  With an allow-list of types that is empty and not
    [nil] and the subject [fix: add thing. ] no check of the table fails:
    the empty list does not restrict, and the raw description ends with a
    space.  [LintSubject] reports the type and the period. *)
Lemma table_as_worded_counterexample :
  SpecLintSubject (mkLinter (mkConfig (Some []) None false None false 72))
                  (str "fix: add thing. ")
  = None
  /\ LintSubject (mkLinter (mkConfig (Some []) None false None false 72))
                 (str "fix: add thing. ")
     = Some [str "type 'fix' is not allowed. Allowed: ";
             str "subject must not end with a period"].
Proof. split; reflexivity. Qed.

(** C5, amended.  For every subject of the grammar and every
    configuration the result of [LintSubject] is the list of the messages
    of the checks of the table that fail, in the order 1 to 7 of the
    table, each check evaluated whether or not another failed, where
    checks 1 and 3 restrict when the allow-list is not [nil] and checks 4
    to 7 read the trimmed description; the result is [nil] exactly when
    no check fails. *)
Theorem LintSubject_lists_failing_checks
    (l : Linter) (subject ctype scope bang desc : gostring) :
  Grammar subject ctype scope bang desc ->
  let r := amendedRules (Config_ l) ctype scope (strings.TrimSpace desc) in
  LintSubject l subject = report (map snd (filter fst r))
  /\ (LintSubject l subject = None <-> forall c, In c r -> fst c = false)
  /\ (forall m, In m (elems (LintSubject l subject)) <-> In (true, m) r).
Proof.
  intros G r. subst r. rewrite amendedRules_rules.
  rewrite (LintSubject_Grammar l G).
  split; [reflexivity|]. split.
  - rewrite report_None. apply failing_nil.
  - intros m. rewrite elems_report. apply In_failing.
Qed.

Lemma LintSubject_lists_failing_checks_witness :
  LintSubject (testConfig ["feat"%string] (Some [str "api"]) false false 5)
              (str "fix(ui)!: Add things.")
  = Some [str "type 'fix' is not allowed. Allowed: feat";
          str "scope 'ui' is not in allowed list: api";
          str "subject too long (11 > 5)";
          str "subject must not end with a period";
          str "subject should start lowercase (imperative mood)"].
Proof.
  destruct (@LintSubject_lists_failing_checks
              (testConfig ["feat"%string] (Some [str "api"]) false false 5)
              (str "fix(ui)!: Add things.") (str "fix") (str "ui") (str "!")
              (str "Add things.")) as (H & _).
  - repeat split; try reflexivity; try discriminate; auto.
  - rewrite H. reflexivity.
Defined.

(** C6, as the specification states it: [MaxSubjectLength] is positive.
    With [MAX_SUBJECT=0] it is 0. *)
Lemma max_length_zero_counterexample :
  ~ (0 < MaxSubjectLength
           (Config_ (NewLinter (setenv (str "MAX_SUBJECT") (str "0")))))%Z.
Proof. vm_compute. intros H. discriminate H. Qed.

(** C6, amended.  For every environment, [MaxSubjectLength] of the
    configuration of [NewLinter] is 72 when [MAX_SUBJECT] is unset, when
    its value is not a decimal integer, and whenever [Atoi] fails on it
    (also on a decimal integer outside the 64-bit range); otherwise it is
    the integer the value denotes, whatever its sign, so it is positive
    only when that integer is. *)
Theorem NewLinter_MaxSubjectLength (env : os.Env) :
  let v := os.Getenv env (str "MAX_SUBJECT") in
  let m := MaxSubjectLength (Config_ (NewLinter env)) in
  (env (str "MAX_SUBJECT") = None -> m = 72%Z)
  /\ (isDecimal v = false -> m = 72%Z)
  /\ (strconv.Atoi v = None -> m = 72%Z)
  /\ (forall n, strconv.Atoi v = Some n ->
        m = n /\ (- 2 ^ 63 <= n < 2 ^ 63)%Z /\ ((0 < m)%Z <-> (0 < n)%Z)).
Proof.
  intros v m. subst m. cbn [NewLinter Config_ MaxSubjectLength]. fold v.
  repeat (match goal with |- _ /\ _ => split end).
  - intros E. subst v. unfold os.Getenv. rewrite E. reflexivity.
  - intros E. now rewrite (Atoi_not_decimal _ E).
  - now intros ->.
  - intros n E. rewrite E. split; [reflexivity|]. split; [|reflexivity].
    exact (Atoi_range _ E).
Qed.

Lemma NewLinter_MaxSubjectLength_witness :
  MaxSubjectLength
    (Config_ (NewLinter (setenv (str "MAX_SUBJECT") (str "-5")))) = (-5)%Z
  /\ MaxSubjectLength
       (Config_ (NewLinter (setenv (str "MAX_SUBJECT") (str "seventy")))) = 72%Z
  /\ MaxSubjectLength (Config_ (NewLinter noenv)) = 72%Z.
Proof.
  split; [|split].
  - destruct (NewLinter_MaxSubjectLength
                (setenv (str "MAX_SUBJECT") (str "-5"))) as (_ & _ & _ & H).
    apply (H (-5)%Z). reflexivity.
  - destruct (NewLinter_MaxSubjectLength
                (setenv (str "MAX_SUBJECT") (str "seventy"))) as (_ & H & _).
    apply H. reflexivity.
  - destruct (NewLinter_MaxSubjectLength noenv) as (H & _).
    apply H. reflexivity.
Defined.

(** ** [readEnvList] *)

Lemma keepTrimmed_spec parts : forall result,
  keepTrimmed parts result
  = result ++ filter (fun t => negb (eqs t [])) (map strings.TrimSpace parts).
Proof.
  induction parts as [|p parts IH]; intros result; cbn [keepTrimmed map filter].
  - now rewrite app_nil_r.
  - destruct (negb (eqs (strings.TrimSpace p) [])).
    + rewrite IH, <- app_assoc. reflexivity.
    + apply IH.
Qed.

(** What [readEnvList] does guarantee: every token is the trimmed text of
    a piece between commas, and none is empty; an unset or blank variable
    gives what the default gives. *)
Lemma readEnvList_tokens env name defaultValue t :
  In t (elems (readEnvList env name defaultValue)) ->
  t <> [] /\ exists p, t = strings.TrimSpace p.
Proof.
  unfold readEnvList.
  set (raw := if eqs (strings.TrimSpace (os.Getenv env name)) []
              then defaultValue else os.Getenv env name).
  destruct (eqs (strings.TrimSpace raw) []); [intros []|].
  cbn [elems]. rewrite keepTrimmed_spec. cbn [app].
  intros H. apply filter_In in H as [H1 H2].
  apply in_map_iff in H1 as (p & <- & _).
  apply negb_true_iff, eqs_neq in H2. eauto.
Qed.

Lemma readEnvList_blank env name defaultValue :
  strings.TrimSpace (os.Getenv env name) = [] ->
  readEnvList env name defaultValue = readEnvList noenv name defaultValue.
Proof.
  intros E. unfold readEnvList. rewrite E. reflexivity.
Qed.

(** C7.  The specification asks that [readEnvList] return [nil] or a
    non-empty list.  When the variable holds a comma and nothing else,
    whatever the variable and the default, the value is not blank, every
    piece between the commas is empty and is dropped, and the result is
    the empty slice that is not [nil]. *)
Theorem readEnvList_only_comma (name defaultValue : gostring) :
  readEnvList (setenv name (str ",")) name defaultValue = Some [].
Proof.
  unfold readEnvList, os.Getenv, setenv. rewrite eqs_refl. reflexivity.
Qed.

(** What follows for the linter: with [TYPES] set to a comma, every type
    is rejected. *)
Example types_only_comma_rejects_every_type :
  LintSubject (NewLinter (setenv (str "TYPES") (str ","))) (str "feat: add")
  = Some [str "type 'feat' is not allowed. Allowed: "].
Proof. vm_compute. reflexivity. Qed.

(** C8, as the specification states it: unrestricted is an allow-list
    that is empty or absent.  With an allow-list of types that is empty
    and not [nil], the subject [feat: add] of the grammar, with no scope
    required and a description that passes checks 4 to 7, is rejected. *)
Lemma unrestricted_empty_list_counterexample :
  Grammar (str "feat: add") (str "feat") [] [] (str "add")
  /\ len (AllowedTypes (mkConfig (Some []) None false None false 72)) = 0
  /\ LintSubject (mkLinter (mkConfig (Some []) None false None false 72))
                 (str "feat: add")
     <> None.
Proof.
  split; [|split; [reflexivity|discriminate]].
  repeat split; try reflexivity; try discriminate; now left.
Qed.

(** C8, amended.  For every subject of the grammar whose type is allowed
    (the allow-list is [nil] or holds it), whose scope meets the
    requirement (none required, or present, or the type is exempt) and
    the scope allow-list (no scope, or the list is [nil] or holds it),
    and whose description, trimmed, is not empty, is at most
    [MaxSubjectLength] bytes long, does not end with a period and does
    not start with an uppercase ASCII letter unless capitals are allowed,
    [LintSubject] returns [nil].  An allow-list that is empty and not
    [nil] is not unrestricted. *)
Theorem compliant_subject_passes
    (l : Linter) (subject ctype scope bang desc : gostring) :
  Grammar subject ctype scope bang desc ->
  let cfg := Config_ l in
  let sub := strings.TrimSpace desc in
  (AllowedTypes cfg = None \/ In ctype (elems (AllowedTypes cfg))) ->
  (RequireScope cfg = false \/ scope <> []
   \/ In ctype (elems (RequireScopeExcept cfg))) ->
  (scope = [] \/ AllowedScopes cfg = None
   \/ In scope (elems (AllowedScopes cfg))) ->
  sub <> [] ->
  (Z.of_nat (List.length sub) <= MaxSubjectLength cfg)%Z ->
  (forall a, sub <> a ++ str ".") ->
  (AllowCapitalSubject cfg = true \/ inRange 65 90 (nth 0 sub zero) = false) ->
  LintSubject l subject = None.
Proof.
  intros G cfg sub H1 H2 H3 H4 H5 H6 H7.
  rewrite (LintSubject_Grammar l G). fold cfg sub.
  apply report_None, failing_nil.
  intros c Hc. unfold rules in Hc. cbn [In] in Hc.
  destruct Hc as [<-|[<-|[<-|[<-|[<-|[<-|[<-|[]]]]]]]]; cbn [fst].
  - unfold typeNotAllowed. destruct H1 as [-> | H1]; [reflexivity|].
    apply contains_In in H1. rewrite H1. apply andb_false_r.
  - unfold scopeMissing. destruct H2 as [-> | [H2 | H2]]; [reflexivity| |].
    + apply eqs_neq in H2. rewrite H2. now rewrite andb_false_r.
    + apply contains_In in H2. rewrite H2. apply andb_false_r.
  - unfold scopeNotAllowed. destruct H3 as [-> | [-> | H3]].
    + reflexivity.
    + cbn. now rewrite andb_false_r.
    + apply contains_In in H3. rewrite H3. apply andb_false_r.
  - apply eqs_neq. exact H4.
  - apply Z.ltb_ge. exact H5.
  - destruct (endsWithPeriod sub) eqn:E; [|reflexivity].
    apply endsWithPeriod_spec in E as [a E]. now apply H6 in E.
  - unfold startsUpper. destruct H7 as [-> | ->]; [reflexivity|].
    apply andb_false_r.
Qed.

Lemma compliant_subject_passes_witness :
  LintSubject (testConfig ["fix"%string] (Some [str "api"]) true false 50)
              (str "fix(api): correct a bug ")
  = None.
Proof.
  apply (@compliant_subject_passes
           (testConfig ["fix"%string] (Some [str "api"]) true false 50)
           (str "fix(api): correct a bug ") (str "fix") (str "api") []
           (str "correct a bug ")).
  - repeat split; try reflexivity; try discriminate; auto.
  - right. left. reflexivity.
  - right. left. discriminate.
  - right. right. left. reflexivity.
  - vm_compute. discriminate.
  - vm_compute. discriminate.
  - intros a E. apply (f_equal (@rev _)) in E. rewrite rev_app_distr in E.
    vm_compute in E. discriminate E.
  - right. reflexivity.
Defined.

(** * [LintSubject] in memory *)

Lemma set_length (A : Type) (l : list A) : forall i x,
  List.length (mem.set l i x) = List.length l.
Proof.
  induction l as [|y l IH]; intros [|i] x; cbn; try reflexivity.
  now rewrite IH.
Qed.

Lemma nth_set_same (A : Type) (l : list A) : forall i x d,
  i < List.length l -> nth i (mem.set l i x) d = x.
Proof.
  induction l as [|y l IH]; intros [|i] x d H; cbn in *; try lia.
  - reflexivity.
  - apply IH. lia.
Qed.

Lemma nth_set_other (A : Type) (l : list A) : forall i j x d,
  i <> j -> nth j (mem.set l i x) d = nth j l d.
Proof.
  induction l as [|y l IH]; intros [|i] [|j] x d H; cbn; try reflexivity.
  - congruence.
  - apply IH. congruence.
Qed.

Lemma firstn_set (A : Type) (l : list A) : forall i x,
  i < List.length l -> firstn (S i) (mem.set l i x) = firstn i l ++ [x].
Proof.
  induction l as [|y l IH]; intros [|i] x H; cbn in *; try lia.
  - reflexivity.
  - f_equal. apply IH. lia.
Qed.

Lemma elems_view h s : elems (mem.view h s) = mem.cells h s.
Proof. unfold mem.view, mem.cells. now destruct (mem.arr s). Qed.

Lemma cells_preserved h0 h s :
  mem.preserved h0 h -> mem.inHeap h0 s -> mem.cells h s = mem.cells h0 s.
Proof.
  intros [_ P] I. unfold mem.cells, mem.inHeap in *.
  destruct (mem.arr s) as [a|]; [|reflexivity]. now rewrite P.
Qed.

Lemma view_preserved h0 h s :
  mem.preserved h0 h -> mem.inHeap h0 s -> mem.view h s = mem.view h0 s.
Proof.
  intros P I. unfold mem.view. rewrite (@cells_preserved h0 h s P I). reflexivity.
Qed.

Lemma preserved_refl h : mem.preserved h h.
Proof. split; [lia|reflexivity]. Qed.

Lemma preserved_trans h0 h1 h2 :
  mem.preserved h0 h1 -> mem.preserved h1 h2 -> mem.preserved h0 h2.
Proof.
  intros [L1 P1] [L2 P2]. split; [lia|].
  intros a H. rewrite P2 by lia. now apply P1.
Qed.

Section AppendOwned.

Variable room : nat -> nat -> nat.

(** [append] on a slice the call owns: the elements are those before and
    the new one, the result is not [nil] and is owned, and no array older
    than the call has changed. *)
Lemma append_owned n h s x :
  n <= List.length h -> mem.owned n h s ->
  let s' := fst (mem.append room h s x) in
  let h' := snd (mem.append room h s x) in
  mem.owned n h' s'
  /\ mem.cells h' s' = mem.cells h s ++ [x]
  /\ mem.arr s' <> None
  /\ List.length h <= List.length h'
  /\ (forall a, a < n -> nth a h' [] = nth a h []).
Proof.
  intros Hn O. unfold mem.append, mem.owned, mem.cells in *.
  destruct (mem.arr s) as [a|] eqn:Ea.
  - destruct O as ((Ha1 & Ha2) & Hl & Hc).
    destruct (Nat.ltb_spec (mem.slen s) (mem.scap s)) as [R|R];
      cbn [fst snd mem.arr mem.slen mem.scap].
    + unfold mem.store. rewrite set_length.
      rewrite nth_set_same by assumption. rewrite set_length.
      repeat (match goal with |- _ /\ _ => split end);
        try lia; try discriminate.
      * apply firstn_set. lia.
      * intros b Hb. apply nth_set_other. lia.
    + rewrite length_app. cbn [List.length].
      rewrite app_nth2 by lia. rewrite Nat.sub_diag. cbn [nth].
      assert (Lc : List.length (firstn (mem.slen s) (nth a h [])) = mem.slen s)
        by (rewrite length_firstn; lia).
      repeat (match goal with |- _ /\ _ => split end);
        try lia; try discriminate.
      * rewrite length_app. cbn [List.length]. rewrite repeat_length. lia.
      * rewrite firstn_app, Lc.
        replace (S (mem.slen s) - mem.slen s) with 1 by lia.
        rewrite firstn_all2 by lia. reflexivity.
      * intros b Hb. apply app_nth1. lia.
  - destruct O as [Hl Hc]. cbn [fst snd mem.arr mem.slen mem.scap].
    rewrite length_app. cbn [List.length].
    rewrite app_nth2 by lia. rewrite Nat.sub_diag. cbn [nth].
    repeat (match goal with |- _ /\ _ => split end);
      try lia; try discriminate.
    + cbn [List.length]. rewrite repeat_length. lia.
    + reflexivity.
    + intros b Hb. apply app_nth1. lia.
Qed.

Lemma tracks_append h0 errors st x :
  mem.tracks h0 errors st ->
  mem.tracks h0 (append errors x)
             (mem.append room (snd st) (fst st) x).
Proof.
  intros (O & P & V). destruct st as [s h]. cbn [fst snd] in *.
  destruct P as [PL PA].
  destruct (@append_owned (List.length h0) h s x PL O)
    as (O' & C' & N' & L' & F').
  unfold mem.tracks. split; [exact O'|]. split.
  - split; [lia|]. intros a Ha. rewrite F' by exact Ha. now apply PA.
  - unfold append. rewrite <- V, elems_view, <- C'.
    unfold mem.view. destruct (mem.arr (fst (mem.append room h s x)));
      [reflexivity|congruence].
Qed.

(** One statement of [LintSubject]: the condition and the message read
    from memory are those read from the values. *)
Lemma tracks_appendIf h0 errors st (b b' : bool) (x x' : gostring) :
  mem.tracks h0 errors st -> b = b' -> x = x' ->
  mem.tracks h0 (if b' then append errors x' else errors)
             (mem.appendIf room b st x).
Proof.
  intros T <- <-. unfold mem.appendIf. destruct b; [|exact T].
  now apply tracks_append.
Qed.

End AppendOwned.

Lemma notNil_view h s : notNil (mem.view h s) = mem.notNil s.
Proof. unfold mem.view, mem.notNil. now destruct (mem.arr s). Qed.

Lemma contains_in_memory h0 errors st s item :
  mem.tracks h0 errors st -> mem.inHeap h0 s ->
  mem.contains (snd st) s item = contains (mem.view h0 s) item.
Proof.
  intros (_ & P & _) I. unfold mem.contains, contains.
  now rewrite elems_view, (@cells_preserved h0 (snd st) s P I).
Qed.

Lemma Join_in_memory h0 errors st s sep :
  mem.tracks h0 errors st -> mem.inHeap h0 s ->
  strings.Join (mem.cells (snd st) s) sep
  = strings.Join (elems (mem.view h0 s)) sep.
Proof.
  intros (_ & P & _) I.
  now rewrite elems_view, (@cells_preserved h0 (snd st) s P I).
Qed.

Lemma tracks_start h0 : mem.tracks h0 None (mem.nilSlice, h0).
Proof.
  split; [|split]; cbn.
  - split; reflexivity.
  - apply preserved_refl.
  - reflexivity.
Qed.

Lemma tracks_inHeap h0 errors s h :
  mem.tracks h0 errors (s, h) -> mem.inHeap h s.
Proof.
  intros (O & _). cbn in O. unfold mem.owned, mem.inHeap in *.
  destruct (mem.arr s); [lia|exact I].
Qed.

Lemma tracks_len h0 errors s h :
  mem.tracks h0 errors (s, h) -> mem.slen s = len errors.
Proof.
  intros (O & _ & V). cbn in O, V. subst errors. unfold len.
  rewrite elems_view. unfold mem.owned, mem.cells in *.
  destruct (mem.arr s).
  - rewrite length_firstn. lia.
  - cbn. lia.
Qed.

Section Run.

Variable room : nat -> nat -> nat.

Ltac step S st :=
  match goal with
  | |- context [mem.appendIf room ?b ?st0 ?x] =>
      match st0 with
      | context [mem.appendIf] => fail 1
      | _ => set (st := mem.appendIf room b st0 x) in *
      end
  end.

(** A call of [LintSubject] in memory does not panic when its [Config]
    is there; it changes no array that was in memory and returns a slice
    whose value is what [LintSubject] gives for the value of the
    configuration. *)
Lemma LintSubject_in_memory w l subject cfg :
  nth_error (mem.configs w) (mem.ConfigP l) = Some cfg ->
  mem.allocated (mem.arrays w) cfg ->
  exists r h',
    mem.LintSubject room w l subject
    = Some (r, mem.mkWorld h' (mem.configs w))
    /\ mem.preserved (mem.arrays w) h'
    /\ mem.inHeap h' r
    /\ mem.view h' r
       = LintSubject (mkLinter (configOf (mem.arrays w) cfg)) subject.
Proof.
  intros Hcfg (A1 & A2 & A3).
  set (h0 := mem.arrays w) in *.
  pose proof (tracks_start h0) as S0.
  unfold mem.LintSubject.
  destruct (regexp.FindStringSubmatch 4 subjectRe subject) as [m|] eqn:EM.
  - rewrite Hcfg. cbv zeta. fold h0.
    set (ctype := nth 1 m []). set (scope := nth 2 m []).
    set (sub := strings.TrimSpace (nth 4 m [])).
    set (C := configOf h0 cfg).
    set (st0 := (mem.nilSlice, h0)) in *.
    set (E0 := @None (list gostring)) in S0.
    set (E1 := if notNil (AllowedTypes C) && negb (contains (AllowedTypes C) ctype)
               then append E0 (str "type '" ++ ctype
                                ++ str "' is not allowed. Allowed: "
                                ++ strings.Join (elems (AllowedTypes C)) (str ", "))
               else E0).
    set (E2 := if RequireScope C && eqs scope []
                  && negb (contains (RequireScopeExcept C) ctype)
               then append E1 (str "scope is required but missing") else E1).
    set (E3 := if negb (eqs scope []) && notNil (AllowedScopes C)
                  && negb (contains (AllowedScopes C) scope)
               then append E2 (str "scope '" ++ scope
                                ++ str "' is not in allowed list: "
                                ++ strings.Join (elems (AllowedScopes C)) (str ", "))
               else E2).
    set (E4 := if eqs (strings.TrimSpace sub) []
               then append E3 (str "subject must not be empty") else E3).
    set (E5 := if (MaxSubjectLength C <? Z.of_nat (List.length sub))%Z
               then append E4 (str "subject too long ("
                                ++ fmt.d (Z.of_nat (List.length sub))
                                ++ str " > " ++ fmt.d (MaxSubjectLength C)
                                ++ str ")")
               else E4).
    set (E6 := if strings.HasSuffix sub (str ".")
               then append E5 (str "subject must not end with a period")
               else E5).
    set (E7 := if negb (AllowCapitalSubject C) && (0 <? List.length sub)%nat
                  && inRange 65 90 (nth 0 sub zero)
               then append E6 (str "subject should start lowercase (imperative mood)")
               else E6).
    assert (P : LintSubject (mkLinter C) subject
                = if (len E7 =? 0)%nat then None else E7).
    { unfold LintSubject. rewrite EM. reflexivity. }
    rewrite P. clear P.
    step S0 st1.
    assert (S1 : mem.tracks h0 E1 st1).
    { apply tracks_appendIf; [exact S0| |].
      - cbn [C configOf AllowedTypes]. rewrite notNil_view.
        now rewrite (contains_in_memory _ _ S0 A1).
      - now rewrite (Join_in_memory _ _ S0 A1). }
    step S1 st2.
    assert (S2 : mem.tracks h0 E2 st2).
    { apply tracks_appendIf; [exact S1| |reflexivity].
      cbn [C configOf RequireScope RequireScopeExcept].
      now rewrite (contains_in_memory _ _ S1 A3). }
    step S2 st3.
    assert (S3 : mem.tracks h0 E3 st3).
    { apply tracks_appendIf; [exact S2| |].
      - cbn [C configOf AllowedScopes]. rewrite notNil_view.
        now rewrite (contains_in_memory _ _ S2 A2).
      - now rewrite (Join_in_memory _ _ S2 A2). }
    step S3 st4.
    assert (S4 : mem.tracks h0 E4 st4)
      by (apply tracks_appendIf; [exact S3|reflexivity|reflexivity]).
    step S4 st5.
    assert (S5 : mem.tracks h0 E5 st5)
      by (apply tracks_appendIf; [exact S4|reflexivity|reflexivity]).
    step S5 st6.
    assert (S6 : mem.tracks h0 E6 st6)
      by (apply tracks_appendIf; [exact S5|reflexivity|reflexivity]).
    step S6 st7.
    assert (S7 : mem.tracks h0 E7 st7)
      by (apply tracks_appendIf; [exact S6|reflexivity|reflexivity]).
    clearbody st7 E7. clear - S7. destruct st7 as [errors h].
    rewrite (tracks_len S7).
    destruct (len E7 =? 0)%nat.
    + exists mem.nilSlice, h. split; [reflexivity|].
      split; [apply S7|]. split; [exact I|reflexivity].
    + exists errors, h. split; [reflexivity|].
      split; [apply S7|]. split; [exact (tracks_inHeap S7)|apply S7].
  - pose proof (tracks_append room formatMessage S0) as S1.
    cbn [fst snd] in S1. fold h0.
    destruct (mem.append room h0 mem.nilSlice formatMessage) as [errors h].
    exists errors, h. split; [reflexivity|].
    split; [apply S1|]. split; [exact (tracks_inHeap S1)|].
    destruct S1 as (_ & _ & V). cbn [fst snd] in V. rewrite V.
    unfold LintSubject. rewrite EM. reflexivity.
Qed.

End Run.

(** C9.  [LintSubject] is deterministic and pure.  Run in memory, with
    the arrays behind the slices, the [Config] behind the pointer of the
    receiver and [append] as Go has it, a call does not panic when the
    [Config] is there, changes no array that was in memory and no
    [Config], and returns a slice whose value is a function of the
    subject and of the value of the configuration, and of nothing else in
    memory.  A second evaluation, in the memory the first one left,
    returns the same list, and leaves the list of the first as it was. *)
Theorem LintSubject_pure
    (room : nat -> nat -> nat) (w : mem.World) (l : mem.Linter)
    (subject : gostring) (cfg : mem.Config) :
  nth_error (mem.configs w) (mem.ConfigP l) = Some cfg ->
  mem.allocated (mem.arrays w) cfg ->
  exists r1 w1 r2 w2,
    mem.LintSubject room w l subject = Some (r1, w1)
    /\ mem.LintSubject room w1 l subject = Some (r2, w2)
    /\ mem.view (mem.arrays w1) r1
       = LintSubject (mkLinter (configOf (mem.arrays w) cfg)) subject
    /\ mem.view (mem.arrays w2) r2 = mem.view (mem.arrays w1) r1
    /\ mem.view (mem.arrays w2) r1 = mem.view (mem.arrays w1) r1
    /\ mem.configs w1 = mem.configs w
    /\ mem.configs w2 = mem.configs w
    /\ mem.preserved (mem.arrays w) (mem.arrays w1)
    /\ mem.preserved (mem.arrays w1) (mem.arrays w2).
Proof.
  intros Hcfg A.
  destruct (@LintSubject_in_memory room w l subject cfg Hcfg A)
    as (r1 & h1 & R1 & P1 & I1 & V1).
  set (w1 := mem.mkWorld h1 (mem.configs w)) in *.
  assert (A' : mem.allocated (mem.arrays w1) cfg).
  { destruct P1 as [L _]. destruct A as (A1 & A2 & A3).
    unfold mem.allocated, mem.inHeap in *. cbn [w1 mem.arrays].
    destruct (mem.arr (mem.AllowedTypes cfg)),
      (mem.arr (mem.AllowedScopes cfg)),
      (mem.arr (mem.RequireScopeExcept cfg)); repeat split; lia || exact I. }
  destruct (@LintSubject_in_memory room w1 l subject cfg Hcfg A')
    as (r2 & h2 & R2 & P2 & I2 & V2).
  cbn [w1 mem.arrays mem.configs] in R2, P2, V2.
  exists r1, w1, r2, (mem.mkWorld h2 (mem.configs w)).
  cbn [w1 mem.arrays mem.configs].
  repeat (match goal with |- _ /\ _ => split end);
    try assumption; try reflexivity.
  - rewrite V2, V1. destruct A as (A1 & A2 & A3). unfold configOf.
    now rewrite !(@view_preserved (mem.arrays w) h1) by assumption.
  - now apply view_preserved.
Qed.

Lemma LintSubject_pure_witness :
  exists r1 w1 r2 w2,
    mem.LintSubject (fun c _ => c)
      (mem.mkWorld [[str "feat"; str "fix"; []]]
         [mem.mkConfig (mem.mkSlice (Some 0) 2 3) mem.nilSlice false
                       mem.nilSlice false 72])
      (mem.mkLinter 0) (str "docs: Add.")
    = Some (r1, w1)
    /\ mem.LintSubject (fun c _ => c) w1 (mem.mkLinter 0) (str "docs: Add.")
       = Some (r2, w2)
    /\ mem.view (mem.arrays w1) r1
       = Some [str "type 'docs' is not allowed. Allowed: feat, fix";
               str "subject must not end with a period";
               str "subject should start lowercase (imperative mood)"]
    /\ mem.view (mem.arrays w2) r2 = mem.view (mem.arrays w1) r1
    /\ mem.view (mem.arrays w2) r1 = mem.view (mem.arrays w1) r1
    /\ nth 0 (mem.arrays w2) [] = [str "feat"; str "fix"; []].
Proof.
  destruct (@LintSubject_pure (fun c _ => c)
              (mem.mkWorld [[str "feat"; str "fix"; []]]
                 [mem.mkConfig (mem.mkSlice (Some 0) 2 3) mem.nilSlice false
                               mem.nilSlice false 72])
              (mem.mkLinter 0) (str "docs: Add.")
              (mem.mkConfig (mem.mkSlice (Some 0) 2 3) mem.nilSlice false
                            mem.nilSlice false 72))
    as (r1 & w1 & r2 & w2 & H1 & H2 & H3 & H4 & H5 & _ & _ & P1 & P2).
  - reflexivity.
  - repeat split; cbn; lia.
  - exists r1, w1, r2, w2.
    repeat (match goal with |- _ /\ _ => split end); try assumption.
    destruct P1 as [L1 Q1], P2 as [L2 Q2]. cbn [mem.arrays List.length] in *.
    rewrite Q2 by lia. now rewrite Q1 by lia.
Defined.

(** C10.  The breaking-change marker has no effect: for every
    configuration and every subject of the grammar that carries the
    exclamation mark, [LintSubject] returns for the subject without the
    mark the list it returns for the subject. *)
Theorem breaking_marker_ignored
    (l : Linter) (subject ctype scope desc : gostring) :
  Grammar subject ctype scope (str "!") desc ->
  LintSubject l (ctype ++ scopePart scope ++ str ": " ++ desc)
  = LintSubject l subject.
Proof.
  intros G. rewrite (LintSubject_Grammar l G).
  apply LintSubject_Grammar with (bang := []).
  destruct G as (_ & H1 & H2 & H3 & _ & H5).
  repeat split; try assumption. now left.
Qed.

Lemma breaking_marker_ignored_witness :
  LintSubject (testConfig ["feat"%string] None false false 10)
              (str "refactor(parser): Simplify the logic.")
  = LintSubject (testConfig ["feat"%string] None false false 10)
                (str "refactor(parser)!: Simplify the logic.").
Proof.
  apply (@breaking_marker_ignored
           (testConfig ["feat"%string] None false false 10)
           (str "refactor(parser)!: Simplify the logic.")
           (str "refactor") (str "parser") (str "Simplify the logic.")).
  repeat split; try reflexivity; try discriminate; auto.
Defined.

(** * [TrimSpace] returns a trimmed string

    The result of [TrimSpace] starts and ends with a rune that is not
    white space, and such a string is left as it is: trimming twice is
    trimming once. *)

(** *** Bytes that start a rune *)

Lemma RuneStart_false_first b :
  utf8.RuneStart b = false -> utf8.first (code b) = 0xF1%N.
Proof. bytes b. Qed.

Lemma RuneStart_outside b :
  utf8.RuneStart b = true ->
  ((code b <? 0x80) || (0xBF <? code b))%N = true.
Proof. bytes b. Qed.

Lemma first_ascii n : utf8.first n = 0xF0%N -> (n <? 0x80)%N = true.
Proof.
  unfold utf8.first.
  repeat match goal with
         | |- context [if ?c then _ else _] => destruct c eqn:?
         end; try discriminate; reflexivity.
Qed.

(** The second byte of a sequence is accepted only among the
    continuation bytes. *)
Lemma accept_bounds n :
  let x := utf8.first n in
  (0xF0 <=? x)%N = true
  \/ (0x80 <= fst (utf8.acceptRanges (N.shiftr x 4)))%N
     /\ (snd (utf8.acceptRanges (N.shiftr x 4)) <= 0xBF)%N.
Proof.
  unfold utf8.first.
  repeat match goal with
         | |- context [if ?c then _ else _] => destruct c
         end; cbv zeta; vm_compute; (left; reflexivity) || (right; split; discriminate).
Qed.

Lemma dec_space_RuneStart b t :
  unicode.IsSpace (fst (dec (b :: t))) = true -> utf8.RuneStart b = true.
Proof.
  destruct (utf8.RuneStart b) eqn:E; [reflexivity|].
  apply RuneStart_false_first in E. unfold dec. rewrite E. cbn. discriminate.
Qed.

(** A byte outside ASCII followed by a byte that starts a rune, or by
    nothing, decodes with width 1. *)
Lemma dec_high_width1 b rest :
  match rest with [] => True | c :: _ => utf8.RuneStart c = true end ->
  snd (dec (b :: rest)) = 1.
Proof.
  intros Hr. unfold dec.
  destruct (accept_bounds (code b)) as [H|[H1 H2]]; cbv zeta in *.
  - rewrite H. now destruct (_ =? _)%N.
  - destruct (0xF0 <=? _)%N; [now destruct (_ =? _)%N|].
    destruct (_ <? _); [reflexivity|].
    destruct rest as [|c r]; [reflexivity|].
    apply RuneStart_outside in Hr.
    set (acc := utf8.acceptRanges _) in *.
    assert (E : ((code c <? fst acc) || (snd acc <? code c))%N = true).
    { apply orb_true_iff in Hr as [Hr|Hr]; apply N.ltb_lt in Hr;
        apply orb_true_iff; [left|right]; apply N.ltb_lt; lia. }
    now rewrite E.
Qed.

(** A rune decoded from two or more bytes is decoded the same whatever
    follows it. *)
Lemma dec_app_full w rest : 2 <= snd (dec w) -> dec (w ++ rest) = dec w.
Proof.
  destruct w as [|c0 t]; [cbn; lia|].
  cbn [app]. unfold dec.
  set (x := utf8.first (code c0)).
  destruct (0xF0 <=? x)%N; [destruct (x =? 0xF0)%N; cbn; lia|].
  set (sz := N.to_nat (N.land x 7)).
  set (acc := utf8.acceptRanges (N.shiftr x 4)).
  cbn [List.length]. rewrite length_app.
  destruct (S (List.length t) <? sz) eqn:E1; [cbn; lia|].
  apply Nat.ltb_ge in E1.
  destruct (S (List.length t + List.length rest) <? sz) eqn:E2;
    [apply Nat.ltb_lt in E2; lia|].
  destruct t as [|c1 t1]; [cbn; lia|]. cbn [app].
  destruct ((code c1 <? fst acc)%N || (snd acc <? code c1)%N); [cbn; lia|].
  destruct (sz <=? 2) eqn:E3; [reflexivity|]. apply Nat.leb_gt in E3.
  destruct t1 as [|c2 t2]; [cbn; lia|]. cbn [app].
  destruct ((code c2 <? utf8.locb)%N || (utf8.hicb <? code c2)%N); [cbn; lia|].
  destruct (sz <=? 3) eqn:E4; [reflexivity|]. apply Nat.leb_gt in E4.
  destruct t2 as [|c3 t3]; [cbn; lia|]. reflexivity.
Qed.

Lemma skipn_firstn_app (z : gostring) i e :
  i <= e <= List.length z -> skipn i (firstn e z) ++ skipn e z = skipn i z.
Proof.
  intros H. rewrite <- (firstn_skipn e z) at 3.
  rewrite skipn_app.
  replace (i - List.length (firstn e z)) with 0.
  - reflexivity.
  - rewrite length_firstn. lia.
Qed.

Lemma skipn_cons_nth (z : gostring) i :
  i < List.length z -> skipn i z = nth i z zero :: skipn (S i) z.
Proof.
  revert i. induction z as [|b z IH]; intros i H; [cbn in H; lia|].
  destruct i as [|i]; [reflexivity|]. cbn [skipn nth]. apply IH. cbn in H. lia.
Qed.

(** *** The backward scan stops after a rune that is not white space *)

Lemma firstn_nonempty (z : gostring) e :
  1 <= e <= List.length z -> firstn e z <> [].
Proof.
  intros H E. apply (f_equal (@List.length _)) in E.
  rewrite length_firstn in E. cbn in E. lia.
Qed.

Lemma lastIndexFunc_loop_trail z n :
  forall e : Z,
    (0 <= e <= Z.of_nat (List.length z))%Z -> Z.to_nat e <= n ->
    startsRune z (Z.to_nat e) ->
    let i := strings.lastIndexFunc_loop unicode.IsSpace false n e z in
    i = (-1)%Z
    \/ exists e' r size,
         (1 <= e' <= Z.of_nat (List.length z))%Z
         /\ i = (e' - Z.of_nat size)%Z
         /\ decl (firstn (Z.to_nat e') z) = (r, size)
         /\ unicode.IsSpace r = false
         /\ startsRune z (Z.to_nat e').
Proof.
  induction n as [|n IH]; intros e He Hn Hs; cbn [strings.lastIndexFunc_loop];
    [now left|].
  destruct (Z.ltb_spec 0 e) as [Hpos|Hpos]; [|now left].
  destruct (decl (firstn (Z.to_nat e) z)) as [r size] eqn:ED.
  assert (Hne : firstn (Z.to_nat e) z <> []) by (apply firstn_nonempty; lia).
  destruct (decl_spec Hne ED) as [Hsz Hdec].
  rewrite length_firstn in Hsz, Hdec.
  replace (Nat.min (Z.to_nat e) (List.length z)) with (Z.to_nat e) in * by lia.
  destruct (Bool.eqb (unicode.IsSpace r) false) eqn:EB.
  - right. exists e, r, size. apply eqb_prop in EB. repeat split; try lia; assumption.
  - assert (Hsp : unicode.IsSpace r = true)
      by (destruct (unicode.IsSpace r); [reflexivity|discriminate]).
    apply IH; [lia|lia|].
    unfold startsRune.
    replace (Z.to_nat (e - Z.of_nat size)) with (Z.to_nat e - size) by lia.
    rewrite <- (@skipn_firstn_app z (Z.to_nat e - size) (Z.to_nat e)) by lia.
    destruct (skipn (Z.to_nat e - size) (firstn (Z.to_nat e) z)) as [|b t] eqn:E.
    + apply (f_equal (@List.length _)) in E.
      rewrite length_skipn, length_firstn in E. cbn in E. lia.
    + cbn [app]. apply (@dec_space_RuneStart b t). now rewrite Hdec.
Qed.

Lemma trailOk_TrimRightFunc z : trailOk (strings.TrimRightFunc z unicode.IsSpace).
Proof.
  unfold strings.TrimRightFunc, strings.lastIndexFunc.
  destruct (@lastIndexFunc_loop_trail z (List.length z)
              (Z.of_nat (List.length z))) as [H|H].
  - lia.
  - lia.
  - unfold startsRune. rewrite Nat2Z.id, skipn_all. exact I.
  - rewrite H. exact I.
  - destruct H as (e' & r & size & He & Hi & ED & Hr & Hs).
    set (i := strings.lastIndexFunc_loop _ _ _ _ _) in *.
    assert (Hne : firstn (Z.to_nat e') z <> []) by (apply firstn_nonempty; lia).
    destruct (decl_spec Hne ED) as [Hsz Hdec].
    rewrite length_firstn in Hsz, Hdec.
    replace (Nat.min (Z.to_nat e') (List.length z)) with (Z.to_nat e') in * by lia.
    replace (Z.to_nat e' - size) with (Z.to_nat i) in Hdec by lia.
    assert (Happ : skipn (Z.to_nat i) (firstn (Z.to_nat e') z)
                   ++ skipn (Z.to_nat e') z = skipn (Z.to_nat i) z)
      by (apply skipn_firstn_app; lia).
    assert (Hlen : List.length (skipn (Z.to_nat i) (firstn (Z.to_nat e') z)) = size)
      by (rewrite length_skipn, length_firstn; lia).
    destruct (skipn (Z.to_nat i) (firstn (Z.to_nat e') z)) as [|b t] eqn:Ew;
      [cbn in Hlen; lia|].
    assert (Hnth : nth (Z.to_nat i) z zero = b).
    { rewrite <- (firstn_skipn (Z.to_nat i) z) at 1.
      rewrite app_nth2; rewrite length_firstn; [|lia].
      replace (Z.to_nat i - Nat.min (Z.to_nat i) (List.length z)) with 0 by lia.
      rewrite <- Happ. reflexivity. }
    assert (Hfin : (if (0 <=? i)%Z && (utf8.RuneSelf <=? code (nth (Z.to_nat i) z zero))%N
                    then let '(_, wid) := dec (skipn (Z.to_nat i) z) in
                         (i + Z.of_nat wid)%Z
                    else (i + 1)%Z) = e').
    { rewrite Hnth, <- Happ.
      destruct (Z.leb_spec 0 i); [|lia]. cbn [andb].
      destruct (N.leb_spec utf8.RuneSelf (code b)) as [Hb|Hb].
      - destruct (Nat.le_gt_cases 2 size) as [H2|H2].
        + rewrite dec_app_full by (rewrite Hdec; exact H2).
          rewrite Hdec. lia.
        + assert (Hs1 : size = 1) by lia.
          destruct t; [|cbn in Hlen; lia]. cbn [app].
          pose proof (@dec_high_width1 b (skipn (Z.to_nat e') z) Hs) as Hw.
          destruct (dec (b :: skipn (Z.to_nat e') z)) as [r' wid].
          cbn [snd] in Hw. lia.
      - rewrite dec_ascii in Hdec by (apply N.ltb_lt; exact Hb).
        injection Hdec as _ <-. lia. }
    rewrite Hfin.
    destruct (firstn (Z.to_nat e') z) eqn:E; [exact I|].
    unfold trailOk. rewrite ED. exact Hr.
Qed.

(** *** [TrimSpace] *)

Lemma trailOk_ascii (y : gostring) :
  y <> [] ->
  (code (nth (List.length y - 1) y zero) <? utf8.RuneSelf)%N = true ->
  strings.asciiSpace (nth (List.length y - 1) y zero) = false ->
  trailOk y.
Proof.
  intros Hy H1 H2. destruct y as [|c t] eqn:E; [congruence|].
  unfold trailOk. rewrite decl_ascii by assumption. cbn [fst].
  now rewrite IsSpace_ascii.
Qed.

Lemma trailOk_ascii_inv (y : gostring) :
  y <> [] ->
  (code (nth (List.length y - 1) y zero) <? utf8.RuneSelf)%N = true ->
  trailOk y ->
  strings.asciiSpace (nth (List.length y - 1) y zero) = false.
Proof.
  intros Hy H1 H. destruct y as [|c t] eqn:E; [congruence|].
  unfold trailOk in H. rewrite decl_ascii in H by assumption. cbn [fst] in H.
  now rewrite IsSpace_ascii in H.
Qed.

Lemma trailOk_trimStop x stop :
  stop <= List.length x -> trailOk (strings.trimStop x stop).
Proof.
  induction stop as [|stop IH]; intros H; cbn [strings.trimStop]; [exact I|].
  destruct (N.leb_spec utf8.RuneSelf (code (nth stop x zero))) as [Hc|Hc].
  - apply trailOk_TrimRightFunc.
  - destruct (strings.asciiSpace (nth stop x zero)) eqn:E; [apply IH; lia|].
    assert (L : List.length (firstn (S stop) x) = S stop)
      by (rewrite length_firstn; lia).
    assert (N : nth stop (firstn (S stop) x) zero = nth stop x zero).
    { rewrite <- (firstn_skipn (S stop) x) at 2.
      rewrite app_nth1 by lia. reflexivity. }
    apply trailOk_ascii.
    + apply firstn_nonempty. lia.
    + rewrite L. replace (S stop - 1) with stop by lia. rewrite N.
      now apply N.ltb_lt.
    + rewrite L. replace (S stop - 1) with stop by lia. now rewrite N.
Qed.

Lemma trailOk_TrimSpace x : trailOk (strings.TrimSpace x).
Proof.
  induction x as [|c x IH]; cbn [strings.TrimSpace]; [exact I|].
  destruct (utf8.RuneSelf <=? code c)%N.
  - apply trailOk_TrimRightFunc.
  - destruct (strings.asciiSpace c); [exact IH|].
    apply trailOk_trimStop. lia.
Qed.

Lemma TrimRightFunc_trail y :
  y <> [] -> trailOk y -> strings.TrimRightFunc y unicode.IsSpace = y.
Proof.
  intros Hy Ht. unfold strings.TrimRightFunc, strings.lastIndexFunc.
  assert (Hlen : 1 <= List.length y) by (destruct y; [congruence|cbn; lia]).
  destruct (List.length y) as [|n] eqn:EL; [lia|].
  cbn [strings.lastIndexFunc_loop].
  destruct (Z.ltb_spec 0 (Z.of_nat (S n))); [|lia].
  rewrite Nat2Z.id, <- EL, firstn_all.
  destruct (decl y) as [r size] eqn:ED.
  destruct (decl_spec Hy ED) as [Hsz Hdec].
  assert (Hr : unicode.IsSpace r = false).
  { destruct y; [congruence|]. unfold trailOk in Ht. now rewrite ED in Ht. }
  rewrite Hr. cbn [Bool.eqb].
  rewrite EL in *.
  set (i := (Z.of_nat (S n) - Z.of_nat size)%Z).
  replace (S n - size) with (Z.to_nat i) in Hdec by lia.
  assert (Hi : Z.to_nat i < List.length y) by lia.
  rewrite (skipn_cons_nth y Hi) in Hdec.
  assert (E : (if (0 <=? i)%Z && (utf8.RuneSelf <=? code (nth (Z.to_nat i) y zero))%N
               then let '(_, wid) := dec (skipn (Z.to_nat i) y) in
                    (i + Z.of_nat wid)%Z
               else (i + 1)%Z) = Z.of_nat (List.length y)).
  { destruct (Z.leb_spec 0 i); [|lia]. cbn [andb].
    destruct (N.leb_spec utf8.RuneSelf (code (nth (Z.to_nat i) y zero))) as [Hb|Hb].
    - rewrite (skipn_cons_nth y Hi), Hdec. lia.
    - rewrite dec_ascii in Hdec by (apply N.ltb_lt; exact Hb).
      injection Hdec as _ <-. lia. }
  rewrite E, Nat2Z.id. apply firstn_all.
Qed.

(** A string that starts and ends with a rune that is not white space is
    left as it is. *)
Lemma TrimSpace_fixed y : leadOk y -> trailOk y -> strings.TrimSpace y = y.
Proof.
  destruct y as [|c t]; [reflexivity|]. intros Hl Ht.
  cbn [strings.TrimSpace].
  destruct (N.leb_spec utf8.RuneSelf (code c)) as [Hc|Hc].
  - unfold strings.TrimFunc.
    rewrite TrimLeftFunc_lead by (discriminate || assumption).
    apply TrimRightFunc_trail; [discriminate|assumption].
  - apply N.ltb_lt in Hc. rewrite (leadOk_ascii_inv Hc Hl).
    cbn [List.length strings.trimStop].
    destruct (N.leb_spec utf8.RuneSelf (code (nth (List.length t) (c :: t) zero)))
      as [Hd|Hd].
    + change (firstn (S (List.length t)) (c :: t))
        with (firstn (List.length (c :: t)) (c :: t)).
      rewrite firstn_all. apply TrimRightFunc_trail; [discriminate|assumption].
    + assert (Hs : strings.asciiSpace (nth (List.length t) (c :: t) zero) = false).
      { pose proof (@trailOk_ascii_inv (c :: t)) as K. cbn [List.length] in K.
        replace (S (List.length t) - 1) with (List.length t) in K by lia.
        apply K; [discriminate| |assumption]. now apply N.ltb_lt. }
      rewrite Hs.
      change (firstn (S (List.length t)) (c :: t))
        with (firstn (List.length (c :: t)) (c :: t)).
      apply firstn_all.
Qed.

(** Trimming twice is trimming once. *)
Lemma TrimSpace_idempotent x :
  strings.TrimSpace (strings.TrimSpace x) = strings.TrimSpace x.
Proof. apply TrimSpace_fixed; [apply leadOk_TrimSpace|apply trailOk_TrimSpace]. Qed.

(** * A blank string ends with white space

    When [TrimSpace] leaves nothing of a string, the string appended to
    anything that ends with an ASCII space ends with a white-space rune. *)

Lemma cont_not_start c :
  ((0x80 <=? code c) && (code c <=? 0xBF))%N = true -> utf8.RuneStart c = false.
Proof. bytes c. Qed.

Lemma dec_size_le s : snd (dec s) <= List.length s.
Proof.
  destruct s as [|c0 t]; [cbn; lia|]. unfold dec.
  repeat match goal with
         | |- context [if ?c then _ else _] => destruct c
         | |- context [match ?l with [] => _ | _ :: _ => _ end] => destruct l
         end; cbn [snd List.length]; lia.
Qed.

Lemma nth_app_plus (a w : gostring) k : nth (List.length a + k) (a ++ w) zero = nth k w zero.
Proof. apply app_nth2_plus. Qed.

(** The last rune of a string that ends with a whole sequence of two to
    four bytes, a byte that starts a rune and continuation bytes. *)
Lemma decl_multi a c0 t r :
  1 <= List.length t <= 3 ->
  dec (c0 :: t) = (r, S (List.length t)) ->
  utf8.RuneStart c0 = true ->
  Forall (fun c => ((0x80 <=? code c) && (code c <=? 0xBF))%N = true) t ->
  decl (a ++ c0 :: t) = (r, S (List.length t)).
Proof.
  intros Hl Hd H0 Ht.
  assert (Hcont : forall k, k < List.length t ->
            utf8.RuneStart (nth (List.length a + S k) (a ++ c0 :: t) zero) = false
            /\ (code (nth (List.length a + S k) (a ++ c0 :: t) zero) <? utf8.RuneSelf)%N
               = false).
  { intros k Hk. rewrite nth_app_plus. cbn [nth].
    rewrite Forall_forall in Ht.
    assert (Hin : In (nth k t zero) t) by (apply nth_In; exact Hk).
    specialize (Ht _ Hin). split; [now apply cont_not_start|].
    apply andb_true_iff in Ht as [Ht _]. apply N.leb_le in Ht.
    apply N.ltb_ge. exact Ht. }
  assert (Hhd : utf8.RuneStart (nth (List.length a + 0) (a ++ c0 :: t) zero) = true)
    by (rewrite nth_app_plus; exact H0).
  assert (Hskip : skipn (List.length a) (a ++ c0 :: t) = c0 :: t).
  { rewrite skipn_app, skipn_all, Nat.sub_diag. reflexivity. }
  unfold decl. cbv zeta.
  rewrite length_app. cbn [List.length].
  set (la := List.length a) in *. set (lt := List.length t) in *.
  destruct (Z.eqb_spec (Z.of_nat (la + S lt)) 0) as [E0|E0]; [lia|].
  replace (Z.to_nat (Z.of_nat (la + S lt) - 1)) with (la + S (lt - 1)) by lia.
  destruct (Hcont (lt - 1)) as [_ Hlast]; [lia|]. rewrite Hlast.
  unfold utf8.UTFMax.
  set (lim := if (Z.of_nat (la + S lt) - Z.of_nat 4 <? 0)%Z then 0%Z
              else (Z.of_nat (la + S lt) - Z.of_nat 4)%Z).
  assert (Hlim : (0 <= lim <= Z.of_nat la)%Z).
  { unfold lim. destruct (Z.ltb_spec (Z.of_nat (la + S lt) - Z.of_nat 4) 0); lia. }
  assert (Hseek : utf8.seekStart (a ++ c0 :: t) 4
                    (Z.of_nat (la + S lt) - 1 - 1) lim = Z.of_nat la).
  { assert (Hstep : forall k m, k < lt ->
              utf8.seekStart (a ++ c0 :: t) (S m) (Z.of_nat (la + S k)) lim
              = utf8.seekStart (a ++ c0 :: t) m (Z.of_nat (la + k)) lim).
    { intros k m Hk. cbn [utf8.seekStart].
      destruct (Z.ltb_spec (Z.of_nat (la + S k)) lim); [lia|].
      rewrite Nat2Z.id. destruct (Hcont k Hk) as [-> _].
      f_equal. lia. }
    assert (Hend : forall m,
              utf8.seekStart (a ++ c0 :: t) (S m) (Z.of_nat (la + 0)) lim
              = Z.of_nat la).
    { intros m. cbn [utf8.seekStart].
      destruct (Z.ltb_spec (Z.of_nat (la + 0)) lim); [lia|].
      rewrite Nat2Z.id, Hhd. lia. }
    replace (Z.of_nat (la + S lt) - 1 - 1)%Z with (Z.of_nat (la + (lt - 1))) by lia.
    destruct lt as [|[|[|[|lt']]]]; try lia; cbn [Nat.sub].
    - apply Hend.
    - rewrite Hstep by lia. apply Hend.
    - rewrite !Hstep by lia. apply Hend. }
  rewrite Hseek.
  destruct (Z.ltb_spec (Z.of_nat la) lim); [lia|].
  rewrite Nat2Z.id, Hskip, Hd.
  destruct (Z.eqb_spec (Z.of_nat la + Z.of_nat (S lt)) (Z.of_nat (la + S lt)));
    [reflexivity|lia].
Qed.

Lemma in_range_cont lo hi c :
  (0x80 <= lo)%N -> (hi <= 0xBF)%N ->
  ((code c <? lo) || (hi <? code c))%N = false ->
  ((0x80 <=? code c) && (code c <=? 0xBF))%N = true.
Proof.
  intros H1 H2 H. apply orb_false_iff in H as [Ha Hb].
  apply N.ltb_ge in Ha, Hb. apply andb_true_iff.
  split; apply N.leb_le; lia.
Qed.

(** A rune decoded from all of two or more bytes: the bytes after the
    first are continuation bytes, and there are at most three. *)
Lemma dec_whole_conts c0 t r :
  1 <= List.length t -> dec (c0 :: t) = (r, S (List.length t)) ->
  List.length t <= 3
  /\ Forall (fun c => ((0x80 <=? code c) && (code c <=? 0xBF))%N = true) t.
Proof.
  intros Hl. unfold dec.
  destruct (accept_bounds (code c0)) as [H|[B1 B2]]; cbv zeta in *.
  { rewrite H. destruct (_ =? _)%N; intros E; injection E as _ E; lia. }
  destruct (0xF0 <=? _)%N.
  { destruct (_ =? _)%N; intros E; injection E as _ E; lia. }
  set (acc := utf8.acceptRanges _) in *.
  destruct (_ <? _); [intros E; injection E as _ E; lia|].
  destruct t as [|c1 t1]; [cbn in Hl; lia|].
  destruct ((code c1 <? fst acc)%N || (snd acc <? code c1)%N) eqn:E1;
    [intros E; injection E as _ E; cbn in E; lia|].
  pose proof (in_range_cont _ B1 B2 E1) as C1.
  destruct (_ <=? 2).
  { intros E. injection E as _ E. cbn in E.
    destruct t1; [|cbn in E; lia]. split; [cbn; lia|]. now constructor. }
  destruct t1 as [|c2 t2]; [intros E; injection E as _ E; cbn in E; lia|].
  destruct ((code c2 <? utf8.locb)%N || (utf8.hicb <? code c2)%N) eqn:E2;
    [intros E; injection E as _ E; cbn in E; lia|].
  assert (C2 : ((0x80 <=? code c2) && (code c2 <=? 0xBF))%N = true)
    by (apply (in_range_cont (lo := utf8.locb) (hi := utf8.hicb));
        [vm_compute; discriminate|vm_compute; discriminate|exact E2]).
  destruct (_ <=? 3).
  { intros E. injection E as _ E. cbn in E.
    destruct t2; [|cbn in E; lia]. split; [cbn; lia|]. now repeat constructor. }
  destruct t2 as [|c3 t3]; [intros E; injection E as _ E; cbn in E; lia|].
  destruct ((code c3 <? utf8.locb)%N || (utf8.hicb <? code c3)%N) eqn:E3;
    [intros E; injection E as _ E; cbn in E; lia|].
  assert (C3 : ((0x80 <=? code c3) && (code c3 <=? 0xBF))%N = true)
    by (apply (in_range_cont (lo := utf8.locb) (hi := utf8.hicb));
        [vm_compute; discriminate|vm_compute; discriminate|exact E3]).
  intros E. injection E as _ E. cbn in E.
  destruct t3; [|cbn in E; lia]. split; [cbn; lia|]. now repeat constructor.
Qed.

(** The last rune of a string that ends with the whole encoding of a
    white-space rune is that rune. *)
Lemma decl_app_space a w r :
  dec w = (r, List.length w) -> unicode.IsSpace r = true ->
  decl (a ++ w) = (r, List.length w).
Proof.
  intros Hd Hr. destruct w as [|c0 t].
  { cbn in Hd. injection Hd as <-. discriminate. }
  assert (H0 : utf8.RuneStart c0 = true)
    by (apply (@dec_space_RuneStart c0 t); now rewrite Hd).
  destruct t as [|c1 t1].
  - destruct (code c0 <? utf8.RuneSelf)%N eqn:E.
    + rewrite dec_ascii in Hd by exact E. injection Hd as <-.
      assert (N : nth (List.length (a ++ [c0]) - 1) (a ++ [c0]) zero = c0).
      { rewrite length_app. cbn [List.length].
        replace (List.length a + 1 - 1) with (List.length a + 0) by lia.
        apply nth_app_plus. }
      rewrite decl_ascii; rewrite ?N; try assumption; [reflexivity|].
      now destruct a.
    + rewrite dec_single_high in Hd by exact E. injection Hd as <-. discriminate.
  - cbn [List.length] in *.
    destruct (@dec_whole_conts c0 (c1 :: t1) r) as [H3 Hc];
      [cbn; lia|exact Hd|].
    apply decl_multi; try assumption. cbn in *. lia.
Qed.

(** *** The forward scan that finds nothing *)

Lemma indexFunc_loop_found n :
  forall i s, (0 <= i)%Z ->
    let j := strings.indexFunc_loop unicode.IsSpace false n i s in
    j <> (-1)%Z -> (i <= j)%Z /\ skipn (Z.to_nat (j - i)) s <> [].
Proof.
  induction n as [|n IH]; intros i s Hi; cbn [strings.indexFunc_loop];
    [congruence|].
  destruct s as [|b s']; [congruence|].
  destruct (dec (b :: s')) as [r size] eqn:ED.
  destruct (Bool.eqb (unicode.IsSpace r) false).
  - intros _. split; [lia|]. rewrite Z.sub_diag. discriminate.
  - intros Hj.
    destruct (IH (i + Z.of_nat size)%Z (skipn size (b :: s'))) as [H1 H2];
      [lia|exact Hj|].
    split; [lia|]. rewrite skipn_skipn in H2.
    match goal with |- skipn ?a _ <> _ => replace a with
      (Z.to_nat (strings.indexFunc_loop unicode.IsSpace false n
                   (i + Z.of_nat size) (skipn size (b :: s'))
                 - (i + Z.of_nat size)) + size) by lia end.
    exact H2.
Qed.

Lemma indexFunc_loop_none n :
  forall i s, (0 <= i)%Z -> List.length s <= n -> s <> [] ->
    strings.indexFunc_loop unicode.IsSpace false n i s = (-1)%Z ->
    exists q w r,
      s = q ++ w /\ dec w = (r, List.length w) /\ unicode.IsSpace r = true.
Proof.
  induction n as [|n IH]; intros i s Hi Hn Hs.
  { destruct s; [congruence|cbn in Hn; lia]. }
  cbn [strings.indexFunc_loop].
  destruct s as [|b s']; [congruence|].
  pose proof (@dec_size_pos (b :: s') Hs) as Hpos.
  pose proof (dec_size_le (b :: s')) as Hle.
  destruct (dec (b :: s')) as [r size] eqn:ED. cbn [snd] in *.
  destruct (Bool.eqb (unicode.IsSpace r) false) eqn:EB; [intros; lia|].
  assert (Hsp : unicode.IsSpace r = true)
    by (destruct (unicode.IsSpace r); [reflexivity|discriminate]).
  intros Hj.
  destruct (skipn size (b :: s')) as [|b' s''] eqn:ES.
  - exists [], (b :: s'), r. repeat split; [|exact Hsp].
    apply (f_equal (@List.length _)) in ES. rewrite length_skipn in ES.
    cbn [List.length] in *. rewrite ED. f_equal. lia.
  - destruct (IH (i + Z.of_nat size)%Z (b' :: s'')) as (q & w & r' & E & Hd & Hr).
    + lia.
    + rewrite <- ES, length_skipn. cbn [List.length] in *. lia.
    + discriminate.
    + exact Hj.
    + exists (firstn size (b :: s') ++ q), w, r'. repeat split; try assumption.
      rewrite <- app_assoc, <- E, <- ES. symmetry. apply firstn_skipn.
Qed.

Lemma TrimLeftFunc_nil d :
  d <> [] -> strings.TrimLeftFunc d unicode.IsSpace = [] ->
  exists q w r,
    d = q ++ w /\ dec w = (r, List.length w) /\ unicode.IsSpace r = true.
Proof.
  intros Hd. unfold strings.TrimLeftFunc, strings.indexFunc.
  destruct (Z.eqb_spec (strings.indexFunc_loop unicode.IsSpace false
                          (List.length d) 0 d) (-1)) as [E|E].
  - intros _. exact (@indexFunc_loop_none (List.length d) 0%Z d
                       (Z.le_refl 0) (Nat.le_refl _) Hd E).
  - intros H. exfalso.
    destruct (@indexFunc_loop_found (List.length d) 0%Z d (Z.le_refl 0) E)
      as [_ K].
    rewrite Z.sub_0_r in K. contradiction.
Qed.

(** A string of which [TrimSpace] leaves nothing, appended to a string
    that ends with an ASCII white-space byte, ends with white space. *)
Lemma blank_tail d :
  forall q c, strings.asciiSpace c = true -> strings.TrimSpace d = [] ->
    unicode.IsSpace (fst (decl ((q ++ [c]) ++ d))) = true.
Proof.
  induction d as [|c' d IH]; intros q c Hc.
  - intros _. rewrite app_nil_r.
    pose proof (asciiSpace_low _ Hc) as Hlow.
    assert (Hlt : (code c <? utf8.RuneSelf)%N = true).
    { apply N.ltb_lt. apply N.leb_gt in Hlow. exact Hlow. }
    rewrite (@decl_app_space q [c] (code c)).
    + cbn [fst]. now rewrite IsSpace_ascii.
    + now apply dec_ascii.
    + now rewrite IsSpace_ascii.
  - cbn [strings.TrimSpace].
    destruct (N.leb_spec utf8.RuneSelf (code c')) as [Hh|Hh].
    + intros H. unfold strings.TrimFunc in H.
      destruct (strings.TrimLeftFunc (c' :: d) unicode.IsSpace) as [|x l] eqn:EL.
      * apply TrimLeftFunc_nil in EL as (q' & w & r & E & Hd & Hr);
          [|discriminate].
        rewrite E, app_assoc, (@decl_app_space ((q ++ [c]) ++ q') w r Hd Hr).
        exact Hr.
      * exfalso. revert H. apply TrimRightFunc_nonempty; [discriminate|].
        rewrite <- EL. apply leadOk_TrimLeftFunc.
    + destruct (strings.asciiSpace c') eqn:E.
      * intros H. specialize (IH (q ++ [c]) c' E H).
        now rewrite <- app_assoc in IH.
      * intros H. exfalso. revert H. cbn [List.length].
        apply trimStop_nonempty; [now apply N.ltb_lt|exact E].
Qed.

(** * Runes at a junction

    The first rune of a string is not changed by what is appended after
    a byte that starts a rune, unless it was cut short, and then it
    decodes as [RuneError]. *)

Ltac boolprops :=
  repeat match goal with
         | H : (_ <? _)%nat = true |- _ => apply Nat.ltb_lt in H
         | H : (_ <? _)%nat = false |- _ => apply Nat.ltb_ge in H
         | H : (_ <=? _)%nat = true |- _ => apply Nat.leb_le in H
         | H : (_ <=? _)%nat = false |- _ => apply Nat.leb_gt in H
         end.

Lemma first_size n : N.to_nat (N.land (utf8.first n) 7) <= 4.
Proof.
  unfold utf8.first.
  repeat match goal with
         | |- context [if ?c then _ else _] => destruct c
         end; vm_compute; lia.
Qed.

Lemma dec_app_start a c r :
  a <> [] -> utf8.RuneStart c = true ->
  dec (a ++ c :: r) = dec a \/ fst (dec (a ++ c :: r)) = utf8.RuneError.
Proof.
  intros Ha Hc. destruct a as [|c0 t]; [congruence|].
  apply RuneStart_outside in Hc.
  cbn [app]. unfold dec.
  set (x := utf8.first (code c0)).
  destruct (accept_bounds (code c0)) as [H|[B1 B2]]; fold x in H || fold x in B1, B2.
  { rewrite H. left. reflexivity. }
  destruct (0xF0 <=? x)%N eqn:Ex; [left; reflexivity|].
  pose proof (first_size (code c0)) as Hsz. fold x in Hsz.
  set (sz := N.to_nat (N.land x 7)) in *.
  set (acc := utf8.acceptRanges (N.shiftr x 4)) in *.
  assert (E1 : ((code c <? fst acc) || (snd acc <? code c))%N = true).
  { apply orb_true_iff in Hc as [Hc|Hc]; apply N.ltb_lt in Hc;
      apply orb_true_iff; [left|right]; apply N.ltb_lt; lia. }
  assert (E2 : ((code c <? utf8.locb) || (utf8.hicb <? code c))%N = true)
    by exact Hc.
  destruct t as [|c1 [|c2 [|c3 t]]]; cbn [app List.length];
    rewrite ?E1, ?E2;
    repeat match goal with
           | |- context [if ?b then _ else _] => destruct b eqn:?
           end;
    rewrite ?E1, ?E2;
    first [left; reflexivity | right; reflexivity
          | exfalso; boolprops; cbn [List.length] in *; lia
          | idtac].
Qed.

Lemma leadOk_app_start a c r :
  a <> [] -> leadOk a -> utf8.RuneStart c = true -> leadOk (a ++ c :: r).
Proof.
  intros Ha Hl Hc. destruct a as [|c0 t]; [congruence|].
  destruct (@dec_app_start (c0 :: t) c r Ha Hc) as [E|E];
    unfold leadOk in *; cbn [app] in *.
  - now rewrite E.
  - now rewrite E.
Qed.

(** * What [TrimSpace] returns is a part of its argument *)

Lemma In_firstn k (s : gostring) c : In c (firstn k s) -> In c s.
Proof.
  intros H. rewrite <- (firstn_skipn k s). apply in_or_app. now left.
Qed.

Lemma In_skipn k (s : gostring) c : In c (skipn k s) -> In c s.
Proof.
  intros H. rewrite <- (firstn_skipn k s). apply in_or_app. now right.
Qed.

Lemma TrimRightFunc_In z f c : In c (strings.TrimRightFunc z f) -> In c z.
Proof. destruct (TrimRightFunc_firstn z f) as [k ->]. apply In_firstn. Qed.

Lemma TrimLeftFunc_In z f c : In c (strings.TrimLeftFunc z f) -> In c z.
Proof.
  unfold strings.TrimLeftFunc. cbv zeta.
  destruct (_ =? _)%Z; [intros []|apply In_skipn].
Qed.

Lemma trimStop_In s stop c : In c (strings.trimStop s stop) -> In c s.
Proof.
  induction stop as [|stop IH]; cbn [strings.trimStop]; [intros []|].
  destruct (_ <=? _)%N.
  - intros H. apply TrimRightFunc_In in H. revert H. apply In_firstn.
  - destruct (strings.asciiSpace _); [exact IH|].
    change (In c (firstn (S stop) s) -> In c s). apply In_firstn.
Qed.

Lemma TrimSpace_In x c : In c (strings.TrimSpace x) -> In c x.
Proof.
  induction x as [|b x IH]; cbn [strings.TrimSpace]; [intros []|].
  destruct (_ <=? _)%N.
  - unfold strings.TrimFunc. intros H.
    apply TrimRightFunc_In, TrimLeftFunc_In in H. exact H.
  - destruct (strings.asciiSpace b).
    + intros H. right. now apply IH.
    + apply trimStop_In.
Qed.

(** A string that [TrimSpace] leaves as it is and that is not empty
    starts with a rune that is not white space. *)
Lemma trimmed_leadOk t : strings.TrimSpace t = t -> leadOk t.
Proof. intros <-. apply leadOk_TrimSpace. Qed.

(** * When a [Scanner] stops on a long line *)



Lemma cons_inj (A : Type) (a b : A) (s t : list A) :
  a :: s = b :: t -> a = b /\ s = t.
Proof. intros H. injection H as H1 H2. now split. Qed.




(** * Further properties of [LintSubject] *)

Lemma formatMessage_kind : kind formatMessage = 6.
Proof. reflexivity. Qed.

Lemma scope_checks_exclusive cfg ctype scope :
  scopeMissing cfg ctype scope && scopeNotAllowed cfg scope = false.
Proof.
  unfold scopeMissing, scopeNotAllowed.
  destruct (eqs scope []); cbn; [|now rewrite !andb_false_r].
  now rewrite andb_false_r.
Qed.

Lemma empty_excludes_period sub :
  subjectEmpty sub = true -> endsWithPeriod sub = false.
Proof. intros H. apply subjectEmpty_spec in H. now subst. Qed.

Lemma empty_excludes_upper cfg sub :
  subjectEmpty sub = true -> startsUpper cfg sub = false.
Proof.
  intros H. apply subjectEmpty_spec in H. subst. unfold startsUpper.
  cbn. now rewrite andb_false_r.
Qed.

Lemma kinds_NoDup (l : list gostring) : NoDup (map kind l) -> NoDup l.
Proof. apply NoDup_map_inv. Qed.

Lemma report_not_empty es : report es <> Some [].
Proof. destruct es; discriminate. Qed.

Lemma LintSubject_never_empty l subject : LintSubject l subject <> Some [].
Proof.
  destruct (parseSubject subject) as [m|] eqn:E.
  - apply Grammar_parse in E as (ctype & scope & bang & desc & _ & G).
    rewrite (@LintSubject_Grammar l _ _ _ _ _ G). apply report_not_empty.
  - rewrite (@LintSubject_unparsed l subject E). discriminate.
Qed.

Lemma len_LintSubject l subject :
  len (LintSubject l subject) = 0 <-> LintSubject l subject = None.
Proof.
  pose proof (LintSubject_never_empty l subject) as H.
  destruct (LintSubject l subject) as [[|e es]|]; cbn.
  - congruence.
  - split; discriminate.
  - split; reflexivity.
Qed.

(** X2.  [LintSubject] returns [nil] or a list of one to five messages,
    no two of them the same: of the seven checks, the two on the scope
    cannot both fail, and an empty description cannot end with a period
    or start with a capital. *)
Theorem LintSubject_one_to_five (l : Linter) (subject : gostring) :
  match LintSubject l subject with
  | None => True
  | Some es => 1 <= List.length es <= 5 /\ NoDup es
  end.
Proof.
  destruct (parseSubject subject) as [m|] eqn:E.
  - apply Grammar_parse in E as (ctype & scope & bang & desc & _ & G).
    rewrite (@LintSubject_Grammar l _ _ _ _ _ G).
    set (cfg := Config_ l). set (sub := strings.TrimSpace desc).
    pose proof (scope_checks_exclusive cfg ctype scope) as H23.
    pose proof (@empty_excludes_period sub) as H46.
    pose proof (@empty_excludes_upper cfg sub) as H47.
    unfold rules, failing.
    destruct (typeNotAllowed cfg ctype), (scopeMissing cfg ctype scope),
      (scopeNotAllowed cfg scope), (subjectEmpty sub), (subjectTooLong cfg sub),
      (endsWithPeriod sub), (startsUpper cfg sub);
      try discriminate H23;
      try (discriminate (H46 eq_refl)); try (discriminate (H47 eq_refl));
      cbn [filter fst map snd report List.length]; try exact I;
      (split; [lia|]); apply kinds_NoDup; cbn [map];
      rewrite ?kind_msgType, ?kind_msgScope, ?kind_msgTooLong;
      repeat (constructor; [cbn; intuition discriminate|]); constructor.
  - rewrite (@LintSubject_unparsed l subject E). cbn. split; [lia|].
    repeat constructor. intros [].
Qed.

(** X3.  The two violations on the scope are never reported together, and
    the violation for an empty description is never reported with the one
    for a final period or with the one for an initial capital. *)
Theorem exclusive_violations
    (l : Linter) (subject ctype scope bang desc : gostring) :
  Grammar subject ctype scope bang desc ->
  let out := elems (LintSubject l subject) in
  ~ (In msgScopeMissing out /\ In (msgScope (Config_ l) scope) out)
  /\ ~ (In msgEmpty out /\ In msgPeriod out)
  /\ ~ (In msgEmpty out /\ In msgUpper out).
Proof.
  intros G out. subst out.
  rewrite (@LintSubject_Grammar l _ _ _ _ _ G), elems_report.
  destruct (fires (Config_ l) ctype scope (strings.TrimSpace desc))
    as (_ & F2 & F3 & F4 & _ & F6 & F7).
  repeat split; intros [A B].
  - apply F2 in A. apply F3 in B.
    pose proof (scope_checks_exclusive (Config_ l) ctype scope) as H.
    rewrite A, B in H. discriminate.
  - apply F4 in A. apply F6 in B.
    rewrite (empty_excludes_period _ A) in B. discriminate.
  - apply F4 in A. apply F7 in B.
    rewrite (empty_excludes_upper (Config_ l) _ A) in B. discriminate.
Qed.

Lemma exclusive_violations_witness :
  ~ (In msgScopeMissing
        (elems (LintSubject (testConfig ["feat"%string] (Some [str "api"]) true
                                        false 72) (str "feat(ui): add")))
     /\ In (msgScope (Config_ (testConfig ["feat"%string] (Some [str "api"]) true
                                          false 72)) (str "ui"))
           (elems (LintSubject (testConfig ["feat"%string] (Some [str "api"]) true
                                           false 72) (str "feat(ui): add")))).
Proof.
  destruct (@exclusive_violations
              (testConfig ["feat"%string] (Some [str "api"]) true false 72)
              (str "feat(ui): add") (str "feat") (str "ui") [] (str "add"))
    as (H & _).
  - repeat split; try reflexivity; try discriminate; auto.
  - exact H.
Defined.

Lemma length_failing_le (r r' : list (bool * gostring)) :
  Forall2 (fun x y => fst y = true -> fst x = true) r r' ->
  List.length (failing r') <= List.length (failing r).
Proof.
  unfold failing. induction 1 as [|[b m] [b' m'] r r' H _ IH]; cbn; [lia|].
  cbn in H. destruct b'; cbn.
  - rewrite (H eq_refl). cbn. lia.
  - destruct b; cbn; lia.
Qed.

(** X4.  Relaxing a configuration never adds a violation: with a larger
    [MaxSubjectLength], and capitals allowed where they were not, a
    subject gets at most as many messages as before, and a subject that
    passed still passes. *)
Theorem relaxed_config_never_adds
    (types scopes except : slice) (req cap cap' : bool) (max max' : Z)
    (subject : gostring) :
  (max <= max')%Z -> (cap = true -> cap' = true) ->
  let l := mkLinter (mkConfig types scopes req except cap max) in
  let l' := mkLinter (mkConfig types scopes req except cap' max') in
  List.length (elems (LintSubject l' subject))
    <= List.length (elems (LintSubject l subject))
  /\ (LintSubject l subject = None -> LintSubject l' subject = None).
Proof.
  intros Hm Hc l l'.
  assert (L : List.length (elems (LintSubject l' subject))
              <= List.length (elems (LintSubject l subject))).
  { destruct (parseSubject subject) as [m|] eqn:E.
    - apply Grammar_parse in E as (ctype & scope & bang & desc & _ & G).
      rewrite (@LintSubject_Grammar l _ _ _ _ _ G),
              (@LintSubject_Grammar l' _ _ _ _ _ G), !elems_report.
      apply length_failing_le. unfold rules.
      repeat (constructor; [cbn [fst]; try (intros H; exact H)|]);
        try constructor.
      + unfold subjectTooLong. subst l l'. cbn [Config_ MaxSubjectLength].
        intros H. apply Z.ltb_lt in H. apply Z.ltb_lt. lia.
      + unfold startsUpper. subst l l'. cbn [Config_ AllowCapitalSubject].
        destruct cap; [rewrite (Hc eq_refl); intros H; exact H|].
        destruct cap'; [discriminate|intros H; exact H].
    - rewrite !(@LintSubject_unparsed _ subject E). cbn. lia. }
  split; [exact L|].
  intros N. rewrite N in L. cbn in L.
  apply len_LintSubject. unfold len. lia.
Qed.

Lemma relaxed_config_never_adds_witness :
  List.length
    (elems (LintSubject (mkLinter (mkConfig None None false None true 72))
                        (str "fix: Correct the very long line")))
  <= List.length
       (elems (LintSubject (mkLinter (mkConfig None None false None false 10))
                           (str "fix: Correct the very long line"))).
Proof.
  apply (@relaxed_config_never_adds None None None false false true 10 72
           (str "fix: Correct the very long line")).
  - lia.
  - discriminate.
Defined.

Lemma forallb_not_In (p : byte -> bool) s c :
  forallb p s = true -> p c = false -> ~ In c s.
Proof.
  intros H Hc Hin. rewrite forallb_forall in H. apply H in Hin. congruence.
Qed.

Lemma Grammar_no_newline subject ctype scope bang desc :
  Grammar subject ctype scope bang desc -> ~ In newline subject.
Proof.
  intros (Hs & _ & Hty & Hsc & Hb & Hd). subst subject.
  rewrite !in_app_iff. intros [H|[H|[H|[H|H]]]].
  - revert H. now apply (forallb_not_In lower).
  - destruct scope as [|c t]; [exact H|].
    destruct Hsc as [Hsc|Hsc]; [discriminate|].
    cbn [isScope] in Hsc. apply andb_true_iff in Hsc as [H1 H2].
    cbn [scopePart] in H. rewrite !in_app_iff in H. cbn [In str] in H.
    cbn in H. destruct H as [[H|[]]|[[H|H]|[H|[]]]]; try discriminate.
    + subst c. discriminate.
    + revert H. now apply (forallb_not_In scopeByte).
  - destruct Hb as [->| ->]; cbn in H; intuition discriminate.
  - cbn in H. intuition discriminate.
  - revert H. now apply (forallb_not_In dot).
Qed.

(** X5.  A subject with no colon followed by a space, or whose first
    byte is not a lowercase ASCII letter, or that holds a line feed, gets
    the format message and nothing else, whatever the configuration. *)
Theorem malformed_subject_format_message (l : Linter) (subject : gostring) :
  (forall a b, subject <> a ++ str ": " ++ b)
  \/ lower (nth 0 subject zero) = false
  \/ In newline subject ->
  LintSubject l subject = Some [formatMessage].
Proof.
  intros H. apply LintSubject_unparsed.
  destruct (parseSubject subject) as [m|] eqn:E; [|reflexivity].
  apply Grammar_parse in E as (ctype & scope & bang & desc & _ & G).
  exfalso. destruct H as [H|[H|H]].
  - destruct G as (Hs & _).
    apply (H (ctype ++ scopePart scope ++ bang) desc).
    rewrite Hs, <- !app_assoc. reflexivity.
  - destruct G as (Hs & Hne & Hty & _). subst subject.
    destruct ctype as [|c t]; [congruence|].
    cbn in H, Hty. apply andb_true_iff in Hty as [Hc _]. congruence.
  - exact (@Grammar_no_newline _ _ _ _ _ G H).
Qed.

Lemma malformed_subject_format_message_witness :
  LintSubject (mkLinter zeroConfig) (str "Merge branch 'feature/foo'")
  = Some [formatMessage].
Proof.
  apply malformed_subject_format_message. right. left. reflexivity.
Defined.

(** The description of a subject that [TrimSpace] returned is not blank:
    the subject ends with a rune that is not white space. *)
Lemma trimmed_description_not_blank x ctype scope bang desc :
  Grammar (strings.TrimSpace x) ctype scope bang desc ->
  strings.TrimSpace desc <> [].
Proof.
  intros (Hs & _) B.
  pose proof (trailOk_TrimSpace x) as T. rewrite Hs in T.
  assert (E : ctype ++ scopePart scope ++ bang ++ str ": " ++ desc
              = ((ctype ++ scopePart scope ++ bang ++ str ":") ++ [" "%char])
                  ++ desc).
  { rewrite <- !app_assoc. reflexivity. }
  rewrite E in T.
  assert (S : strings.asciiSpace " "%char = true) by reflexivity.
  pose proof (@blank_tail desc (ctype ++ scopePart scope ++ bang ++ str ":")
                " "%char S B) as Hb.
  unfold trailOk in T.
  destruct (((ctype ++ scopePart scope ++ bang ++ str ":") ++ [" "%char]) ++ desc)
    eqn:Z.
  - apply app_eq_nil in Z as [Z _]. apply app_eq_nil in Z as [_ Z]. discriminate.
  - congruence.
Qed.

Lemma msgEmpty_not_format : msgEmpty <> formatMessage.
Proof. discriminate. Qed.

Lemma no_empty_violation_after_trim l x :
  ~ In msgEmpty (elems (LintSubject l (strings.TrimSpace x))).
Proof.
  destruct (parseSubject (strings.TrimSpace x)) as [m|] eqn:E.
  - apply Grammar_parse in E as (ctype & scope & bang & desc & _ & G).
    rewrite (@LintSubject_Grammar l _ _ _ _ _ G), elems_report.
    destruct (fires (Config_ l) ctype scope (strings.TrimSpace desc))
      as (_ & _ & _ & F4 & _).
    intros H. apply F4 in H. apply subjectEmpty_spec in H.
    exact (@trimmed_description_not_blank _ _ _ _ _ G H).
  - rewrite (@LintSubject_unparsed l _ E). cbn.
    intros [H|[]]. symmetry in H. exact (msgEmpty_not_format H).
Qed.

(** X9.  "subject must not be empty" is reported only for a subject that
    [TrimSpace] changes: the description is blank only when the subject
    ends with the space after the colon or with more white space.  For a
    subject without white space around it the check never fires; a
    subject cut down to its type and colon gets the format message. *)
Theorem empty_violation_needs_trailing_space (l : Linter) (subject : gostring) :
  In msgEmpty (elems (LintSubject l subject)) ->
  strings.TrimSpace subject <> subject.
Proof.
  intros H E. rewrite <- E in H.
  exact (no_empty_violation_after_trim l subject H).
Qed.

Lemma empty_violation_needs_trailing_space_witness :
  strings.TrimSpace (str "chore: ") <> str "chore: ".
Proof.
  apply (@empty_violation_needs_trailing_space (NewLinter noenv)).
  vm_compute. left. reflexivity.
Defined.

(** * The runs of [GetGitCommits] *)

(** Both argument lists of [GetGitCommits] hold the format, and the
    format holds a NUL byte. *)
Lemma logArgs_hasNUL rangeSpec limit :
  existsb exec.hasNUL (logArgs rangeSpec limit) = true.
Proof.
  unfold logArgs. cbv zeta.
  destruct (negb (eqs rangeSpec [])), (0 <? limit)%Z; reflexivity.
Qed.

Lemma fallbackArgs_hasNUL : existsb exec.hasNUL fallbackArgs = true.
Proof. reflexivity. Qed.

Lemma runs_refused (git : exec.Runner) rangeSpec limit :
  exists e0 e1,
    git 0 (logArgs rangeSpec limit) = inr e0 /\ git 1 fallbackArgs = inr e1.
Proof.
  destruct (exec.refuses git 0 (logArgs rangeSpec limit)
              (logArgs_hasNUL rangeSpec limit)) as [e0 E0].
  destruct (exec.refuses git 1 fallbackArgs fallbackArgs_hasNUL) as [e1 E1].
  now exists e0, e1.
Qed.

(** X6.  [GetGitCommits] never returns a commit.  The format it passes to
    [git] holds a NUL byte, in the first run and in the second, and an
    argument with a NUL byte is refused when the command is started: both
    runs fail, whatever the repository, the range and the limit.  The
    result is no commit and the error of the second run, after the
    warning that names the error of the first. *)
Theorem GetGitCommits_never_succeeds
    (git : exec.Runner) (rangeSpec : gostring) (limit : Z) :
  exists e0 e1,
    git 0 (logArgs rangeSpec limit) = inr e0
    /\ git 1 fallbackArgs = inr e1
    /\ GetGitCommits git rangeSpec limit
       = mkGitLog []
           (Some (str "failed to get git commits: " ++ e1))
           [str "::warning title=commitlint::Could not read git log (" ++ e0
            ++ str "). Falling back to HEAD" ++ [newline]]
           [logArgs rangeSpec limit; fallbackArgs].
Proof.
  destruct (runs_refused git rangeSpec limit) as (e0 & e1 & E0 & E1).
  exists e0, e1. split; [exact E0|]. split; [exact E1|].
  unfold GetGitCommits. cbv zeta. rewrite E0, E1. reflexivity.
Qed.


(** The runs of [GetGitCommits], by the result of the first. *)
Lemma GetGitCommits_runs_cases
    (git : exec.Runner) (rangeSpec : gostring) (limit : Z) :
  let g := GetGitCommits git rangeSpec limit in
  ((exists out, git 0 (logArgs rangeSpec limit) = inl out)
   /\ runs g = [logArgs rangeSpec limit] /\ stderr g = []
   \/ (exists e, git 0 (logArgs rangeSpec limit) = inr e)
      /\ runs g = [logArgs rangeSpec limit; fallbackArgs]
      /\ List.length (stderr g) = 1)
  /\ Forall (fun a => firstn 3 a
                      = [str "log"; str "--no-merges";
                         str "--pretty=format:%H" ++ [zero] ++ str "%s"])
            (runs g).
Proof.
  intros g. subst g. unfold GetGitCommits. cbv zeta.
  assert (F : forall r l, firstn 3 (logArgs r l)
              = [str "log"; str "--no-merges";
                 str "--pretty=format:%H" ++ [zero] ++ str "%s"]).
  { intros r l. unfold logArgs. cbv zeta.
    destruct (negb (eqs r [])), (0 <? l)%Z; reflexivity. }
  destruct (git 0 _) as [out|e] eqn:E0.
  - unfold scanCommits. destruct (bufio.scanLines [] 0 out) as [ls tl].
    cbn [runs stderr]. split.
    + left. split; [now exists out|]. now split.
    + repeat constructor. apply F.
  - assert (R : Forall (fun a => firstn 3 a
                          = [str "log"; str "--no-merges";
                             str "--pretty=format:%H" ++ [zero] ++ str "%s"])
                       [logArgs rangeSpec limit; fallbackArgs]).
    { repeat constructor. apply F. }
    destruct (git 1 _) as [out|e'].
    + unfold scanCommits. destruct (bufio.scanLines [] 0 out) as [ls tl].
      cbn [runs stderr]. split; [|exact R].
      right. split; [now exists e|]. now split.
    + cbn [runs stderr]. split; [|exact R].
      right. split; [now exists e|]. now split.
Qed.

(** * The run of [main] *)

Lemma shortSha_firstn sha : shortSha sha = firstn 7 sha.
Proof.
  unfold shortSha. destruct (Nat.ltb_spec 7 (List.length sha)) as [H|H];
    [reflexivity|].
  symmetry. now apply firstn_all2.
Qed.

Lemma lintCommit_out l st c :
  lintCommit l st c
  = mkReport (errorCount st + Z.of_nat (List.length (diagnostics l c)))
             (stdout st ++ diagnostics l c).
Proof.
  destruct c as [sha subj]. unfold lintCommit, diagnostics. cbn [fst snd].
  rewrite shortSha_firstn, length_map. fold (len (LintSubject l subj)).
  destruct (Nat.ltb_spec 0 (len (LintSubject l subj))) as [H|H];
    [reflexivity|].
  assert (E : elems (LintSubject l subj) = []).
  { unfold len in H. destruct (elems (LintSubject l subj)); [reflexivity|].
    cbn in H. lia. }
  unfold len. rewrite E. cbn [map List.length Z.of_nat].
  rewrite Z.add_0_r, app_nil_r. now destruct st.
Qed.

Lemma lintCommits_out l cs : forall st,
  lintCommits l cs st
  = mkReport
      (errorCount st + Z.of_nat (List.length (flat_map (diagnostics l) cs)))
      (stdout st ++ flat_map (diagnostics l) cs).
Proof.
  unfold lintCommits.
  induction cs as [|c cs IH]; intros st; cbn [fold_left flat_map].
  - cbn [List.length Z.of_nat]. rewrite Z.add_0_r, app_nil_r. now destruct st.
  - rewrite IH, lintCommit_out. cbn [errorCount stdout].
    rewrite length_app, <- app_assoc. f_equal. lia.
Qed.

Lemma list_sum_step a l : list_sum (a :: l) = a + list_sum l.
Proof. reflexivity. Qed.

Lemma length_diagnostics l cs :
  List.length (flat_map (diagnostics l) cs) = violations l cs.
Proof.
  unfold violations. induction cs as [|c cs IH]; [reflexivity|].
  cbn [flat_map map]. rewrite list_sum_step, length_app, IH.
  unfold diagnostics at 1. now rewrite length_map.
Qed.


Lemma main_skipped env args git :
  skipsForBot env = true ->
  main env args git
  = mkOutcome [line "::notice title=commitlint::Skipping for release-please[bot]."]
              [] 0 [].
Proof.
  unfold skipsForBot, main. now intros ->.
Qed.

(** What [main] does when it does not skip the run, by the result of
    [GetGitCommits]. *)
Lemma main_not_skipped env args git :
  skipsForBot env = false ->
  let log := GetGitCommits git (rangeOf env args) 200 in
  let total := violations (NewLinter env) (commits log) in
  gitRuns (main env args git) = runs log
  /\ match err log with
     | Some e =>
         main env args git
         = mkOutcome []
             (stderr log
              ++ [str "::error title=commitlint::Failed to get git commits: "
                  ++ e ++ [newline]])
             1 (runs log)
     | None =>
         match commits log with
         | [] =>
             main env args git
             = mkOutcome
                 [line "::warning title=commitlint::No commits found to lint."]
                 (stderr log) 0 (runs log)
         | _ :: _ =>
             main env args git
             = mkOutcome
                 (flat_map (diagnostics (NewLinter env)) (commits log)
                  ++ summary total (List.length (commits log)))
                 (stderr log) (if (0 <? total)%nat then 1 else 0)
                 (runs log)
         end
     end.
Proof.
  intros Hs log total. unfold main. fold (skipsForBot env). rewrite Hs.
  cbv zeta. fold (rangeOf env args). fold log.
  destruct (err log) as [e|]; [split; reflexivity|].
  destruct (commits log) as [|c cs] eqn:EC; [split; reflexivity|].
  cbn [List.length Nat.eqb].
  rewrite lintCommits_out. cbn [errorCount stdout app].
  assert (T : total = violations (NewLinter env) (c :: cs))
    by (subst total; rewrite ?EC; reflexivity).
  rewrite length_diagnostics, <- T. unfold summary.
  destruct total as [|k].
  - cbn [Z.of_nat Z.add Z.ltb Z.compare Nat.ltb Nat.leb].
    split; reflexivity.
  - replace (0 <? 0 + Z.of_nat (S k))%Z with true
      by (symmetry; apply Z.ltb_lt; lia).
    change (0 <? S k) with true. cbv iota.
    split; [reflexivity|]. rewrite Z.add_0_l. reflexivity.
Qed.

(** * [getEnvBool] *)

Lemma lowerByte_cases c :
  strings.lowerByte c = c
  \/ inRange 97 122 (strings.lowerByte c) = true
     /\ upperByte (strings.lowerByte c) = c.
Proof.
  destruct c as [[] [] [] [] [] [] [] []]; vm_compute;
    first [left; reflexivity | right; split; reflexivity].
Qed.

Lemma lowerByte_upperByte b :
  inRange 97 122 b = true -> strings.lowerByte (upperByte b) = b.
Proof. bytes b. Qed.

Lemma lowerByte_not_upper b :
  inRange 65 90 b = false -> strings.lowerByte b = b.
Proof. unfold strings.lowerByte. now intros ->. Qed.

Lemma casings_spec w :
  forallb (fun b => negb (inRange 65 90 b)) w = true ->
  forall v, In v (casings w) <-> strings.ToLower v = w.
Proof.
  unfold strings.ToLower.
  induction w as [|b w IH]; cbn [forallb casings]; intros Hw v.
  - cbn [In]. split.
    + intros [<-|[]]. reflexivity.
    + intros H. left. destruct v; [reflexivity|discriminate].
  - apply andb_true_iff in Hw as [Hb Hw]. apply negb_true_iff in Hb.
    specialize (IH Hw). rewrite in_app_iff, in_map_iff. split.
    + intros [(v' & <- & H)|H].
      * cbn [map]. apply IH in H. now rewrite H, lowerByte_not_upper.
      * destruct (inRange 97 122 b) eqn:El; [|destruct H].
        apply in_map_iff in H as (v' & <- & H). cbn [map].
        apply IH in H. now rewrite H, lowerByte_upperByte.
    + intros H. destruct v as [|c v']; [discriminate|].
      cbn [map] in H. apply cons_inj in H as [Hc Hv]. apply IH in Hv.
      destruct (lowerByte_cases c) as [E|[E1 E2]].
      * left. exists v'. split; [|exact Hv]. congruence.
      * right. rewrite Hc in E1, E2. rewrite E1. apply in_map_iff.
        exists v'. split; [now rewrite E2|exact Hv].
Qed.

Lemma eqs_true_iff a b : eqs a b = true <-> a = b.
Proof.
  split; [apply eqs_eq|]. intros ->. apply eqs_refl.
Qed.

Lemma getEnvBool_true_iff env name defaultValue :
  getEnvBool env name defaultValue = true
  <-> (os.Getenv env name = [] /\ defaultValue = true)
      \/ In (os.Getenv env name) truthy.
Proof.
  unfold getEnvBool. cbv zeta. set (v := os.Getenv env name).
  assert (T : In v truthy
              <-> eqs (strings.ToLower v) (str "1")
                  || eqs (strings.ToLower v) (str "true")
                  || eqs (strings.ToLower v) (str "yes")
                  || eqs (strings.ToLower v) (str "on") = true).
  { unfold truthy. cbn [flat_map]. rewrite !in_app_iff.
    rewrite !casings_spec by reflexivity.
    rewrite !orb_true_iff, !eqs_true_iff. cbn [In]. tauto. }
  destruct v as [|c v'] eqn:Ev.
  - cbn [strings.ToLower map eqs]. split.
    + intros ->. now left.
    + intros [[_ H]|H]; [exact H|].
      apply T in H. cbn in H. discriminate.
  - cbn [strings.ToLower map eqs]. rewrite <- T. split.
    + intros H. now right.
    + intros [[H _]|H]; [discriminate|exact H].
Qed.

(** X10.  [getEnvBool] gives the default when the variable is unset or
    empty; otherwise it gives true exactly for the twenty-nine spellings
    of 1, true, yes and on with each letter in either case, and false for
    everything else, white space around a word included. *)
Theorem getEnvBool_truthy (env : os.Env) (name : gostring) (defaultValue : bool) :
  (os.Getenv env name = [] -> getEnvBool env name defaultValue = defaultValue)
  /\ (os.Getenv env name <> [] ->
      (getEnvBool env name defaultValue = true
       <-> In (os.Getenv env name) truthy))
  /\ List.length truthy = 29.
Proof.
  split; [|split; [|reflexivity]].
  - intros E. unfold getEnvBool. now rewrite E.
  - intros Hne. rewrite getEnvBool_true_iff. split.
    + intros [[E _]|H]; [contradiction|exact H].
    + intros H. now right.
Qed.

Lemma getEnvBool_truthy_witness :
  getEnvBool (setenv (str "REQUIRE_SCOPE") (str "yEs")) (str "REQUIRE_SCOPE")
             false
  = true.
Proof.
  destruct (getEnvBool_truthy
              (setenv (str "REQUIRE_SCOPE") (str "yEs")) (str "REQUIRE_SCOPE")
              false) as (_ & H & _).
  apply H; [discriminate|]. vm_compute. tauto.
Defined.

(** * [inferRangeFromGithubEnv] *)

Lemma HasPrefix_iff s p :
  strings.HasPrefix s p = true <-> exists rest, s = p ++ rest.
Proof.
  unfold strings.HasPrefix. rewrite andb_true_iff, eqs_true_iff, Nat.leb_le.
  split.
  - intros [_ E]. exists (skipn (List.length p) s).
    rewrite <- E at 1. symmetry. apply firstn_skipn.
  - intros [rest ->]. rewrite length_app. split; [lia|].
    rewrite firstn_app, Nat.sub_diag, firstn_all. cbn. apply app_nil_r.
Qed.

(** X11.  [inferRangeFromGithubEnv] gives a range exactly for the events
    whose name starts with pull_request, when the base branch is known:
    the range from the base branch on origin to HEAD.  For every other
    event, and without a base branch, it gives the empty string. *)
Theorem inferRangeFromGithubEnv_spec (env : os.Env) :
  let eventName := os.Getenv env (str "GITHUB_EVENT_NAME") in
  let baseRef := os.Getenv env (str "GITHUB_BASE_REF") in
  ((exists rest, eventName = str "pull_request" ++ rest) /\ baseRef <> [] ->
   inferRangeFromGithubEnv env = str "origin/" ++ baseRef ++ str "..HEAD")
  /\ (~ ((exists rest, eventName = str "pull_request" ++ rest) /\ baseRef <> []) ->
      inferRangeFromGithubEnv env = []).
Proof.
  intros eventName baseRef. unfold inferRangeFromGithubEnv. cbv zeta.
  fold eventName baseRef. split.
  - intros [H1 H2]. apply HasPrefix_iff in H1. rewrite H1.
    apply eqs_neq in H2. now rewrite H2.
  - intros H.
    destruct (strings.HasPrefix eventName (str "pull_request")) eqn:E1;
      [|reflexivity].
    destruct (eqs baseRef []) eqn:E2; [reflexivity|].
    exfalso. apply H. split; [now apply HasPrefix_iff|].
    intros K. rewrite K in E2. discriminate.
Qed.

Lemma inferRangeFromGithubEnv_spec_witness :
  inferRangeFromGithubEnv
    (fun n => if eqs n (str "GITHUB_EVENT_NAME")
              then Some (str "pull_request_target")
              else if eqs n (str "GITHUB_BASE_REF") then Some (str "main")
              else None)
  = str "origin/main..HEAD".
Proof.
  destruct (inferRangeFromGithubEnv_spec
              (fun n => if eqs n (str "GITHUB_EVENT_NAME")
                        then Some (str "pull_request_target")
                        else if eqs n (str "GITHUB_BASE_REF")
                             then Some (str "main")
                             else None)) as [H _].
  apply H. split; [exists (str "_target"); reflexivity|discriminate].
Defined.

(** * [main] *)

Lemma runs_not_nil git rangeSpec limit :
  runs (GetGitCommits git rangeSpec limit) <> [].
Proof.
  unfold GetGitCommits. cbv zeta. destruct (git 0 _) as [out|e].
  - unfold scanCommits. destruct (bufio.scanLines [] 0 out). discriminate.
  - destruct (git 1 _) as [out|e'].
    + unfold scanCommits. destruct (bufio.scanLines [] 0 out). discriminate.
    + discriminate.
Qed.


(** X13.  Unless the run is skipped, [main] never lints a commit: both
    runs of [git] are refused, so it prints nothing to the standard
    output, writes the warning of the fallback and the line of the error
    to the standard error, and exits with 1. *)
Theorem main_never_lints
    (env : os.Env) (args : list gostring) (git : exec.Runner) :
  skipsForBot env = false ->
  exists e0 e1,
    git 0 (logArgs (rangeOf env args) 200) = inr e0
    /\ git 1 fallbackArgs = inr e1
    /\ main env args git
       = mkOutcome []
           [str "::warning title=commitlint::Could not read git log (" ++ e0
            ++ str "). Falling back to HEAD" ++ [newline];
            str "::error title=commitlint::Failed to get git commits: "
            ++ str "failed to get git commits: " ++ e1 ++ [newline]]
           1 [logArgs (rangeOf env args) 200; fallbackArgs].
Proof.
  intros Hs.
  destruct (runs_refused git (rangeOf env args) 200) as (e0 & e1 & E0 & E1).
  exists e0, e1. split; [exact E0|]. split; [exact E1|].
  destruct (main_not_skipped env args git Hs) as [_ H].
  unfold GetGitCommits in H. cbv zeta in H. rewrite E0, E1 in H.
  cbn [err stderr runs app] in H. exact H.
Qed.

Lemma main_never_lints_witness :
  main noenv [str "commit-lint"; str "--range"; str "v1.0.0..HEAD"]
       (exec.fails (str "fork/exec /usr/bin/git: invalid argument"))
  = mkOutcome []
      [str "::warning title=commitlint::Could not read git log (fork/exec /usr/bin/git: invalid argument). Falling back to HEAD"
       ++ [newline];
       str "::error title=commitlint::Failed to get git commits: failed to get git commits: fork/exec /usr/bin/git: invalid argument"
       ++ [newline]]
      1
      [[str "log"; str "--no-merges";
        str "--pretty=format:%H" ++ [zero] ++ str "%s";
        str "v1.0.0..HEAD"; str "-n"; str "200"];
       [str "log"; str "--no-merges";
        str "--pretty=format:%H" ++ [zero] ++ str "%s"; str "-n"; str "1"]].
Proof.
  destruct (@main_never_lints noenv
              [str "commit-lint"; str "--range"; str "v1.0.0..HEAD"]
              (exec.fails (str "fork/exec /usr/bin/git: invalid argument")))
    as (e0 & e1 & E0 & E1 & H).
  - reflexivity.
  - cbn in E0, E1. injection E0 as <-. injection E1 as <-. exact H.
Defined.

(** X14.  [main] skips the run, without running [git], exactly when the
    actor is release-please[bot] and SKIP_FOR_BOT is unset, empty or one
    of the spellings of true; it then prints a notice and exits with 0.
    In every other case it runs [git]. *)
Theorem main_skips_for_bot
    (env : os.Env) (args : list gostring) (git : exec.Runner) :
  let skip :=
    os.Getenv env (str "GITHUB_ACTOR") = str "release-please[bot]"
    /\ (os.Getenv env (str "SKIP_FOR_BOT") = []
        \/ In (os.Getenv env (str "SKIP_FOR_BOT")) truthy) in
  (skip ->
   main env args git
   = mkOutcome [line "::notice title=commitlint::Skipping for release-please[bot]."]
               [] 0 [])
  /\ (gitRuns (main env args git) = [] <-> skip).
Proof.
  intros skip.
  assert (S : skipsForBot env = true <-> skip).
  { unfold skipsForBot, skip.
    rewrite andb_true_iff, eqs_true_iff, getEnvBool_true_iff. tauto. }
  split.
  - intros K. apply main_skipped. now apply S.
  - rewrite <- S. destruct (skipsForBot env) eqn:Hs.
    + rewrite (main_skipped env args git Hs). cbn. tauto.
    + destruct (main_not_skipped env args git Hs) as [-> _].
      split; [|discriminate]. intros K. exfalso.
      exact (runs_not_nil _ _ _ K).
Qed.

Lemma main_skips_for_bot_witness :
  main (setenv (str "GITHUB_ACTOR") (str "release-please[bot]"))
       [str "commit-lint"] (exec.fails (str "exit status 128"))
  = mkOutcome [line "::notice title=commitlint::Skipping for release-please[bot]."]
              [] 0 [].
Proof.
  destruct (main_skips_for_bot
              (setenv (str "GITHUB_ACTOR") (str "release-please[bot]"))
              [str "commit-lint"] (exec.fails (str "exit status 128")))
    as [H _].
  apply H. split; [reflexivity|left; reflexivity].
Defined.

Lemma logArgs_200 r :
  logArgs r 200
  = [str "log"; str "--no-merges"; str "--pretty=format:" ++ format]
    ++ (if eqs r [] then [] else [r]) ++ [str "-n"; str "200"].
Proof. unfold logArgs. cbv zeta. destruct (eqs r []); reflexivity. Qed.

(** X15.  [main] runs [git] at most twice, and every run is [git log]
    without merge commits, for at most 200 commits: the first run for the
    range of the argument after --range, or else the range inferred from
    the environment, if it is not empty; the second, made when the first
    failed, for the last commit only. *)
Theorem main_git_runs
    (env : os.Env) (args : list gostring) (git : exec.Runner) :
  let base := [str "log"; str "--no-merges";
               str "--pretty=format:%H" ++ [zero] ++ str "%s"] in
  let first := base ++ (if eqs (rangeOf env args) [] then []
                        else [rangeOf env args])
               ++ [str "-n"; str "200"] in
  let second := base ++ [str "-n"; str "1"] in
  let rs := gitRuns (main env args git) in
  (rs = [] <-> skipsForBot env = true)
  /\ (rs = [first] <->
      skipsForBot env = false /\ exists out, git 0 first = inl out)
  /\ (rs = [first; second] <->
      skipsForBot env = false /\ exists e, git 0 first = inr e)
  /\ (rs = [] \/ rs = [first] \/ rs = [first; second]).
Proof.
  intros base first second rs. subst rs.
  assert (F : logArgs (rangeOf env args) 200 = first) by apply logArgs_200.
  destruct (skipsForBot env) eqn:Hs.
  - rewrite (main_skipped env args git Hs). cbn [gitRuns].
    repeat (match goal with |- _ /\ _ => split end).
    + tauto.
    + split; [discriminate|intros [K _]; discriminate].
    + split; [discriminate|intros [K _]; discriminate].
    + now left.
  - destruct (main_not_skipped env args git Hs) as [-> _].
    destruct (GetGitCommits_runs_cases git (rangeOf env args) 200)
      as [[((out & G) & R & _)|((e & G) & R & _)] _];
      rewrite R, F; rewrite F in G;
      repeat (match goal with |- _ /\ _ => split end).
    + split; discriminate.
    + split; [intros _; split; [reflexivity|now exists out]|reflexivity].
    + split; [discriminate|]. intros [_ [e K]]. congruence.
    + right. now left.
    + split; discriminate.
    + split; [discriminate|]. intros [_ [out K]]. congruence.
    + split; [intros _; split; [reflexivity|now exists e]|reflexivity].
    + right. now right.
Qed.


(** * [readEnvList] *)

Lemma splitAt_no_sep sep s : forall cur p,
  ~ In sep cur -> In p (strings.splitAt sep cur s) -> ~ In sep p.
Proof.
  induction s as [|c s IH]; intros cur p Hc; cbn [strings.splitAt].
  - intros [<-|[]] K. apply in_rev in K. exact (Hc K).
  - destruct (Ascii.eqb_spec c sep) as [->|Hn].
    + intros [<-|H].
      * intros K. apply in_rev in K. exact (Hc K).
      * apply (IH [] p); [intros []|exact H].
    + apply IH. intros [K|K]; [congruence|exact (Hc K)].
Qed.

Lemma splitAt_app sep p : forall cur rest,
  ~ In sep p ->
  strings.splitAt sep cur (p ++ rest) = strings.splitAt sep (rev p ++ cur) rest.
Proof.
  induction p as [|c p IH]; intros cur rest Hp; [reflexivity|].
  cbn [app strings.splitAt].
  destruct (Ascii.eqb_spec c sep) as [->|Hn]; [exfalso; apply Hp; now left|].
  rewrite IH by (intros K; apply Hp; now right).
  cbn [rev]. now rewrite <- app_assoc.
Qed.

Lemma Split_Join ps sep :
  ps <> [] -> Forall (fun p => ~ In sep p) ps ->
  strings.Split (strings.Join ps [sep]) sep = ps.
Proof.
  unfold strings.Split. intros Hne H. induction H as [|p ps Hp _ IH]; [congruence|].
  cbn [strings.Join]. destruct ps as [|q ps].
  - rewrite <- (app_nil_r p) at 1. rewrite splitAt_app by assumption.
    cbn [strings.splitAt]. now rewrite app_nil_r, rev_involutive.
  - rewrite splitAt_app by assumption. cbn [app strings.splitAt].
    rewrite Ascii.eqb_refl, app_nil_r, rev_involutive.
    rewrite IH by discriminate. reflexivity.
Qed.

Lemma readEnvList_set env name defaultValue :
  strings.TrimSpace (os.Getenv env name) <> [] ->
  readEnvList env name defaultValue
  = Some (filter (fun t => negb (eqs t []))
            (map strings.TrimSpace (strings.Split (os.Getenv env name) ","%char))).
Proof.
  intros H. apply eqs_neq in H. unfold readEnvList. cbv zeta.
  rewrite H, H. now rewrite keepTrimmed_spec.
Qed.

(** X16.  Every entry of a list that [readEnvList] returns is not empty,
    has no white space around it and holds no comma. *)
Theorem readEnvList_entries
    (env : os.Env) (name defaultValue t : gostring) :
  In t (elems (readEnvList env name defaultValue)) ->
  t <> [] /\ strings.TrimSpace t = t /\ ~ In ","%char t.
Proof.
  unfold readEnvList. cbv zeta.
  set (raw := if eqs (strings.TrimSpace (os.Getenv env name)) []
              then defaultValue else os.Getenv env name).
  destruct (eqs (strings.TrimSpace raw) []); [intros []|].
  cbn [elems]. rewrite keepTrimmed_spec. cbn [app].
  intros H. apply filter_In in H as [H Hne].
  apply in_map_iff in H as (p & <- & Hp).
  apply negb_true_iff, eqs_neq in Hne.
  split; [exact Hne|]. split; [apply TrimSpace_idempotent|].
  intros K. apply TrimSpace_In in K.
  exact (@splitAt_no_sep ","%char raw [] p (fun F => F) Hp K).
Qed.

Lemma readEnvList_entries_witness :
  str "api" <> [] /\ strings.TrimSpace (str "api") = str "api"
  /\ ~ In ","%char (str "api").
Proof.
  apply (@readEnvList_entries (setenv (str "SCOPES") (str " ui ,, api "))
           (str "SCOPES") []).
  vm_compute. right. left. reflexivity.
Defined.

(** X17.  For a value that is not blank, written as pieces with commas
    between them, [readEnvList] returns the pieces without the white
    space around them, in order, leaving out those that are blank; the
    default is not used. *)
Theorem readEnvList_pieces
    (env : os.Env) (name defaultValue : gostring) (ps : list gostring) :
  os.Getenv env name = strings.Join ps [","%char] ->
  Forall (fun p => ~ In ","%char p) ps ->
  strings.TrimSpace (strings.Join ps [","%char]) <> [] ->
  readEnvList env name defaultValue
  = Some (filter (fun t => negb (eqs t [])) (map strings.TrimSpace ps)).
Proof.
  intros E Hp Hb. rewrite readEnvList_set by (now rewrite E).
  rewrite E, Split_Join; [reflexivity| |exact Hp].
  intros ->. apply Hb. reflexivity.
Qed.

Lemma readEnvList_pieces_witness :
  readEnvList (setenv (str "TYPES") (str "feat, fix ,,docs")) (str "TYPES")
              (str "chore")
  = Some [str "feat"; str "fix"; str "docs"].
Proof.
  apply (@readEnvList_pieces (setenv (str "TYPES") (str "feat, fix ,,docs"))
           (str "TYPES") (str "chore")
           [str "feat"; str " fix "; []; str "docs"]).
  - reflexivity.
  - repeat constructor; cbn; intuition discriminate.
  - vm_compute. discriminate.
Defined.

Lemma Join_leadOk t ts :
  t <> [] -> strings.TrimSpace t = t ->
  leadOk (strings.Join (t :: ts) [","%char]).
Proof.
  intros Hne Ht. cbn [strings.Join]. destruct ts as [|u ts].
  - now apply trimmed_leadOk.
  - cbn [app]. apply leadOk_app_start; [exact Hne| |reflexivity].
    now apply trimmed_leadOk.
Qed.

(** X18.  Reading back: a list of entries, each not empty, without white
    space around it and without a comma, joined with commas, is read by
    [readEnvList] as that list. *)
Theorem readEnvList_round_trip
    (env : os.Env) (name defaultValue : gostring) (ts : list gostring) :
  ts <> [] ->
  Forall (fun t => t <> [] /\ strings.TrimSpace t = t /\ ~ In ","%char t) ts ->
  os.Getenv env name = strings.Join ts [","%char] ->
  readEnvList env name defaultValue = Some ts.
Proof.
  intros Hne H E.
  assert (B : strings.TrimSpace (strings.Join ts [","%char]) <> []).
  { destruct H as [|t ts (H1 & H2 & _) _]; [congruence|].
    apply TrimSpace_nonempty; [|now apply Join_leadOk].
    cbn [strings.Join]. destruct ts; [exact H1|].
    destruct t; [congruence|discriminate]. }
  rewrite readEnvList_set by (now rewrite E).
  rewrite E, Split_Join; [|exact Hne|].
  - f_equal. clear Hne E B. induction H as [|t ts (H1 & H2 & _) _ IH];
      [reflexivity|].
    cbn [map filter]. rewrite H2. apply eqs_neq in H1. rewrite H1.
    cbn [negb]. now rewrite IH.
  - eapply Forall_impl; [|exact H]. cbn. tauto.
Qed.

Lemma readEnvList_round_trip_witness :
  readEnvList (setenv (str "SCOPES") (str "api,ui,core/db")) (str "SCOPES") []
  = Some [str "api"; str "ui"; str "core/db"].
Proof.
  apply readEnvList_round_trip.
  - discriminate.
  - repeat constructor; try discriminate; try reflexivity;
      cbn; intuition discriminate.
  - reflexivity.
Defined.
